(** * Frequency annotations of [utils/compute_frequencies.py]

    A shallow embedding of the Hail expressions built by
    [popmax_expr], [project_max_expr], [faf_expr],
    [_generate_downsamplings_cumulative] and [generate_frequency_data],
    with the properties the specification states about them.

    Conventions of the embedding.
    - A Hail array is a [list], a Hail dictionary of strings a
      [gmap string string], a Hail set of strings a [gset string].
    - A Hail boolean may be missing: it is an [option bool], and [&], [|]
      and [~] are the three-valued connectives of the engine.  [hl.filter]
      and [hl.agg.filter] keep what evaluates to true.
    - A value that may be missing is an [option].  The result of a lazily
      evaluated expression is an [hl A]: a value or a fatal error of the
      engine (array index out of bounds, absent dictionary key).
    - A Python-level step of [generate_frequency_data] is a [py A]: a
      result or an exception raised by the interpreter in the function's
      own frame.
    - 32-bit counts are in [Z] (the code only compares them); 64-bit
      floats are rationals [Qc], of which the code only uses the order,
      zero and negation.  Fields of call statistics are defined values.
    - What the engine computes and the code only calls ([hl.sorted],
      [Table.order_by], [hl.agg.call_stats], [hl.agg.hist],
      [hl.experimental.filtering_allele_frequency]) is the interface
      [Engine], with the order in which Python iterates over a set it
      receives from an aggregation; [reference_engine] is an executable
      instance.
    - An expression over the rows of a table is a function of the row.
      The Python code that builds it runs once, and may raise; the
      expression is evaluated lazily at each row, and may be fatal
      there. *)

From Stdlib Require Import QArith Qcanon.
From stdpp Require Import base numbers list sorting strings gmap pretty.

Local Open Scope Z_scope.

(** ** Values of the engine *)

(** Three-valued booleans. *)
Definition hl_and (a b : option bool) : option bool :=
  match a, b with
  | Some false, _ | _, Some false => Some false
  | Some true, Some true => Some true
  | _, _ => None
  end.

Definition hl_or (a b : option bool) : option bool :=
  match a, b with
  | Some true, _ | _, Some true => Some true
  | Some false, Some false => Some false
  | _, _ => None
  end.

Definition hl_not (a : option bool) : option bool := negb <$> a.

Declare Scope hl_scope.
Delimit Scope hl_scope with hl.
Infix "&&&" := hl_and (at level 40, left associativity) : hl_scope.
Infix "|||" := hl_or (at level 50, left associativity) : hl_scope.

(** [a == b] on values that may be missing. *)
Definition hl_eq {A} `{EqDecision A} (a b : option A) : option bool :=
  match a, b with
  | Some x, Some y => Some (bool_decide (x = y))
  | _, _ => None
  end.

(** [hl.filter] and [hl.agg.filter] keep an element when the predicate is
    defined and true. *)
Definition keeps (b : option bool) : bool :=
  match b with Some true => true | _ => false end.

(** [s.contains(x)] for a set literal built from Python strings: the set
    holds no missing element, so a missing [x] is not in it. *)
Definition set_contains (s : gset string) (x : option string) : option bool :=
  match x with
  | Some k => Some (bool_decide (k ∈ s))
  | None => Some false
  end.

(** [d.contains(k)] for a dictionary. *)
Definition dict_contains (d : gmap string string) (k : string) : option bool :=
  Some (bool_decide (is_Some (d !! k))).

(** The result of evaluating an expression: a value (an [option] where the
    value may be missing) or a fatal error of the engine. *)
Inductive hl (A : Type) : Type :=
  | Val (a : A)
  | Fatal (msg : string).
Arguments Val {A} a.
Arguments Fatal {A} msg.

#[global] Instance hl_ret : MRet hl := λ A a, Val a.
#[global] Instance hl_bind : MBind hl := λ A B f m,
  match m with
  | Val a => f a
  | Fatal msg => Fatal msg
  end.
#[global] Instance hl_fmap : FMap hl := λ A B f m,
  match m with
  | Val a => Val (f a)
  | Fatal msg => Fatal msg
  end.

(** [a[i]] on an array and [d[k]] on a dictionary are fatal out of range. *)
Definition array_index {A} (a : list A) (i : nat) : hl A :=
  match a !! i with
  | Some x => Val x
  | None => Fatal "array index out of bounds"
  end.

Definition dict_index (d : gmap string string) (k : string) : hl string :=
  match d !! k with
  | Some v => Val v
  | None => Fatal "dictionary does not contain key"
  end.

(** [hl.or_missing(c, e)]: missing unless [c] holds; [e] is evaluated only
    when it does. *)
Definition or_missing {A} (c : bool) (e : hl A) : hl (option A) :=
  if c then Some <$> e else Val None.

(** A fatal error in one element of an array is a fatal error of the
    array. *)
Fixpoint hl_all {A} (l : list (hl A)) : hl (list A) :=
  match l with
  | [] => Val []
  | x :: l' => a ← x; r ← hl_all l'; Val (a :: r)
  end.

(** [hl.filter] and [hl.agg.filter] with a condition that indexes an
    array. *)
Fixpoint filter_hl {A} (cond : A → hl (option bool)) (l : list A)
  : hl (list A) :=
  match l with
  | [] => Val []
  | x :: l' =>
      c ← cond x; r ← filter_hl cond l';
      Val (if keeps c then x :: r else r)
  end.

(** The distinct elements of a list, in the order of their first
    occurrence. *)
Fixpoint distinct {A} `{EqDecision A} (l : list A) : list A :=
  match l with
  | [] => []
  | x :: l' => x :: filter (λ y, y ≠ x) (distinct l')
  end.

(** Python's [l.insert(i, x)] for [0 <= i]: at the end when [i] is past
    it. *)
Definition py_insert {A} (i : nat) (x : A) (l : list A) : list A :=
  take i l ++ x :: drop i l.

(** ** Genotypes and call statistics *)

Inductive Call : Type :=
  | Haploid (a : nat)
  | Diploid (j k : nat).

Definition is_het (c : Call) : bool :=
  match c with
  | Haploid _ => false
  | Diploid j k => negb (j =? k)%nat
  end.

Definition is_hom_var (c : Call) : bool :=
  match c with
  | Haploid a => (0 <? a)%nat
  | Diploid j k => (j =? k)%nat && (0 <? j)%nat
  end.

(** The struct of [hl.agg.call_stats]: one entry per allele in [AC], [AF]
    and [homozygote_count]. *)
Module CallStats.
Record t : Type := mk {
  AC : list Z;
  AF : list Qc;
  AN : Z;
  homozygote_count : list Z
}.
End CallStats.

(** The struct of the [freq] array: the statistics of the alternate
    allele. *)
Module Freq.
Record t : Type := mk {
  AC : Z;
  AF : Qc;
  AN : Z;
  homozygote_count : Z
}.
End Freq.

(** [x[0].annotate(meta=x[1])]. *)
Module MetaFreq.
Record t : Type := mk {
  AC : Z;
  AF : Qc;
  AN : Z;
  homozygote_count : Z;
  meta : gmap string string
}.
Definition annotate (x : Freq.t * gmap string string) : t :=
  {| AC := Freq.AC x.1; AF := Freq.AF x.1; AN := Freq.AN x.1;
     homozygote_count := Freq.homozygote_count x.1; meta := x.2 |}.
End MetaFreq.

(** The struct of [hl.agg.hist]. *)
Record Hist : Type := {
  bin_edges : list Qc;
  bin_freq : list Z;
  n_smaller : Z;
  n_larger : Z
}.

(** A locus of the reference genome. *)
Record Locus : Type := {
  contig : string;
  position : Z
}.

(** ** Python *)

Inductive PyExn : Type :=
  (** [f() missing 1 required positional argument: 'arg'] *)
  | TypeError_missing_argument (f arg : string)
  (** ['ty' object is not iterable] *)
  | TypeError_not_iterable (ty : string)
  (** [local variable 'x' referenced before assignment] *)
  | UnboundLocalError (x : string)
  (** [list index out of range] *)
  | IndexError
  (** [hail.expr.expressions.ExpressionException]: the type of an empty
      collection cannot be imputed *)
  | ExpressionException.

Inductive py (A : Type) : Type :=
  | Return (a : A)
  | Raise (e : PyExn).
Arguments Return {A} a.
Arguments Raise {A} e.

#[global] Instance py_ret : MRet py := λ A a, Return a.
#[global] Instance py_bind : MBind py := λ A B f m,
  match m with
  | Return a => f a
  | Raise e => Raise e
  end.

(** [l[i]] on a Python list. *)
Definition py_index {A} (l : list A) (i : nat) : py A :=
  match l !! i with
  | Some x => Return x
  | None => Raise IndexError
  end.

(** Iterating over an optional list: [None] is not iterable. *)
Definition py_iter {A} (l : option (list A)) : py (list A) :=
  match l with
  | Some l => Return l
  | None => Raise (TypeError_not_iterable "NoneType")
  end.

Fixpoint py_all {A} (l : list (py A)) : py (list A) :=
  match l with
  | [] => Return []
  | x :: l' => a ← x; r ← py_all l'; Return (a :: r)
  end.

Definition py_sum (l : list Z) : Z := foldr Z.add 0 l.

(** [sorted(l)] on integers. *)
Definition py_sorted (l : list Z) : list Z := merge_sort Z.le l.

(** [list(set(l))]: the distinct elements, in the order of the set. *)
Definition py_list_set (l : list Z) : list Z :=
  elements (list_to_set l : gset Z).

(** [collections.Counter(l)]: the distinct elements, in the order of
    their first occurrence, each with the number of its occurrences. *)
Definition occurrences {K} `{EqDecision K} (k : K) (l : list K) : Z :=
  Z.of_nat (length (filter (λ x, x = k) l)).

Definition Counter {K} `{EqDecision K} (l : list K) : list (K * Z) :=
  (λ k, (k, occurrences k l)) <$> distinct l.

(** [hl.literal(s)] on a Python set of strings.  The type of the literal
    is imputed from the elements: on an empty set the call raises, while
    the expression is built. *)
Definition hl_literal (s : gset string) : py (gset string) :=
  if decide (s = ∅) then Raise ExpressionException else Return s.

(** The rows of a table keyed by a string field, and the items of a
    dictionary of the engine with string keys, come in the order of the
    key (the order of the characters' codes). *)
Definition sorted_by_key {A} (key : A → string) (t : list A) : list A :=
  merge_sort (λ x y, String.le (key x) (key y)) t.

(** ** The engine *)

(** The order [hl.sorted] and [order_by] establish on the keys. *)
Definition key_order {A} (key : A → Qc) (reverse : bool) (x y : A) : Prop :=
  if reverse then (key y ≤ key x)%Qc else (key x ≤ key y)%Qc.

Class Engine : Type := {
  (** [hl.sorted(a, key, reverse)], and [Table.order_by] with
      [reverse] off: a rearrangement of [a] in the order of the keys; what
      it does with equal keys is left open. *)
  hl_sorted : ∀ {A : Type}, (A → Qc) → bool → list A → list A;
  hl_sorted_perm : ∀ {A : Type} (key : A → Qc) reverse (a : list A),
    hl_sorted key reverse a ≡ₚ a;
  hl_sorted_ord : ∀ {A : Type} (key : A → Qc) reverse (a : list A),
    StronglySorted (key_order key reverse) (hl_sorted key reverse a);
  (** [hl.agg.call_stats(GT, alleles)] over the genotypes aggregated, for
      a site with the given number of alleles. *)
  call_stats : list (option Call) → nat → CallStats.t;
  call_stats_AC : ∀ gts n, length (CallStats.AC (call_stats gts n)) = n;
  call_stats_AF : ∀ gts n, length (CallStats.AF (call_stats gts n)) = n;
  call_stats_hom : ∀ gts n,
    length (CallStats.homozygote_count (call_stats gts n)) = n;
  (** [hl.agg.hist(x, start, end, bins)] over the values aggregated. *)
  hist : list (option Qc) → Qc → Qc → nat → Hist;
  (** [hl.experimental.filtering_allele_frequency(ac, an, ci)]. *)
  filtering_allele_frequency : Z → Z → Qc → Qc;
  (** [locus.in_autosome_or_par()], by the reference genome. *)
  in_autosome_or_par : Locus → bool;
  (** [hl.rand_unif(0, 1)], the value drawn for the i-th row. *)
  rand_unif : nat → Qc;
  (** The order in which Python iterates over the set that an aggregation
      returns, given its distinct elements: it follows the hashes of the
      elements, which for strings change from one run to the next. *)
  set_order : ∀ {A : Type}, list A → list A;
  set_order_perm : ∀ {A : Type} (l : list A), set_order l ≡ₚ l
}.

(** ** [popmax_expr] *)

Module Popmax.
Record t : Type := mk {
  AC : Z;
  AF : Qc;
  AN : Z;
  homozygote_count : Z;
  pop : string
}.
End Popmax.

Definition popmax_filter (pops_to_use : gset string) (f : MetaFreq.t)
  : option bool :=
  (hl_eq (Some (size (MetaFreq.meta f))) (Some 2%nat)
   &&& hl_eq (MetaFreq.meta f !! "group") (Some "adj")
   &&& set_contains pops_to_use (MetaFreq.meta f !! "pop")
   &&& Some (bool_decide (0 < MetaFreq.AC f)))%hl.

(** The value at a row of the expression that lines 35 to 51 build, from
    the values of [freq] and [freq_meta] there.  The five fields of the
    struct read the same [sorted_freqs[0]]. *)
Definition popmax_row `{Engine} (freq : list Freq.t)
    (freq_meta : list (gmap string string)) (pops_to_use : gset string)
  : hl (option Popmax.t) :=
  let freq := MetaFreq.annotate <$> zip freq freq_meta in
  let freq_filtered :=
    List.filter (λ f, keeps (popmax_filter pops_to_use f)) freq in
  let sorted_freqs := hl_sorted MetaFreq.AF true freq_filtered in
  or_missing (bool_decide (0 < length sorted_freqs)%nat)
    (x ← array_index sorted_freqs 0;
     p ← dict_index (MetaFreq.meta x) "pop";
     Val {| Popmax.AC := MetaFreq.AC x;
            Popmax.AF := MetaFreq.AF x;
            Popmax.AN := MetaFreq.AN x;
            Popmax.homozygote_count := MetaFreq.homozygote_count x;
            Popmax.pop := p |}).

(** [freq] and [freq_meta] are expressions over the rows of a table, and
    so is the result.  The literal of line 34 is built, or raises, when
    Python runs the function. *)
Definition popmax_expr `{Engine} {R : Type} (freq : R → hl (list Freq.t))
    (freq_meta : R → list (gmap string string)) (populations : gset string)
  : py (R → hl (option Popmax.t)) :=
  pops_to_use ← hl_literal populations;
  Return (λ r, f ← freq r; popmax_row f (freq_meta r) pops_to_use).

(** ** [project_max_expr] *)

Module ProjectMax.
Record t : Type := mk {
  AC : list Z;
  AF : list Qc;
  AN : Z;
  homozygote_count : list Z;
  project : option string
}.
End ProjectMax.

(** [hl.agg.group_by(k, agg)] as an array: the distinct keys, each with
    what is aggregated under it.  The keys are listed here in the order of
    their first occurrence; the engine's own order plays no role in what
    follows. *)
Definition group_by {K V} `{EqDecision K} (l : list (K * V))
  : list (K * list V) :=
  (λ k, (k, snd <$> List.filter (λ kv, bool_decide (kv.1 = k)) l))
    <$> distinct (fst <$> l).

(** [x[1].AF[ai]]. *)
Definition project_AF (ai : nat) (x : option string * CallStats.t) : hl Qc :=
  array_index (CallStats.AF x.2) ai.

(** [x[1].annotate(AC=[...], AF=[...], homozygote_count=[...],
    project=x[0])]. *)
Definition project_annotate (ai : nat) (x : option string * CallStats.t)
  : hl ProjectMax.t :=
  ac0 ← array_index (CallStats.AC x.2) 0;
  ac ← array_index (CallStats.AC x.2) ai;
  af0 ← array_index (CallStats.AF x.2) 0;
  af ← array_index (CallStats.AF x.2) ai;
  hom0 ← array_index (CallStats.homozygote_count x.2) 0;
  hom ← array_index (CallStats.homozygote_count x.2) ai;
  Val {| ProjectMax.AC := [ac0; ac];
         ProjectMax.AF := [af0; af];
         ProjectMax.AN := CallStats.AN x.2;
         ProjectMax.homozygote_count := [hom0; hom];
         ProjectMax.project := x.1 |}.

(** The array of one alternate allele: [hl.sorted] computes the key of
    each element and orders the elements by it. *)
Definition project_max_allele `{Engine}
    (project_cs : list (option string * CallStats.t)) (n_projects ai : nat)
  : hl (list ProjectMax.t) :=
  kept ← filter_hl
    (λ x, af ← project_AF ai x; Val (Some (bool_decide (0 < af)%Qc)))
    project_cs;
  keyed ← hl_all ((λ x, af ← project_AF ai x; Val ((- af)%Qc, x)) <$> kept);
  hl_all (project_annotate ai
            <$> take n_projects (snd <$> hl_sorted fst false keyed)).

(** The genotypes of a row come with the project of their column. *)
Definition project_max_expr `{Engine}
    (project_gt : list (option string * option Call)) (alleles : list string)
    (n_projects : nat)
  : hl (option (list (list ProjectMax.t))) :=
  let n_alleles := length alleles in
  let project_cs :=
    (λ kv, (kv.1, call_stats kv.2 n_alleles)) <$> group_by project_gt in
  or_missing (bool_decide (1 < n_alleles)%nat)
    (hl_all (project_max_allele project_cs n_projects
               <$> seq 1 (n_alleles - 1))).

(** ** [faf_expr] *)

Module Faf.
Record t : Type := mk {
  meta : gmap string string;
  faf95 : Qc;
  faf99 : Qc
}.
End Faf.

Definition faf_filter `{Engine} (pops_to_use : gset string) (locus : Locus)
    (f : MetaFreq.t) : option bool :=
  let meta := MetaFreq.meta f in
  ((hl_eq (Some (size meta)) (Some 1%nat)
    &&& hl_eq (meta !! "group") (Some "adj"))
   ||| (hl_eq (Some (size meta)) (Some 2%nat)
        &&& hl_eq (meta !! "group") (Some "adj")
        &&& set_contains pops_to_use (meta !! "pop"))
   ||| (hl_not (Some (in_autosome_or_par locus))
        &&& ((hl_eq (Some (size meta)) (Some 2%nat)
              &&& hl_eq (meta !! "group") (Some "adj")
              &&& dict_contains meta "sex")
             ||| (hl_eq (Some (size meta)) (Some 3%nat)
                  &&& hl_eq (meta !! "group") (Some "adj")
                  &&& set_contains pops_to_use (meta !! "pop")
                  &&& dict_contains meta "sex"))))%hl.

(** The confidence levels 0.95 and 0.99. *)
Definition ci95 : Qc := Q2Qc (95 # 100).
Definition ci99 : Qc := Q2Qc (99 # 100).

Definition faf_struct `{Engine} (f : MetaFreq.t) : Faf.t :=
  {| Faf.meta := MetaFreq.meta f;
     Faf.faf95 :=
       filtering_allele_frequency (MetaFreq.AC f) (MetaFreq.AN f) ci95;
     Faf.faf99 :=
       filtering_allele_frequency (MetaFreq.AC f) (MetaFreq.AN f) ci99 |}.

(** The value at a row of the expression that lines 114 to 126 build. *)
Definition faf_row `{Engine} (freq : list Freq.t)
    (freq_meta : list (gmap string string)) (locus : Locus)
    (pops_to_use : gset string) : list Faf.t :=
  let freq := MetaFreq.annotate <$> zip freq freq_meta in
  let freqs_to_use :=
    List.filter (λ f, keeps (faf_filter pops_to_use locus f)) freq in
  faf_struct <$> freqs_to_use.

(** The literal of line 113 is built, or raises, when Python runs the
    function. *)
Definition faf_expr `{Engine} {R : Type} (freq : R → hl (list Freq.t))
    (freq_meta : R → list (gmap string string)) (locus : R → Locus)
    (populations : gset string) : py (R → hl (list Faf.t)) :=
  pops_to_use ← hl_literal populations;
  Return (λ r, f ← freq r;
               Val (faf_row f (freq_meta r) (locus r) pops_to_use)).

(** ** The matrix table *)

(** The struct [mt.downsampling] read by the sample-group filters. *)
Module Downsampling.
Record t : Type := mk {
  r : Qc;
  global_idx : Z;
  pop_idx : Z
}.
End Downsampling.

(** [mt.meta], the metadata of a sample. *)
Module Meta.
Record t : Type := mk {
  pop : option string;
  sex : option string;
  subpop : option string;
  qc_platform : option Z;
  project_id : option string;
  age : option Qc
}.
End Meta.

(** A column: the sample [s], its metadata and, once annotated, its
    downsampling struct. *)
Module Col.
Record t : Type := mk {
  s : string;
  meta : Meta.t;
  downsampling : option Downsampling.t
}.
End Col.

Record Entry : Type := {
  GT : option Call;
  adj : option bool
}.

(** A row: the variant and its entries, one per column, in the order of
    the columns. *)
Module Row.
Record t : Type := mk {
  locus : Locus;
  alleles : list string;
  entries : list Entry
}.
End Row.

Record MatrixTable : Type := {
  cols : list Col.t;
  rows : list Row.t
}.

(** ** [_generate_downsamplings_cumulative] *)

(** Modelled from the spec: [get_sample_data] is a helper of the package
    that is not in the source file.  By the data model every sample has
    the listed fields; the helper yields, for each sample, the values of
    the requested fields, and nothing for a sample where one is
    missing. *)
Definition get_sample_data (mt : MatrixTable)
    (fields : list (Col.t → option string)) : list (list string) :=
  omap (λ c, mapM (λ f, f c) fields) (cols mt).

(** A row of [ht]: the column, [r], [global_idx]. *)
Abbreviation HtRow := (Col.t * Qc * Z)%type.

(** [t.add_index(name)]. *)
Definition add_index {A} (t : list A) : list (A * Z) :=
  imap (λ i x, (x, Z.of_nat i)) t.

(** [ht.filter(ht.meta.pop == pop).add_index('pop_idx')]. *)
Definition pop_ht (ht : list HtRow) (pop : string) : list (HtRow * Z) :=
  add_index
    (List.filter
       (λ x : HtRow, keeps (hl_eq (Meta.pop (Col.meta x.1.1)) (Some pop)))
       ht).

(** The loop over [enumerate(pops)]; [global_ht] is unbound until the
    first iteration. *)
Fixpoint union_pop_tables (ht : list HtRow) (pops : list (nat * string))
    (global_ht : option (list (HtRow * Z))) : py (list (HtRow * Z)) :=
  match pops with
  | [] =>
      match global_ht with
      | Some g => Return g
      | None => Raise (UnboundLocalError "global_ht")
      end
  | (i, pop) :: pops' =>
      if bool_decide (i = 0%nat) then
        union_pop_tables ht pops' (Some (pop_ht ht pop))
      else
        match global_ht with
        | Some g => union_pop_tables ht pops' (Some (g ++ pop_ht ht pop))
        | None => Raise (UnboundLocalError "global_ht")
        end
  end.

(** [global_ht[mt.s]] after [key_by('s')]. *)
Definition global_ht_lookup (global_ht : list (HtRow * Z)) (s : string)
  : option Downsampling.t :=
  (λ x : HtRow * Z,
     {| Downsampling.r := x.1.1.2;
        Downsampling.global_idx := x.1.2;
        Downsampling.pop_idx := x.2 |})
    <$> List.find (λ x : HtRow * Z, bool_decide (Col.s x.1.1.1 = s)) global_ht.

Definition _generate_downsamplings_cumulative `{Engine} (mt : MatrixTable)
    (downsamplings : list Z) : py (MatrixTable * list Z) :=
  pop_data ← py_all
    ((λ x, py_index x 0) <$> get_sample_data mt [λ c, Meta.pop (Col.meta c)]);
  let pops := Counter pop_data in
  let downsamplings := py_list_set (downsamplings ++ pops.*2) in
  let downsamplings :=
    py_sorted
      (List.filter (λ x, bool_decide (x ≤ py_sum pops.*2)) downsamplings) in
  let downsamplings :=
    py_sorted
      (List.filter (λ x, bool_decide (x ≤ py_sum pops.*2)) downsamplings) in
  let ht := cols mt in
  let ht := imap (λ i c, (c, rand_unif i)) ht in
  let ht : list HtRow := add_index (hl_sorted snd false ht) in
  global_ht ← union_pop_tables ht (imap (λ i pop, (i, pop)) pops.*1) None;
  Return
    ({| cols :=
          (λ c, {| Col.s := Col.s c; Col.meta := Col.meta c;
                   Col.downsampling := global_ht_lookup global_ht (Col.s c) |})
            <$> cols mt;
        rows := rows mt |},
     downsamplings).

(** ** [generate_frequency_data] *)

Record Flags : Type := {
  calculate_faf : bool;
  calculate_age_hists : bool;
  calculate_by_platform : bool;
  calculate_downsampling : bool;
  calculate_project_max : bool
}.

(** The defaults of the signature. *)
Definition default_flags : Flags :=
  {| calculate_faf := true;
     calculate_age_hists := true;
     calculate_by_platform := false;
     calculate_downsampling := false;
     calculate_project_max := false |}.

(** [cut_data]: the struct aggregated over the columns.  [platform] is
    only aggregated, and only read, under [calculate_by_platform]. *)
Module CutData.
Record t : Type := mk {
  pop : list (string * Z);
  sex : list string;
  subpop : list (string * string);
  platform : list Z
}.
End CutData.

(** [hl.agg.collect_as_set] brought to Python: the distinct values, in
    the order in which the set is iterated. *)
Definition collect_as_set `{Engine} {A} `{EqDecision A} (l : list A)
  : list A :=
  set_order (distinct l).

(** [hl.agg.counter] brought to Python: the distinct values with the
    number of their occurrences, in the order of the keys. *)
Definition agg_counter (l : list string) : list (string * Z) :=
  sorted_by_key fst (Counter l).

Definition aggregate_cut_data `{Engine} (by_platform : bool)
    (mt : MatrixTable) : CutData.t :=
  {| CutData.pop :=
       agg_counter (omap (λ c, Meta.pop (Col.meta c)) (cols mt));
     CutData.sex := collect_as_set (omap (λ c, Meta.sex (Col.meta c)) (cols mt));
     CutData.subpop :=
       collect_as_set
         (omap (λ c, sp ← Meta.subpop (Col.meta c);
                     p ← Meta.pop (Col.meta c); Some (sp, p)) (cols mt));
     CutData.platform :=
       if by_platform
       then collect_as_set (omap (λ c, Meta.qc_platform (Col.meta c)) (cols mt))
       else [] |}.

(** [a < b] on integers that may be missing. *)
Definition hl_lt (a b : option Z) : option bool :=
  match a, b with
  | Some x, Some y => Some (bool_decide (x < y))
  | _, _ => None
  end.

(** A sample-group filter: its label and its predicate on the columns. *)
Abbreviation SampleGroupFilter :=
  (gmap string string * (Col.t → option bool))%type.

(** The two [extend]s under [calculate_downsampling]: the global
    downsampling groups, then those of the populations. *)
Definition global_downsampling_filters (downsamplings : list Z)
  : list SampleGroupFilter :=
  (λ ds,
     ({[ "downsampling" := pretty ds; "pop" := "global" ]} : gmap string string,
      λ c : Col.t,
        hl_lt (Downsampling.global_idx <$> Col.downsampling c) (Some ds)))
    <$> downsamplings.

Definition pop_downsampling_filters (downsamplings : list Z)
    (cut_pop : list (string * Z)) : list SampleGroupFilter :=
  ds ← downsamplings;
  '(pop, pop_count) ←
    List.filter (λ kv : string * Z, bool_decide (ds ≤ kv.2)) cut_pop;
  [({[ "downsampling" := pretty ds; "pop" := pop ]} : gmap string string,
    λ c : Col.t,
      (hl_lt (Downsampling.pop_idx <$> Col.downsampling c) (Some ds)
       &&& hl_eq (Meta.pop (Col.meta c)) (Some pop))%hl)].

Definition downsampling_filters (downsamplings : list Z)
    (cut_pop : list (string * Z)) : list SampleGroupFilter :=
  global_downsampling_filters downsamplings
  ++ pop_downsampling_filters downsamplings cut_pop.

Definition build_sample_group_filters (fl : Flags) (cut_data : CutData.t)
    (downsamplings : list Z) : list SampleGroupFilter :=
  let sample_group_filters : list SampleGroupFilter :=
    [(∅, λ _, Some true)] in
  let sample_group_filters :=
    sample_group_filters
    ++ (((λ pop,
            ({[ "pop" := pop ]} : gmap string string,
             λ c : Col.t, hl_eq (Meta.pop (Col.meta c)) (Some pop)))
           <$> (CutData.pop cut_data).*1)
        ++ ((λ sex,
               ({[ "sex" := sex ]} : gmap string string,
                λ c : Col.t, hl_eq (Meta.sex (Col.meta c)) (Some sex)))
              <$> CutData.sex cut_data)
        ++ (sex ← CutData.sex cut_data;
            pop ← (CutData.pop cut_data).*1;
            [({[ "pop" := pop; "sex" := sex ]} : gmap string string,
              λ c : Col.t,
                (hl_eq (Meta.sex (Col.meta c)) (Some sex)
                 &&& hl_eq (Meta.pop (Col.meta c)) (Some pop))%hl)])
        ++ ((λ subpop : string * string,
               ({[ "subpop" := subpop.1; "pop" := subpop.2 ]}
                  : gmap string string,
                λ c : Col.t,
                  hl_eq (Meta.subpop (Col.meta c)) (Some subpop.1)))
              <$> CutData.subpop cut_data)) in
  let sample_group_filters :=
    if calculate_by_platform fl then
      sample_group_filters
      ++ ((λ platform,
             ({[ "platform" := pretty platform ]} : gmap string string,
              λ c : Col.t,
                hl_eq (Meta.qc_platform (Col.meta c)) (Some platform)))
            <$> CutData.platform cut_data)
    else sample_group_filters in
  if calculate_downsampling fl then
    sample_group_filters
    ++ downsampling_filters downsamplings (CutData.pop cut_data)
  else sample_group_filters.

(** A column after [select_cols]. *)
Module SampleRow.
Record t : Type := mk {
  s : string;
  group_membership : list (option bool);
  project_id : option string;
  age : option Qc
}.
End SampleRow.

Definition select_cols (sample_group_filters : list SampleGroupFilter)
    (c : Col.t) : SampleRow.t :=
  {| SampleRow.s := Col.s c;
     SampleRow.group_membership := (λ x, x.2 c) <$> sample_group_filters;
     SampleRow.project_id := Meta.project_id (Col.meta c);
     SampleRow.age := Meta.age (Col.meta c) |}.

(** The dictionaries of [sample_group_filters] are updated in place and
    are the elements of the list returned; nothing reads the filters
    afterwards. *)
Definition get_meta_expressions (sample_group_filters : list SampleGroupFilter)
  : list (gmap string string) :=
  let meta_expressions :=
    (λ x : SampleGroupFilter, <["group" := "adj"]> x.1)
      <$> sample_group_filters in
  py_insert 1 ({[ "group" := "raw" ]} : gmap string string) meta_expressions.

(** The entries of a row, each with its column. *)
Definition cells (sample_cols : list SampleRow.t) (row : Row.t)
  : list (SampleRow.t * Entry) :=
  zip sample_cols (Row.entries row).

(** [hl.agg.call_stats(mt.GT, mt.alleles)] over the cells aggregated. *)
Definition agg_call_stats `{Engine} (row : Row.t)
    (aggregated : list (SampleRow.t * Entry)) : CallStats.t :=
  call_stats ((λ ce, GT ce.2) <$> aggregated) (length (Row.alleles row)).

(** [cs.annotate(AC=cs.AC[1], AF=cs.AF[1],
    homozygote_count=cs.homozygote_count[1])]. *)
Definition alt_stats (cs : CallStats.t) : hl Freq.t :=
  ac ← array_index (CallStats.AC cs) 1;
  af ← array_index (CallStats.AF cs) 1;
  hom ← array_index (CallStats.homozygote_count cs) 1;
  Val {| Freq.AC := ac; Freq.AF := af; Freq.AN := CallStats.AN cs;
         Freq.homozygote_count := hom |}.

(** The statistics of group [i]: the cells with
    [mt.group_membership[i] & mt.adj]. *)
Definition adj_group_stats `{Engine} (sample_cols : list SampleRow.t)
    (row : Row.t) (i : nat) : hl CallStats.t :=
  kept ← filter_hl
    (λ ce : SampleRow.t * Entry,
       g ← array_index (SampleRow.group_membership ce.1) i;
       Val (g &&& adj ce.2)%hl)
    (cells sample_cols row);
  Val (agg_call_stats row kept).

Definition get_freq_expressions `{Engine} (sample_cols : list SampleRow.t)
    (row : Row.t) (n_groups : nat) : hl (list Freq.t) :=
  adj_freq_expressions ←
    hl_all (adj_group_stats sample_cols row <$> seq 0 n_groups);
  hl_all
    (alt_stats
       <$> ((take 1 adj_freq_expressions
             ++ [agg_call_stats row (cells sample_cols row)])
            ++ drop 1 adj_freq_expressions)).

(** [hl.agg.filter(mt.adj & mt.GT.<sel>(), hl.agg.hist(mt.age, 30, 80,
    10))]. *)
Definition age_hist `{Engine} (sel : Call → bool)
    (sample_cols : list SampleRow.t) (row : Row.t) : Hist :=
  hist
    ((λ ce : SampleRow.t * Entry, SampleRow.age ce.1)
       <$> List.filter
             (λ ce : SampleRow.t * Entry,
                keeps (adj ce.2 &&& (sel <$> GT ce.2))%hl)
             (cells sample_cols row))
    (Qc_of_Z 30) (Qc_of_Z 80) 10.

Record Globals : Type := {
  freq_meta : list (gmap string string);
  downsamplings : option (list Z)
}.

(** A row of the variant table.  A field under [option] is there only
    when its flag is set. *)
Module VariantRow.
Record t : Type := mk {
  locus : Locus;
  alleles : list string;
  freq : hl (list Freq.t);
  age_hist_het : option Hist;
  age_hist_hom : option Hist;
  popmax : hl (option Popmax.t);
  faf : option (hl (list Faf.t));
  project_max : option (hl (option (list ProjectMax.t)))
}.
End VariantRow.

Record Table (R : Type) : Type := {
  globals : Globals;
  table_rows : list R
}.
Arguments globals {R} _.
Arguments table_rows {R} _.

Definition annotate_row `{Engine} (fl : Flags)
    (sample_cols : list SampleRow.t) (freq : Row.t → hl (list Freq.t))
    (popmax : Row.t → hl (option Popmax.t))
    (faf : option (Row.t → hl (list Faf.t))) (row : Row.t) : VariantRow.t :=
  {| VariantRow.locus := Row.locus row;
     VariantRow.alleles := Row.alleles row;
     VariantRow.freq := freq row;
     VariantRow.age_hist_het :=
       if calculate_age_hists fl
       then Some (age_hist is_het sample_cols row) else None;
     VariantRow.age_hist_hom :=
       if calculate_age_hists fl
       then Some (age_hist is_hom_var sample_cols row) else None;
     VariantRow.popmax := popmax row;
     VariantRow.faf := (λ e, e row) <$> faf;
     VariantRow.project_max :=
       if calculate_project_max fl
       then Some
              (pm ← project_max_expr
                      ((λ ce : SampleRow.t * Entry,
                          (SampleRow.project_id ce.1, GT ce.2))
                         <$> cells sample_cols row)
                      (Row.alleles row) 5;
               match pm with
               | Some a => Some <$> array_index a 0
               | None => Val None
               end)
       else None |}.

(** Lines 163 to 262, from the matrix table and the thresholds that the
    call of line 162 binds.  The two [print]s are left out.  [mt.cols()]
    is a table keyed by [s], in the order of the key; the columns of the
    matrix table keep their own order.  The expressions of lines 253 and
    256 are built before any row is annotated. *)
Definition generate_frequency_data_from `{Engine} (mt : MatrixTable)
    (downsamplings : list Z) (fl : Flags)
    (pops_to_remove_for_popmax : option (list string))
  : py (Table VariantRow.t * Table SampleRow.t) :=
  let cut_data := aggregate_cut_data (calculate_by_platform fl) mt in
  let sample_group_filters :=
    build_sample_group_filters fl cut_data downsamplings in
  let sample_cols := select_cols sample_group_filters <$> cols mt in
  let freq row :=
    get_freq_expressions sample_cols row (length sample_group_filters) in
  let global_expression :=
    {| freq_meta := get_meta_expressions sample_group_filters;
       downsamplings :=
         if calculate_downsampling fl then Some downsamplings else None |} in
  let sample_data :=
    {| globals := global_expression;
       table_rows := sorted_by_key SampleRow.s sample_cols |} in
  let pops : gset string := list_to_set (CutData.pop cut_data).*1 in
  removed ← py_iter pops_to_remove_for_popmax;
  let pops := foldl (λ pops x, pops ∖ {[x]}) pops removed in
  popmax ← popmax_expr freq (λ _, freq_meta global_expression) pops;
  faf ← (if calculate_faf fl
         then e ← faf_expr freq (λ _, freq_meta global_expression)
                     Row.locus pops;
              Return (Some e)
         else Return None);
  Return
    ({| globals := global_expression;
        table_rows :=
          annotate_row fl sample_cols freq popmax faf <$> rows mt |},
     sample_data).

(** The call [_generate_downsamplings_cumulative(mt)] of line 162 binds
    one positional argument to the two parameters of the function: an
    argument that is not passed is [None] here. *)
Definition call_generate_downsamplings_cumulative `{Engine}
    (mt : option MatrixTable) (downsamplings : option (list Z))
  : py (MatrixTable * list Z) :=
  match mt, downsamplings with
  | Some mt, Some downsamplings =>
      _generate_downsamplings_cumulative mt downsamplings
  | None, _ =>
      Raise (TypeError_missing_argument
               "_generate_downsamplings_cumulative" "mt")
  | _, None =>
      Raise (TypeError_missing_argument
               "_generate_downsamplings_cumulative" "downsamplings")
  end.

(** Without [calculate_downsampling] the name [downsamplings] stays
    unbound and is never read: the empty list stands for it. *)
Definition generate_frequency_data `{Engine} (mt : MatrixTable) (fl : Flags)
    (pops_to_remove_for_popmax : option (list string))
  : py (Table VariantRow.t * Table SampleRow.t) :=
  '(mt, downsamplings) ←
    (if calculate_downsampling fl
     then call_generate_downsamplings_cumulative (Some mt) None
     else Return (mt, []));
  generate_frequency_data_from mt downsamplings fl pops_to_remove_for_popmax.

(** ** An executable engine *)

#[global] Instance key_order_dec {A} (key : A → Qc) reverse :
  RelDecision (key_order key reverse).
Proof. intros x y. unfold key_order. destruct reverse; apply _. Defined.

(** A stable merge sort on the keys. *)
Definition ref_sorted {A} (key : A → Qc) (reverse : bool) (a : list A)
  : list A :=
  merge_sort (key_order key reverse) a.

Definition sum_Z (l : list Z) : Z := foldr Z.add 0 l.

Definition allele_count (a : nat) (c : option Call) : Z :=
  match c with
  | Some (Haploid x) => if (x =? a)%nat then 1 else 0
  | Some (Diploid j k) =>
      (if (j =? a)%nat then 1 else 0) + (if (k =? a)%nat then 1 else 0)
  | None => 0
  end.

Definition ploidy (c : option Call) : Z :=
  match c with
  | Some (Haploid _) => 1
  | Some (Diploid _ _) => 2
  | None => 0
  end.

Definition homozygote (a : nat) (c : option Call) : Z :=
  match c with
  | Some (Diploid j k) => if (j =? a)%nat && (k =? a)%nat then 1 else 0
  | _ => 0
  end.

(** Allele counts, allele number, their quotients and homozygote counts
    over the called genotypes. *)
Definition ref_call_stats (gts : list (option Call)) (n : nat) : CallStats.t :=
  let an := sum_Z (ploidy <$> gts) in
  let ac a := sum_Z (allele_count a <$> gts) in
  {| CallStats.AC := ac <$> seq 0 n;
     CallStats.AF := (λ a, (Qc_of_Z (ac a) / Qc_of_Z an)%Qc) <$> seq 0 n;
     CallStats.AN := an;
     CallStats.homozygote_count :=
       (λ a, sum_Z (homozygote a <$> gts)) <$> seq 0 n |}.

Definition count_where (p : Qc → bool) (xs : list Qc) : Z :=
  Z.of_nat (length (List.filter p xs)).

(** Equal-width bins over [start, end], the last one closed. *)
Definition ref_hist (xs : list (option Qc)) (start end_ : Qc) (bins : nat)
  : Hist :=
  let width := ((end_ - start) / Qc_of_Z (Z.of_nat bins))%Qc in
  let edge i := (start + Qc_of_Z (Z.of_nat i) * width)%Qc in
  let defined := omap id xs in
  {| bin_edges := edge <$> seq 0 (S bins);
     bin_freq :=
       (λ i, count_where
               (λ x, bool_decide (edge i ≤ x)%Qc
                     && (bool_decide (x < edge (S i))%Qc
                         || (bool_decide (S i = bins)
                             && bool_decide (x = end_))))
               defined) <$> seq 0 bins;
     n_smaller := count_where (λ x, bool_decide (x < start)%Qc) defined;
     n_larger := count_where (λ x, bool_decide (end_ < x)%Qc) defined |}.

(** A stand-in for the engine's filtering allele frequency: the observed
    frequency scaled by the confidence level.  No property below depends
    on it. *)
Definition ref_filtering_allele_frequency (ac an : Z) (ci : Qc) : Qc :=
  (ci * Qc_of_Z ac / Qc_of_Z an)%Qc.

(** Contigs other than X, Y and MT; the pseudoautosomal regions are left
    out of this stand-in. *)
Definition ref_in_autosome_or_par (l : Locus) : bool :=
  negb (bool_decide (contig l ∈ ["X"; "Y"; "MT"])).

(** A fixed sequence in [0, 1) for the random draws. *)
Definition ref_rand_unif (i : nat) : Qc :=
  Q2Qc (Z.of_nat ((7 * i + 3) mod 11) # 11).

(** ** The vocabulary of the specification *)

(** The entries of [freq], each with the meta at its index. *)
Definition indexed_entries (freq : list Freq.t)
    (freq_meta : list (gmap string string)) : list MetaFreq.t :=
  MetaFreq.annotate <$> zip freq freq_meta.

(** The meta names a population of the allowed set. *)
Definition pop_allowed (populations : gset string)
    (meta : gmap string string) : Prop :=
  ∃ p, meta !! "pop" = Some p ∧ p ∈ populations.

#[global] Instance pop_allowed_dec populations meta :
  Decision (pop_allowed populations meta).
Proof.
  unfold pop_allowed. destruct (meta !! "pop") as [p|].
  - destruct (decide (p ∈ populations)) as [Hin|Hout].
    + left. by exists p.
    + right. intros (q & Hq & Hin). by injection Hq as <-.
  - right. by intros (q & Hq & _).
Defined.

(** The entries popmax chooses among. *)
Definition popmax_eligible (populations : gset string) (e : MetaFreq.t)
  : Prop :=
  size (MetaFreq.meta e) = 2%nat
  ∧ MetaFreq.meta e !! "group" = Some "adj"
  ∧ pop_allowed populations (MetaFreq.meta e)
  ∧ 0 < MetaFreq.AC e.

#[global] Instance popmax_eligible_dec populations e :
  Decision (popmax_eligible populations e).
Proof. unfold popmax_eligible. apply _. Defined.

(** The groups the filtering allele frequency is computed for. *)
Definition faf_eligible `{Engine} (populations : gset string) (locus : Locus)
    (e : MetaFreq.t) : Prop :=
  let meta := MetaFreq.meta e in
  meta !! "group" = Some "adj"
  ∧ (size meta = 1%nat
     ∨ (size meta = 2%nat ∧ pop_allowed populations meta)
     ∨ (in_autosome_or_par locus = false
        ∧ is_Some (meta !! "sex")
        ∧ (size meta = 2%nat
           ∨ (size meta = 3%nat ∧ pop_allowed populations meta)))).

#[global] Instance faf_eligible_dec `{Engine} populations locus e :
  Decision (faf_eligible populations locus e).
Proof. unfold faf_eligible. simpl. apply _. Defined.

(** The genotypes of a project at a row, and the distinct projects. *)
Definition project_genotypes (project_gt : list (option string * option Call))
    (project : option string) : list (option Call) :=
  snd <$> List.filter (λ kv, bool_decide (kv.1 = project)) project_gt.

Definition projects (project_gt : list (option string * option Call))
  : list (option string) :=
  distinct project_gt.*1.

(** The entry of an array of statistics at an allele. *)
Definition at_allele {A} (zero : A) (a : list A) (ai : nat) : A :=
  default zero (a !! ai).

(** The struct of project-max for a project, its statistics and an
    allele: the pairs of the reference and the allele's values. *)
Definition project_struct (ai : nat) (x : option string * CallStats.t)
  : ProjectMax.t :=
  {| ProjectMax.AC :=
       [at_allele 0 (CallStats.AC x.2) 0; at_allele 0 (CallStats.AC x.2) ai];
     ProjectMax.AF :=
       [at_allele 0%Qc (CallStats.AF x.2) 0;
        at_allele 0%Qc (CallStats.AF x.2) ai];
     ProjectMax.AN := CallStats.AN x.2;
     ProjectMax.homozygote_count :=
       [at_allele 0 (CallStats.homozygote_count x.2) 0;
        at_allele 0 (CallStats.homozygote_count x.2) ai];
     ProjectMax.project := x.1 |}.

(** The cells of a row: its entries, each with its column. *)
Definition mt_cells (mt : MatrixTable) (row : Row.t) : list (Col.t * Entry) :=
  zip (cols mt) (Row.entries row).

(** The genotypes of a row over the cells that belong to a group. *)
Definition group_genotypes (mt : MatrixTable) (row : Row.t)
    (member : Col.t → Entry → bool) : list (option Call) :=
  (λ ce, GT ce.2) <$> List.filter (λ ce, member ce.1 ce.2) (mt_cells mt row).

(** A group of the [freq] array: its meta and the cells it is aggregated
    over. *)
Abbreviation FreqGroup :=
  (gmap string string * (Col.t → Entry → bool))%type.

(** The "adj" group of a sample-group filter: the label with group "adj",
    over the entries that pass "adj" of the samples the predicate
    selects. *)
Definition adj_group (g : SampleGroupFilter) : FreqGroup :=
  (<["group" := "adj"]> g.1,
   λ c e, bool_decide (g.2 c = Some true ∧ adj e = Some true)).

(** The "raw" group: every entry. *)
Definition raw_group : FreqGroup :=
  ({[ "group" := "raw" ]}, λ _ _, true).

(** The groups in the order of the arrays: raw comes second. *)
Definition indexed_groups (sample_group_filters : list SampleGroupFilter)
  : list FreqGroup :=
  py_insert 1 raw_group (adj_group <$> sample_group_filters).

(** The sample-group filters of a call that computes no downsampling. *)
Definition sample_groups `{Engine} (fl : Flags) (mt : MatrixTable)
  : list SampleGroupFilter :=
  build_sample_group_filters fl
    (aggregate_cut_data (calculate_by_platform fl) mt) [].

(** The global group: every sample. *)
Definition global_filter : SampleGroupFilter := (∅, λ _, Some true).

(** An entry that passes "adj" with a genotype of the given kind. *)
Definition carries (sel : Call → bool) (e : Entry) : Prop :=
  adj e = Some true ∧ sel <$> GT e = Some true.

#[global] Instance carries_dec sel e : Decision (carries sel e).
Proof. unfold carries. apply _. Defined.

(** The ages of the samples that carry such a genotype at a row. *)
Definition carrier_ages (mt : MatrixTable) (row : Row.t) (sel : Call → bool)
  : list (option Qc) :=
  (λ ce : Col.t * Entry, Meta.age (Col.meta ce.1))
    <$> filter (λ ce : Col.t * Entry, carries sel ce.2) (mt_cells mt row).

(** The population of a sample. *)
Definition col_pop (c : Col.t) : option string := Meta.pop (Col.meta c).

(** The sample count of a population, the populations of a matrix table,
    and the total of their sample counts. *)
Definition pop_size (mt : MatrixTable) (pop : string) : Z :=
  Z.of_nat (length (filter (λ c, col_pop c = Some pop) (cols mt))).

Definition populations_of (mt : MatrixTable) : list string :=
  distinct (omap col_pop (cols mt)).

Definition total_pop_size (mt : MatrixTable) : Z :=
  sum_Z (pop_size mt <$> populations_of mt).

(** The samples of a population among the first [i] of an order. *)
Definition earlier_in_pop (order : list (Col.t * Qc)) (pop : string)
    (i : nat) : Z :=
  Z.of_nat
    (length (filter (λ x : Col.t * Qc, col_pop x.1 = Some pop)
               (take i order))).

(** The downsampling struct of the sample at position [i] of the order:
    none without a population. *)
Definition expected_downsampling (order : list (Col.t * Qc)) (i : nat)
    (x : Col.t * Qc) : option Downsampling.t :=
  pop ← col_pop x.1;
  Some {| Downsampling.r := x.2;
          Downsampling.global_idx := Z.of_nat i;
          Downsampling.pop_idx := earlier_in_pop order pop i |}.

Definition is_TypeError (e : PyExn) : Prop :=
  match e with
  | TypeError_missing_argument _ _ | TypeError_not_iterable _ => True
  | _ => False
  end.

(** Flags that ask for the downsamplings and leave the rest at its
    default. *)
Definition downsampling_flags : Flags :=
  {| calculate_faf := true;
     calculate_age_hists := true;
     calculate_by_platform := false;
     calculate_downsampling := true;
     calculate_project_max := false |}.

(** ** A small matrix table *)

Definition example_col (s pop sex : string) (age : Z) : Col.t :=
  {| Col.s := s;
     Col.meta :=
       {| Meta.pop := Some pop; Meta.sex := Some sex; Meta.subpop := None;
          Meta.qc_platform := None; Meta.project_id := Some "project";
          Meta.age := Some (Qc_of_Z age) |};
     Col.downsampling := None |}.

Definition example_mt : MatrixTable :=
  {| cols :=
       [example_col "s1" "afr" "male" 41;
        example_col "s2" "nfe" "female" 52;
        example_col "s3" "afr" "female" 67];
     rows :=
       [{| Row.locus := {| contig := "1"; position := 100 |};
           Row.alleles := ["A"; "T"];
           Row.entries :=
             [{| GT := Some (Diploid 0 1); adj := Some true |};
              {| GT := Some (Diploid 1 1); adj := Some true |};
              {| GT := Some (Diploid 0 0); adj := Some false |}] |}] |}.


(** ** The entries of [freq], each with its meta *)

(** An entry of [freq] with the meta at its index that popmax chooses
    among: the meta has size 2, group "adj" and a population of the
    allowed set, and the AC is positive. *)
Definition popmax_candidate (populations : gset string)
    (fm : Freq.t * gmap string string) : Prop :=
  size fm.2 = 2%nat
  ∧ fm.2 !! "group" = Some "adj"
  ∧ pop_allowed populations fm.2
  ∧ 0 < Freq.AC fm.1.

#[global] Instance popmax_candidate_dec populations fm :
  Decision (popmax_candidate populations fm).
Proof. unfold popmax_candidate. apply _. Defined.

(** The descending order of AF. *)
Definition AF_descending (x y : Freq.t * gmap string string) : Prop :=
  (Freq.AF y.1 ≤ Freq.AF x.1)%Qc.

(** The struct of popmax for an entry and a population. *)
Definition popmax_struct (f : Freq.t) (pop : string) : Popmax.t :=
  {| Popmax.AC := Freq.AC f;
     Popmax.AF := Freq.AF f;
     Popmax.AN := Freq.AN f;
     Popmax.homozygote_count := Freq.homozygote_count f;
     Popmax.pop := pop |}.

(** The entry and the meta that [annotate] put together. *)
Definition unannotate (e : MetaFreq.t) : Freq.t * gmap string string :=
  ({| Freq.AC := MetaFreq.AC e; Freq.AF := MetaFreq.AF e;
      Freq.AN := MetaFreq.AN e;
      Freq.homozygote_count := MetaFreq.homozygote_count e |},
   MetaFreq.meta e).

(** The condition of the filtering allele frequency, on the meta of an
    entry: group "adj" and size 1, or size 2 with a population of the
    allowed set, or, outside the autosomes and the pseudoautosomal
    regions, a "sex" key and size 2, or size 3 with an allowed
    population. *)
Definition faf_meta_eligible `{Engine} (populations : gset string)
    (locus : Locus) (meta : gmap string string) : Prop :=
  meta !! "group" = Some "adj"
  ∧ (size meta = 1%nat
     ∨ (size meta = 2%nat ∧ pop_allowed populations meta)
     ∨ (in_autosome_or_par locus = false
        ∧ is_Some (meta !! "sex")
        ∧ (size meta = 2%nat
           ∨ (size meta = 3%nat ∧ pop_allowed populations meta)))).

#[global] Instance faf_meta_eligible_dec `{Engine} populations locus meta :
  Decision (faf_meta_eligible populations locus meta).
Proof. unfold faf_meta_eligible. apply _. Defined.

(** The struct of the filtering allele frequency for an entry and its
    meta. *)
Definition faf_struct_of `{Engine} (fm : Freq.t * gmap string string)
  : Faf.t :=
  {| Faf.meta := fm.2;
     Faf.faf95 :=
       filtering_allele_frequency (Freq.AC fm.1) (Freq.AN fm.1)
         (Q2Qc (95 # 100));
     Faf.faf99 :=
       filtering_allele_frequency (Freq.AC fm.1) (Freq.AN fm.1)
         (Q2Qc (99 # 100)) |}.

(** ** The samples a meta describes *)

(** The value of a sample for a key of the meta, when the meta has the
    key, is the one the meta gives. *)
Definition key_matches (meta : gmap string string) (key : string)
    (value : option string) : Prop :=
  match meta !! key with
  | Some v => value = Some v
  | None => True
  end.

#[global] Instance key_matches_dec meta key value :
  Decision (key_matches meta key value).
Proof. unfold key_matches. destruct (meta !! key); apply _. Defined.

(** The samples a meta describes: those with the population, the sex,
    the sub-population and the platform that it names. *)
Definition described_by (meta : gmap string string) (c : Col.t) : Prop :=
  key_matches meta "pop" (Meta.pop (Col.meta c))
  ∧ key_matches meta "sex" (Meta.sex (Col.meta c))
  ∧ key_matches meta "subpop" (Meta.subpop (Col.meta c))
  ∧ key_matches meta "platform" (pretty <$> Meta.qc_platform (Col.meta c)).

#[global] Instance described_by_dec meta c : Decision (described_by meta c).
Proof. unfold described_by. apply _. Defined.

(** The same, with the population of a sub-population group left
    untested. *)
Definition selected_by (meta : gmap string string) (c : Col.t) : Prop :=
  (is_Some (meta !! "subpop")
   ∨ key_matches meta "pop" (Meta.pop (Col.meta c)))
  ∧ key_matches meta "sex" (Meta.sex (Col.meta c))
  ∧ key_matches meta "subpop" (Meta.subpop (Col.meta c))
  ∧ key_matches meta "platform" (pretty <$> Meta.qc_platform (Col.meta c)).

#[global] Instance selected_by_dec meta c : Decision (selected_by meta c).
Proof. unfold selected_by. apply _. Defined.




(** The index in [freq_meta] and [freq] of the [i]-th sample-group
    filter: the raw group takes index 1. *)
Definition meta_index (i : nat) : nat :=
  match i with
  | O => O
  | S _ => S i
  end.

(** ** The calls that return *)

(** A population of the samples is left for popmax. *)
Definition populations_left (mt : MatrixTable) (removed : list string)
  : Prop :=
  ∃ pop, pop ∈ populations_of mt ∧ pop ∉ removed.

(** ** More matrix tables *)




(** A sample with a population and one without. *)
Definition unassigned_mt : MatrixTable :=
  {| cols :=
       [example_col "s1" "afr" "male" 41;
        {| Col.s := "s2";
           Col.meta :=
             {| Meta.pop := None; Meta.sex := Some "female";
                Meta.subpop := None; Meta.qc_platform := None;
                Meta.project_id := None; Meta.age := None |};
           Col.downsampling := None |}];
     rows := [] |}.

(** An array of two entries and their metas. *)
Definition two_entries : list Freq.t :=
  [{| Freq.AC := 3; Freq.AF := Q2Qc (3 # 4); Freq.AN := 4;
      Freq.homozygote_count := 1 |};
   {| Freq.AC := 1; Freq.AF := Q2Qc (1 # 2); Freq.AN := 2;
      Freq.homozygote_count := 0 |}].

Definition two_metas : list (gmap string string) :=
  [{[ "group" := "adj" ]}; {[ "group" := "adj"; "pop" := "afr" ]}].
(** ** More vocabulary *)

(** The samples that have a population. *)
Definition with_population (mt : MatrixTable) : list Col.t :=
  filter (λ c, is_Some (col_pop c)) (cols mt).

(** The thresholds after the first filter and sort of
    [_generate_downsamplings_cumulative] (line 8). *)
Definition thresholds_of (mt : MatrixTable) (requested : list Z) : list Z :=
  let counts := pop_size mt <$> populations_of mt in
  py_sorted
    (List.filter (λ x, bool_decide (x ≤ py_sum counts))
       (py_list_set (requested ++ counts))).

(** The samples a sample-group filter selects: those whose entry of
    [group_membership] is true. *)
Definition group_members (mt : MatrixTable) (g : SampleGroupFilter)
  : list Col.t :=
  List.filter (λ c, keeps (g.2 c)) (cols mt).

(** A sample of the order with the struct of its position joined. *)
Definition joined_col (order : list (Col.t * Qc)) (i : nat) (x : Col.t * Qc)
  : Col.t :=
  {| Col.s := Col.s x.1; Col.meta := Col.meta x.1;
     Col.downsampling := expected_downsampling order i x |}.

(** The genotypes of a row, each with the project of its sample. *)
Definition row_project_gt (mt : MatrixTable) (row : Row.t)
  : list (option string * option Call) :=
  (λ ce : Col.t * Entry, (Meta.project_id (Col.meta ce.1), GT ce.2))
    <$> mt_cells mt row.

(** The per-project call statistics of a row. *)
Definition row_project_cs `{Engine} (mt : MatrixTable) (row : Row.t)
  : list (option string * CallStats.t) :=
  (λ k, (k, call_stats (project_genotypes (row_project_gt mt row) k)
              (length (Row.alleles row))))
    <$> projects (row_project_gt mt row).

(** The AF of a project's statistics at an allele. *)
Definition af_at (ai : nat) (x : option string * CallStats.t) : Qc :=
  at_allele 0%Qc (CallStats.AF x.2) ai.

(** The default flags with the project-max asked for. *)
Definition project_max_flags : Flags :=
  {| calculate_faf := true;
     calculate_age_hists := true;
     calculate_by_platform := false;
     calculate_downsampling := false;
     calculate_project_max := true |}.

(** The genotypes of the small matrix table's row with their projects. *)
Definition example_project_gt : list (option string * option Call) :=
  [(Some "p1", Some (Diploid 0 1)); (Some "p2", Some (Diploid 1 1));
   (Some "p1", Some (Diploid 0 0)); (None, Some (Diploid 0 0))].

(** A label with the group "adj". *)
Definition adj_label (label : gmap string string) : gmap string string :=
  <["group" := "adj"]> label.

(** The sexes, sub-populations and platforms of the samples, as
    [cut_data] has them. *)
Definition sexes_of (mt : MatrixTable) : list string :=
  distinct (omap (λ c, Meta.sex (Col.meta c)) (cols mt)).

Definition subpops_of (mt : MatrixTable) : list (string * string) :=
  distinct
    (omap (λ c, sp ← Meta.subpop (Col.meta c);
                p ← Meta.pop (Col.meta c); Some (sp, p)) (cols mt)).

Definition platforms_of (mt : MatrixTable) : list Z :=
  distinct (omap (λ c, Meta.qc_platform (Col.meta c)) (cols mt)).

(** The metas of a call without downsampling, family by family, from
    the populations, sexes, sub-populations and platforms in the order in
    which the call lists them. *)
Definition freq_meta_layout (pops sexes : list string)
    (subpops : list (string * string)) (platforms : list Z)
  : list (gmap string string) :=
  adj_label ∅ :: {[ "group" := "raw" ]}
  :: ((λ pop, adj_label {[ "pop" := pop ]}) <$> pops)
  ++ ((λ sex, adj_label {[ "sex" := sex ]}) <$> sexes)
  ++ (sex ← sexes; pop ← pops;
      [adj_label {[ "pop" := pop; "sex" := sex ]}])
  ++ ((λ subpop : string * string,
         adj_label {[ "subpop" := subpop.1; "pop" := subpop.2 ]})
        <$> subpops)
  ++ ((λ platform : Z, adj_label {[ "platform" := pretty platform ]})
        <$> platforms).

(** The groups that get a filtering allele frequency at a locus, from
    the populations that are kept and the sexes: the global one, the
    populations and, outside the autosomes and pseudoautosomal regions,
    the sexes and the sexes of the populations. *)
Definition faf_groups `{Engine} (pops sexes : list string) (locus : Locus)
  : list (gmap string string) :=
  adj_label ∅
  :: ((λ pop, adj_label {[ "pop" := pop ]}) <$> pops)
  ++ (if in_autosome_or_par locus then []
      else ((λ sex, adj_label {[ "sex" := sex ]}) <$> sexes)
           ++ (sex ← sexes; pop ← pops;
               [adj_label {[ "pop" := pop; "sex" := sex ]}])).

(** The keys of a meta besides "group", with the group. *)
Definition meta_profile (meta : gmap string string)
  : option string * bool * bool * bool * bool :=
  (meta !! "group",
   bool_decide (is_Some (meta !! "pop")),
   bool_decide (is_Some (meta !! "sex")),
   bool_decide (is_Some (meta !! "subpop")),
   bool_decide (is_Some (meta !! "platform"))).
(** * Properties *)

(** ** The executable engine is an engine *)

#[global] Instance key_order_trans {A} (key : A → Qc) reverse :
  Transitive (key_order key reverse).
Proof.
  intros x y z. unfold key_order. destruct reverse; intros H1 H2.
  - by apply Qcle_trans with (key y).
  - by apply Qcle_trans with (key y).
Qed.

#[global] Instance key_order_total {A} (key : A → Qc) reverse :
  Total (key_order key reverse).
Proof.
  intros x y. unfold key_order.
  destruct reverse, (Qc_le_total (key x) (key y)); auto.
Qed.

#[global] Instance reference_engine : Engine := {|
  hl_sorted := @ref_sorted;
  hl_sorted_perm := λ A key reverse a,
    merge_sort_Permutation (key_order key reverse) a;
  hl_sorted_ord := λ A key reverse a,
    StronglySorted_merge_sort (key_order key reverse) a;
  call_stats := ref_call_stats;
  call_stats_AC := λ gts n, eq_trans (length_fmap _ _) (length_seq _ _);
  call_stats_AF := λ gts n, eq_trans (length_fmap _ _) (length_seq _ _);
  call_stats_hom := λ gts n, eq_trans (length_fmap _ _) (length_seq _ _);
  hist := ref_hist;
  filtering_allele_frequency := ref_filtering_allele_frequency;
  in_autosome_or_par := ref_in_autosome_or_par;
  rand_unif := ref_rand_unif;
  set_order := @reverse;
  set_order_perm := @reverse_Permutation
|}.

(** ** Three-valued filters *)

Lemma keeps_and a b : keeps (a &&& b)%hl = keeps a && keeps b.
Proof. by destruct a as [[]|], b as [[]|]. Qed.

Lemma keeps_or a b : keeps (a ||| b)%hl = keeps a || keeps b.
Proof. by destruct a as [[]|], b as [[]|]. Qed.

Lemma keeps_Some b : keeps (Some b) = b.
Proof. by destruct b. Qed.

Lemma keeps_not_Some b : keeps (hl_not (Some b)) = negb b.
Proof. by destruct b. Qed.

Lemma keeps_eq {A} `{EqDecision A} (a : option A) (y : A) :
  keeps (hl_eq a (Some y)) = true ↔ a = Some y.
Proof.
  destruct a as [x|]; simpl; [|done].
  case_bool_decide; simpl; split; congruence.
Qed.

Lemma keeps_set_contains s x :
  keeps (set_contains s x) = true ↔ ∃ k, x = Some k ∧ k ∈ s.
Proof.
  destruct x as [k|]; simpl.
  - case_bool_decide; split; try done.
    + by exists k.
    + intros (k' & Hk & Hin). injection Hk as <-. contradiction.
  - split; [done | by intros (? & ? & _)].
Qed.

Lemma keeps_dict_contains d k :
  keeps (dict_contains d k) = true ↔ is_Some (d !! k).
Proof. unfold dict_contains. by rewrite keeps_Some, bool_decide_eq_true. Qed.

(** A boolean filter is the filter by the property it decides. *)
Lemma bool_filter_decide {A} (b : A → bool) (P : A → Prop)
    `{∀ x, Decision (P x)} (l : list A) :
  (∀ x, b x = true ↔ P x) → List.filter b l = filter P l.
Proof.
  intros Hb. induction l as [|x l IH]; [done|]. simpl.
  rewrite filter_cons, IH. destruct (b x) eqn:E.
  - rewrite decide_True; [done | by apply Hb].
  - rewrite decide_False; [done|]. intros HP. apply Hb in HP. congruence.
Qed.

(** ** Evaluation without fatal errors *)

Lemma hl_all_pure {A B} (f : A → hl B) (g : A → B) (l : list A) :
  (∀ x, x ∈ l → f x = Val (g x)) → hl_all (f <$> l) = Val (g <$> l).
Proof.
  induction l as [|x l IH]; intros Hf; [done|].
  rewrite !fmap_cons. cbn [hl_all]. rewrite (Hf x) by left.
  rewrite IH; [done|]. intros y Hy. apply Hf. by right.
Qed.

Lemma hl_all_Forall2 {A B} (f : A → hl B) (P : A → B → Prop) (l : list A) :
  (∀ x, x ∈ l → ∃ y, f x = Val y ∧ P x y) →
  ∃ ys, hl_all (f <$> l) = Val ys ∧ Forall2 P l ys.
Proof.
  induction l as [|x l IH]; intros Hf.
  - exists []. by split.
  - destruct (Hf x) as (y & Hy & HP); [by left|].
    destruct IH as (ys & Hys & HF). { intros z Hz. apply Hf. by right. }
    exists (y :: ys). rewrite fmap_cons. cbn [hl_all]. rewrite Hy, Hys.
    split; [done | by constructor].
Qed.

Lemma filter_hl_pure {A} (cond : A → hl (option bool)) (b : A → bool)
    (l : list A) :
  (∀ x, x ∈ l → ∃ c, cond x = Val c ∧ keeps c = b x) →
  filter_hl cond l = Val (List.filter b l).
Proof.
  induction l as [|x l IH]; intros Hc; [done|]. cbn [filter_hl List.filter].
  destruct (Hc x) as (c & -> & Hk); [by left|].
  rewrite IH by (intros y Hy; apply Hc; by right). simpl.
  by rewrite Hk.
Qed.

Lemma array_index_lt {A} (a : list A) (zero : A) (i : nat) :
  (i < length a)%nat → array_index a i = Val (at_allele zero a i).
Proof.
  intros Hi. unfold array_index, at_allele.
  destruct (lookup_lt_is_Some_2 a i Hi) as [x ->]. done.
Qed.

Lemma array_index_ge {A} (a : list A) (i : nat) :
  (length a ≤ i)%nat → array_index a i = Fatal "array index out of bounds".
Proof. intros Hi. unfold array_index. by rewrite lookup_ge_None_2. Qed.

(** ** The head of a sorted array *)

Lemma sorted_head_max `{Engine} {A} (key : A → Qc) (a : list A) x rest :
  hl_sorted key true a = x :: rest →
  x ∈ a ∧ ∀ y, y ∈ a → (key y ≤ key x)%Qc.
Proof.
  intros Hs. pose proof (hl_sorted_perm key true a) as Hp.
  pose proof (hl_sorted_ord key true a) as Ho. rewrite Hs in Hp, Ho.
  split.
  - rewrite <- Hp. by left.
  - intros y Hy. rewrite <- Hp in Hy.
    apply StronglySorted_inv in Ho as [_ Hall].
    apply elem_of_cons in Hy as [->|Hy]; [apply Qcle_refl|].
    rewrite Forall_forall in Hall. by apply Hall.
Qed.

Lemma sorted_nil `{Engine} {A} (key : A → Qc) reverse (a : list A) :
  hl_sorted key reverse a = [] ↔ a = [].
Proof.
  pose proof (hl_sorted_perm key reverse a) as Hp. split; intros E.
  - rewrite E in Hp. by apply Permutation_nil_l in Hp.
  - subst a. by apply Permutation_nil_r in Hp.
Qed.

(** ** Filters over images *)

Lemma filter_all_id {A} (P : A → Prop) `{∀ x, Decision (P x)} (l : list A) :
  Forall P l → filter P l = l.
Proof.
  induction 1 as [|x l Hx _ IH]; [done|].
  by rewrite filter_cons, decide_True, IH.
Qed.

Lemma hl_all_length {A} (l : list (hl A)) (ys : list A) :
  hl_all l = Val ys → length ys = length l.
Proof.
  revert ys. induction l as [|x l IH]; intros ys; cbn [hl_all].
  - by intros [= <-].
  - destruct x as [a|msg]; cbn [mbind hl_bind]; [|done].
    destruct (hl_all l) as [r|msg]; cbn [mbind hl_bind]; [|done].
    intros [= <-]. cbn [length]. by rewrite (IH r).
Qed.

Lemma filter_fmap_on {A B} (P : B → Prop) `{∀ y, Decision (P y)}
    (Q : A → Prop) `{∀ x, Decision (Q x)} (f : A → B) (l : list A) :
  (∀ x, x ∈ l → P (f x) ↔ Q x) →
  filter P (f <$> l) = f <$> filter Q l.
Proof.
  induction l as [|x l IH]; intros HPQ; [done|].
  rewrite fmap_cons, !filter_cons.
  rewrite IH by (intros y Hy; apply HPQ; by right).
  destruct (decide (Q x)) as [HQ|HQ].
  - rewrite decide_True; [done|]. apply HPQ; [by left | done].
  - rewrite decide_False; [done|]. intros HP. apply HQ, HPQ; [by left | done].
Qed.

Lemma filter_fmap_all {A B} (P : B → Prop) `{∀ y, Decision (P y)}
    (f : A → B) (l : list A) :
  (∀ x, P (f x)) → filter P (f <$> l) = f <$> l.
Proof.
  intros HP. apply filter_all_id, Forall_fmap, Forall_forall.
  intros x _. apply HP.
Qed.

Lemma filter_fmap_none {A B} (P : B → Prop) `{∀ y, Decision (P y)}
    (f : A → B) (l : list A) :
  (∀ x, ¬ P (f x)) → filter P (f <$> l) = [].
Proof.
  intros HP. induction l as [|x l IH]; [done|].
  rewrite fmap_cons, filter_cons, decide_False; [done | apply HP].
Qed.

Lemma bind_singleton_fmap {A B} (f : A → B) (l : list A) :
  l ≫= (λ y, [f y]) = f <$> l.
Proof.
  induction l as [|x l IH]; [done|]. by rewrite bind_cons, fmap_cons, IH.
Qed.

Lemma filter_bind_pairs {A1 A2 B} (P : B → Prop) `{∀ y, Decision (P y)}
    (Q : A2 → Prop) `{∀ x, Decision (Q x)} (h : A1 → A2 → B)
    (l1 : list A1) (l2 : list A2) :
  (∀ x y, y ∈ l2 → P (h x y) ↔ Q y) →
  filter P (l1 ≫= λ x, l2 ≫= λ y, [h x y])
  = l1 ≫= λ x, filter Q l2 ≫= λ y, [h x y].
Proof.
  intros HPQ. induction l1 as [|x l1 IH]; [done|].
  rewrite !bind_cons, filter_app, IH. f_equal.
  rewrite !bind_singleton_fmap. apply filter_fmap_on. intros y Hy.
  by apply HPQ.
Qed.

Lemma filter_bind_pairs_none {A1 A2 B} (P : B → Prop) `{∀ y, Decision (P y)}
    (h : A1 → A2 → B) (l1 : list A1) (l2 : list A2) :
  (∀ x y, ¬ P (h x y)) →
  filter P (l1 ≫= λ x, l2 ≫= λ y, [h x y]) = [].
Proof.
  intros HP. induction l1 as [|x l1 IH]; [done|].
  rewrite !bind_cons, filter_app, IH, app_nil_r.
  rewrite bind_singleton_fmap. by apply filter_fmap_none.
Qed.

(** ** Set literals *)

Lemma hl_literal_returns (s : gset string) :
  s ≠ ∅ → hl_literal s = Return s.
Proof. intros Hs. unfold hl_literal. by rewrite decide_False. Qed.

Lemma hl_literal_raises : hl_literal ∅ = Raise ExpressionException.
Proof. done. Qed.

Lemma hl_literal_Return (s s' : gset string) :
  hl_literal s = Return s' → s ≠ ∅ ∧ s' = s.
Proof.
  unfold hl_literal. destruct (decide (s = ∅)); [done|].
  by intros [= <-].
Qed.

(** ** Labels *)

(** Lookups and sizes of the labels the code writes out. *)
Ltac label_lookup :=
  unfold adj_label;
  repeat first
    [ rewrite lookup_insert_eq
    | rewrite lookup_singleton_eq
    | rewrite lookup_empty
    | rewrite lookup_insert_ne by done
    | rewrite lookup_singleton_ne by done ];
  try reflexivity.

Ltac label_size :=
  unfold adj_label;
  repeat first
    [ rewrite map_size_singleton
    | rewrite map_size_empty
    | rewrite map_size_insert_None by label_lookup ];
  try reflexivity.

(** ** Popmax *)

(** The entries are those of [freq] with the meta of the same index. *)
Lemma indexed_entries_lookup freq freq_meta i e :
  indexed_entries freq freq_meta !! i = Some e
  ↔ ∃ f m, freq !! i = Some f ∧ freq_meta !! i = Some m
           ∧ e = MetaFreq.annotate (f, m).
Proof.
  unfold indexed_entries. rewrite list_lookup_fmap, fmap_Some. split.
  - intros ([f m] & Hz & ->). apply lookup_zip_with_Some in Hz.
    destruct Hz as (f' & m' & [= <- <-] & ? & ?). by exists f, m.
  - intros (f & m & Hf & Hm & ->). exists (f, m). split; [|done].
    apply lookup_zip_with_Some. by exists f, m.
Qed.

Lemma popmax_filter_eligible pops e :
  keeps (popmax_filter pops e) = true ↔ popmax_eligible pops e.
Proof.
  unfold popmax_filter, popmax_eligible, pop_allowed.
  rewrite !keeps_and, !andb_true_iff, !keeps_eq, keeps_set_contains.
  rewrite keeps_Some, bool_decide_eq_true. split.
  - intros [[[Hs ?] ?] ?]. by injection Hs.
  - intros (-> & ? & ? & ?). done.
Qed.

Lemma popmax_eligible_candidate populations fm :
  popmax_eligible populations (MetaFreq.annotate fm)
  ↔ popmax_candidate populations fm.
Proof. done. Qed.

Lemma unannotate_annotate fm : unannotate (MetaFreq.annotate fm) = fm.
Proof. by destruct fm as [[] m]. Qed.

(** The candidates of [popmax_row] are the entries of [freq] with their
    metas that the four tests keep. *)
Lemma popmax_row_candidates `{Engine} freq freq_meta populations :
  List.filter (λ f, keeps (popmax_filter populations f))
    (MetaFreq.annotate <$> zip freq freq_meta)
  = MetaFreq.annotate
      <$> filter (popmax_candidate populations) (zip freq freq_meta).
Proof.
  rewrite (bool_filter_decide _ (popmax_eligible populations))
    by apply popmax_filter_eligible.
  apply filter_fmap_on. intros fm _. apply popmax_eligible_candidate.
Qed.

(** With a population in the set, [popmax_expr] returns the expression
    that evaluates [freq] and chooses at each row. *)
Lemma popmax_expr_returns `{Engine} {R} (freq : R → hl (list Freq.t))
    (freq_meta : R → list (gmap string string)) populations :
  populations ≠ ∅ →
  popmax_expr freq freq_meta populations
  = Return (λ r, f ← freq r; popmax_row f (freq_meta r) populations).
Proof.
  intros Hne. unfold popmax_expr. by rewrite hl_literal_returns.
Qed.

Lemma popmax_expr_raises `{Engine} {R} (freq : R → hl (list Freq.t))
    (freq_meta : R → list (gmap string string)) :
  popmax_expr freq freq_meta ∅ = Raise ExpressionException.
Proof. done. Qed.

(** C1.  For a set of allowed populations that is not empty,
    [popmax_expr] returns an expression.  At a row where [freq] has a
    value, the candidates are exactly the entries of [freq], each with
    the meta at its index, whose meta has size 2, group "adj" and a
    population of the allowed set, and whose AC is positive.  When there
    is none the result is missing.  Otherwise it is the struct of the
    first of the candidates in a descending order of AF, an entry whose AF
    no candidate exceeds, with its AC, AF, AN, homozygote count and
    population. *)
Theorem popmax_expr_selects `{Engine} {R : Type}
    (freq : R → hl (list Freq.t))
    (freq_meta : R → list (gmap string string)) (populations : gset string) :
  populations ≠ ∅ →
  ∃ popmax,
    popmax_expr freq freq_meta populations = Return popmax
    ∧ ∀ r fs, freq r = Val fs →
        let candidates :=
          filter (popmax_candidate populations) (zip fs (freq_meta r)) in
        (candidates = [] ∧ popmax r = Val None)
        ∨ ∃ sorted f m pop,
            sorted ≡ₚ candidates
            ∧ StronglySorted AF_descending sorted
            ∧ sorted !! 0%nat = Some (f, m)
            ∧ (f, m) ∈ candidates
            ∧ (∀ fm, fm ∈ candidates → (Freq.AF fm.1 ≤ Freq.AF f)%Qc)
            ∧ m !! "pop" = Some pop
            ∧ popmax r = Val (Some (popmax_struct f pop)).
Proof.
  intros Hne. eexists. split; [by apply popmax_expr_returns|].
  intros r fs Hfs candidates. cbv beta. rewrite Hfs. cbn [mbind hl_bind].
  unfold popmax_row. cbv zeta. rewrite popmax_row_candidates.
  fold candidates.
  pose proof (hl_sorted_perm MetaFreq.AF true (MetaFreq.annotate <$> candidates))
    as Hperm.
  pose proof (hl_sorted_ord MetaFreq.AF true (MetaFreq.annotate <$> candidates))
    as Hord.
  destruct (hl_sorted MetaFreq.AF true (MetaFreq.annotate <$> candidates))
    as [|x rest] eqn:Hs.
  - left. split; [|done]. apply Permutation_nil_l in Hperm.
    symmetry in Hperm. by apply fmap_nil_inv in Hperm.
  - right.
    assert (Hx : x ∈ MetaFreq.annotate <$> candidates).
    { rewrite <- Hperm. by left. }
    apply list_elem_of_fmap in Hx as ([f m] & -> & Hfm).
    assert (Hcand : popmax_candidate populations (f, m)).
    { unfold candidates in Hfm. by apply list_elem_of_filter in Hfm as [? _]. }
    destruct Hcand as (_ & _ & (pop & Hpop & _) & _). cbn [snd] in Hpop.
    exists (unannotate <$> MetaFreq.annotate (f, m) :: rest), f, m, pop.
    split; [|split; [|split; [|split; [|split; [|split]]]]].
    + rewrite Hperm, <- list_fmap_compose.
      assert (E : unannotate ∘ MetaFreq.annotate <$> candidates = candidates).
      { rewrite <- (list_fmap_id candidates) at 2.
        apply list_fmap_ext. intros i fm _. apply unannotate_annotate. }
      by rewrite E.
    + apply (StronglySorted_fmap unannotate (key_order MetaFreq.AF true));
        [|done].
      by intros e1 e2.
    + by rewrite fmap_cons, unannotate_annotate.
    + done.
    + intros fm Hin.
      assert (Hin' : MetaFreq.annotate fm ∈ MetaFreq.annotate (f, m) :: rest).
      { rewrite Hperm. by apply list_elem_of_fmap_2. }
      apply StronglySorted_inv in Hord as [_ Hall].
      apply elem_of_cons in Hin' as [Heq|Hin'].
      * apply (f_equal MetaFreq.AF) in Heq. cbn in Heq. rewrite Heq.
        apply Qcle_refl.
      * rewrite Forall_forall in Hall. apply (Hall _ Hin').
    + done.
    + simpl. unfold dict_index. cbn [MetaFreq.annotate MetaFreq.meta snd].
      by rewrite Hpop.
Qed.

Lemma popmax_expr_selects_example :
  ({[ "afr" ]} : gset string) ≠ ∅
  ∧ ∃ popmax,
      popmax_expr (R := unit) (λ _, Val two_entries)
        (λ _, two_metas) {[ "afr" ]}
      = Return popmax.
Proof.
  assert (Hne : ({[ "afr" ]} : gset string) ≠ ∅)
    by apply non_empty_singleton_L.
  split; [done|].
  destruct (popmax_expr_selects (R := unit) (λ _, Val two_entries)
              (λ _, two_metas) {[ "afr" ]} Hne)
    as (popmax & Hret & _).
  by exists popmax.
Defined.

(** With the empty set the literal of line 34 cannot be built: the call
    raises, where an empty choice of candidates would give a missing
    popmax. *)
Lemma popmax_expr_empty_set :
  popmax_expr (R := unit) (λ _, Val two_entries) (λ _, two_metas) ∅
  = Raise ExpressionException.
Proof. reflexivity. Qed.

(** ** Filtering allele frequency *)

Lemma faf_filter_eligible `{Engine} pops locus e :
  keeps (faf_filter pops locus e) = true ↔ faf_eligible pops locus e.
Proof.
  unfold faf_filter, faf_eligible, pop_allowed. cbv zeta.
  rewrite !keeps_or, !keeps_and, !keeps_or, !keeps_and, keeps_not_Some.
  rewrite !orb_true_iff, !andb_true_iff, !orb_true_iff, !andb_true_iff.
  rewrite !keeps_eq, !keeps_set_contains, !keeps_dict_contains.
  rewrite negb_true_iff.
  assert (Hsz : ∀ n : nat, Some (size (MetaFreq.meta e)) = Some n
                           ↔ size (MetaFreq.meta e) = n).
  { intros n. split; [by intros [= ->] | by intros ->]. }
  rewrite !Hsz. tauto.
Qed.

(** The structs of [faf_row] are those of the entries of [freq] with
    their metas that pass the condition. *)
Lemma faf_row_groups `{Engine} freq freq_meta locus populations :
  faf_row freq freq_meta locus populations
  = faf_struct_of
      <$> filter (λ fm, faf_meta_eligible populations locus fm.2)
            (zip freq freq_meta).
Proof.
  unfold faf_row. cbv zeta.
  rewrite (bool_filter_decide _ (faf_eligible populations locus))
    by apply faf_filter_eligible.
  rewrite (filter_fmap_on (faf_eligible populations locus)
             (λ fm, faf_meta_eligible populations locus fm.2)) by done.
  rewrite <- list_fmap_compose. apply list_fmap_ext. by intros i [f m] _.
Qed.

Lemma faf_expr_returns `{Engine} {R} (freq : R → hl (list Freq.t))
    (freq_meta : R → list (gmap string string)) (locus : R → Locus)
    populations :
  populations ≠ ∅ →
  faf_expr freq freq_meta locus populations
  = Return (λ r, f ← freq r;
                 Val (faf_row f (freq_meta r) (locus r) populations)).
Proof. intros Hne. unfold faf_expr. by rewrite hl_literal_returns. Qed.

Lemma faf_expr_Return `{Engine} {R} (freq : R → hl (list Freq.t))
    (freq_meta : R → list (gmap string string)) (locus : R → Locus)
    populations faf :
  faf_expr freq freq_meta locus populations = Return faf →
  populations ≠ ∅
  ∧ faf = λ r, f ← freq r;
               Val (faf_row f (freq_meta r) (locus r) populations).
Proof.
  unfold faf_expr. destruct (hl_literal populations) as [s|e] eqn:Hs; [|done].
  apply hl_literal_Return in Hs as [Hne ->]. by intros [= <-].
Qed.

(** C3.  For a set of allowed populations that is not empty, [faf_expr]
    returns an expression.  At a row where [freq] has a value it gives,
    in the order of the array, one struct for each entry of [freq] whose
    meta, the one at its index, has group "adj" and size 1, or size 2
    with a population of the allowed set, or, only when the locus is
    outside the autosomes and the pseudoautosomal regions, a "sex" key
    and size 2, or size 3 with an allowed population.  The struct carries
    the meta and the filtering allele frequencies of the entry's AC and
    AN at the levels 0.95 and 0.99. *)
Theorem faf_expr_groups `{Engine} {R : Type} (freq : R → hl (list Freq.t))
    (freq_meta : R → list (gmap string string)) (locus : R → Locus)
    (populations : gset string) :
  populations ≠ ∅ →
  ∃ faf,
    faf_expr freq freq_meta locus populations = Return faf
    ∧ ∀ r fs, freq r = Val fs →
        faf r
        = Val ((λ fm : Freq.t * gmap string string,
                  {| Faf.meta := fm.2;
                     Faf.faf95 :=
                       filtering_allele_frequency (Freq.AC fm.1)
                         (Freq.AN fm.1) (Q2Qc (95 # 100));
                     Faf.faf99 :=
                       filtering_allele_frequency (Freq.AC fm.1)
                         (Freq.AN fm.1) (Q2Qc (99 # 100)) |})
                 <$> filter
                       (λ fm, faf_meta_eligible populations (locus r) fm.2)
                       (zip fs (freq_meta r))).
Proof.
  intros Hne. eexists. split; [by apply faf_expr_returns|].
  intros r fs Hfs. cbv beta. rewrite Hfs. cbn [mbind hl_bind].
  by rewrite faf_row_groups.
Qed.

Lemma faf_expr_groups_example :
  ({[ "afr" ]} : gset string) ≠ ∅
  ∧ ∃ faf,
      faf_expr (R := unit) (λ _, Val two_entries) (λ _, two_metas)
        (λ _, {| contig := "1"; position := 100 |}) {[ "afr" ]}
      = Return faf.
Proof.
  assert (Hne : ({[ "afr" ]} : gset string) ≠ ∅)
    by apply non_empty_singleton_L.
  split; [done|].
  destruct (faf_expr_groups (R := unit) (λ _, Val two_entries)
              (λ _, two_metas)
              (λ _, {| contig := "1"; position := 100 |}) {[ "afr" ]} Hne)
    as (faf & Hret & _).
  by exists faf.
Defined.

(** With the empty set the literal of line 113 cannot be built: the call
    raises, where the global group, whose meta has size 1, would get a
    struct whatever the set. *)
Lemma faf_expr_empty_set :
  faf_expr (R := unit) (λ _, Val two_entries) (λ _, two_metas)
    (λ _, {| contig := "1"; position := 100 |}) ∅
  = Raise ExpressionException.
Proof. reflexivity. Qed.

(** ** Project-max *)

Lemma StronglySorted_fmap_elem {A B} (R1 : relation A) (R2 : relation B)
    (f : A → B) (l : list A) :
  (∀ x y, x ∈ l → y ∈ l → R1 x y → R2 (f x) (f y)) →
  StronglySorted R1 l → StronglySorted R2 (f <$> l).
Proof.
  intros HR Hs. induction Hs as [|x l Hs IH Hall]; [constructor|].
  rewrite fmap_cons. constructor.
  - apply IH. intros y z Hy Hz. apply HR; by right.
  - rewrite Forall_fmap, Forall_forall. intros y Hy. simpl.
    apply HR; [by left | by right|].
    rewrite Forall_forall in Hall. by apply Hall.
Qed.

(** The statistics of [project_cs] are those of the projects of the
    row. *)
Lemma project_cs_projects `{Engine} project_gt n :
  (λ kv, (kv.1, call_stats kv.2 n)) <$> group_by project_gt
  = (λ k, (k, call_stats (project_genotypes project_gt k) n))
      <$> projects project_gt.
Proof. unfold group_by, projects. by rewrite <- list_fmap_compose. Qed.

Section project_max_allele.
Context `{Engine}.
Variables (project_cs : list (option string * CallStats.t)) (n : nat).
Variables (n_projects ai : nat).
Hypothesis arrays : ∀ x, x ∈ project_cs →
  length (CallStats.AC x.2) = n ∧ length (CallStats.AF x.2) = n
  ∧ length (CallStats.homozygote_count x.2) = n.
Hypothesis allele : (1 ≤ ai < n)%nat.

Let af (x : option string * CallStats.t) : Qc :=
  at_allele 0%Qc (CallStats.AF x.2) ai.

Lemma project_AF_at x : x ∈ project_cs → project_AF ai x = Val (af x).
Proof.
  intros Hx. destruct (arrays x Hx) as (_ & Hlen & _).
  unfold project_AF. apply array_index_lt. lia.
Qed.

Lemma project_annotate_struct x :
  x ∈ project_cs → project_annotate ai x = Val (project_struct ai x).
Proof.
  intros Hx. destruct (arrays x Hx) as (Hac & Haf & Hhom).
  unfold project_annotate.
  rewrite (array_index_lt (CallStats.AC x.2) 0 0) by lia.
  rewrite (array_index_lt (CallStats.AC x.2) 0 ai) by lia.
  rewrite (array_index_lt (CallStats.AF x.2) 0%Qc 0) by lia.
  rewrite (array_index_lt (CallStats.AF x.2) 0%Qc ai) by lia.
  rewrite (array_index_lt (CallStats.homozygote_count x.2) 0 0) by lia.
  rewrite (array_index_lt (CallStats.homozygote_count x.2) 0 ai) by lia.
  done.
Qed.

Lemma project_max_allele_ranked :
  ∃ ranked,
    ranked ≡ₚ filter (λ x, (0 < af x)%Qc) project_cs
    ∧ StronglySorted (λ x y, (af y ≤ af x)%Qc) ranked
    ∧ project_max_allele project_cs n_projects ai
      = Val (project_struct ai <$> take n_projects ranked).
Proof.
  unfold project_max_allele.
  rewrite (filter_hl_pure _ (λ x, bool_decide (0 < af x)%Qc)); last first.
  { intros x Hx. rewrite (project_AF_at x Hx). eexists.
  split; [reflexivity | apply keeps_Some]. }
  rewrite (bool_filter_decide _ (λ x, (0 < af x)%Qc))
    by (intros x; apply bool_decide_eq_true).
  set (kept := filter _ project_cs).
  assert (Hkept : ∀ x, x ∈ kept → x ∈ project_cs).
  { intros x Hx. by apply list_elem_of_filter in Hx as [_ ?]. }
  cbn [mbind hl_bind].
  rewrite (hl_all_pure _ (λ x, ((- af x)%Qc, x))); last first.
  { intros x Hx. by rewrite (project_AF_at x (Hkept x Hx)). }
  cbn [mbind hl_bind].
  set (keyed := (λ x, ((- af x)%Qc, x)) <$> kept).
  pose proof (hl_sorted_perm fst false keyed) as Hperm.
  pose proof (hl_sorted_ord fst false keyed) as Hord.
  set (sorted := hl_sorted fst false keyed) in *.
  assert (Hkeyed : ∀ x, x ∈ sorted → x.1 = (- af x.2)%Qc ∧ x.2 ∈ kept).
  { intros x Hx. rewrite Hperm in Hx. unfold keyed in Hx.
    apply list_elem_of_fmap in Hx as (y & -> & Hy). done. }
  exists (snd <$> sorted). split; [|split].
  - rewrite Hperm. unfold keyed. rewrite <- list_fmap_compose.
    by rewrite list_fmap_id.
  - apply (StronglySorted_fmap_elem (key_order fst false)); [|done].
    intros x y Hx Hy Hle. unfold key_order in Hle.
    destruct (Hkeyed x Hx) as [Ex _], (Hkeyed y Hy) as [Ey _].
    rewrite Ex, Ey in Hle. apply Qcopp_le_compat in Hle.
    by rewrite !Qcopp_involutive in Hle.
  - apply hl_all_pure. intros x Hx.
    apply project_annotate_struct, Hkept.
  apply subseteq_take in Hx.
    apply list_elem_of_fmap in Hx as (y & -> & Hy). by apply Hkeyed.
Qed.
End project_max_allele.

(** C4.  With fewer than two alleles [project_max_expr] is missing.
    Otherwise it holds one array per alternate allele [ai]: the per-project
    call statistics (those of the genotypes of each distinct project)
    restricted to the projects whose AF at [ai] is positive, in decreasing
    order of that AF, cut to the first [n_projects], each with AC, AF and
    homozygote count replaced by the pair of the reference value and the
    value at [ai], and with the project. *)
Theorem project_max_expr_ranks `{Engine}
    (project_gt : list (option string * option Call)) (alleles : list string)
    (n_projects : nat) :
  let n := length alleles in
  let project_cs :=
    (λ k, (k, call_stats (project_genotypes project_gt k) n))
      <$> projects project_gt in
  let af ai (x : option string * CallStats.t) :=
    at_allele 0%Qc (CallStats.AF x.2) ai in
  ((n ≤ 1)%nat → project_max_expr project_gt alleles n_projects = Val None)
  ∧ ((2 ≤ n)%nat →
     ∃ result,
       project_max_expr project_gt alleles n_projects = Val (Some result)
       ∧ length result = (n - 1)%nat
       ∧ ∀ ai, (1 ≤ ai < n)%nat →
           ∃ ranked,
             ranked ≡ₚ filter (λ x, (0 < af ai x)%Qc) project_cs
             ∧ StronglySorted (λ x y, (af ai y ≤ af ai x)%Qc) ranked
             ∧ result !! (ai - 1)%nat
               = Some (project_struct ai <$> take n_projects ranked)).
Proof.
  intros n project_cs af. unfold project_max_expr. fold n.
  rewrite project_cs_projects. fold project_cs. split; intros Hn.
  - rewrite bool_decide_eq_false_2 by lia. done.
  - rewrite bool_decide_eq_true_2 by lia.
    assert (Harr : ∀ x, x ∈ project_cs →
      length (CallStats.AC x.2) = n ∧ length (CallStats.AF x.2) = n
      ∧ length (CallStats.homozygote_count x.2) = n).
    { intros x Hx. apply list_elem_of_fmap in Hx as (k & -> & _). simpl.
      by rewrite call_stats_AC, call_stats_AF, call_stats_hom. }
    destruct (hl_all_Forall2 (project_max_allele project_cs n_projects)
      (λ ai y, ∃ ranked,
         ranked ≡ₚ filter (λ x, (0 < af ai x)%Qc) project_cs
         ∧ StronglySorted (λ x y, (af ai y ≤ af ai x)%Qc) ranked
         ∧ y = project_struct ai <$> take n_projects ranked)
      (seq 1 (n - 1))) as (result & Hres & HF).
    { intros ai Hai. apply list_elem_of_lookup in Hai as [i Hi].
      apply lookup_seq in Hi as [-> Hi].
      destruct (project_max_allele_ranked project_cs n n_projects (1 + i)
                  Harr ltac:(lia)) as (ranked & ? & ? & ?).
      eexists. split; [done|]. by exists ranked. }
    exists result. unfold or_missing. rewrite Hres. split; [done|]. split.
    + apply Forall2_length in HF. by rewrite length_seq in HF.
    + intros ai Hai.
      assert (Hseq : seq 1 (n - 1) !! (ai - 1)%nat = Some ai).
      { apply lookup_seq. lia. }
      destruct (Forall2_lookup_l _ _ _ _ _ HF Hseq)
        as (y & Hy & ranked & ? & ? & ->).
      by exists ranked.
Qed.

(** ** The calls that fail *)

(** Line 162 passes one argument to a function of two. *)
Lemma call_without_downsamplings `{Engine} mt :
  call_generate_downsamplings_cumulative (Some mt) None
  = Raise (TypeError_missing_argument
             "_generate_downsamplings_cumulative" "downsamplings").
Proof. done. Qed.

(** Line 251 iterates over the populations to remove. *)
Lemma generate_frequency_data_from_None `{Engine} mt downsamplings fl :
  generate_frequency_data_from mt downsamplings fl None
  = Raise (TypeError_not_iterable "NoneType").
Proof. done. Qed.

Lemma generate_frequency_data_no_downsampling `{Engine} mt fl pops :
  calculate_downsampling fl = false →
  generate_frequency_data mt fl pops
  = generate_frequency_data_from mt [] fl pops.
Proof. intros Hd. unfold generate_frequency_data. by rewrite Hd. Qed.

Lemma generate_frequency_data_downsampling `{Engine} mt fl pops :
  calculate_downsampling fl = true →
  generate_frequency_data mt fl pops
  = Raise (TypeError_missing_argument
             "_generate_downsamplings_cumulative" "downsamplings").
Proof. intros Hd. unfold generate_frequency_data. by rewrite Hd. Qed.

(** C6.  With [pops_to_remove_for_popmax] left at [None] the call raises a
    TypeError and returns no table, for every matrix table and every
    setting of the flags; without downsampling it is the TypeError of
    iterating over [None].  A call that returns its tables, popmax
    included, was given a list. *)
Theorem default_populations_raise `{Engine} (mt : MatrixTable) (fl : Flags) :
  (∃ e, generate_frequency_data mt fl None = Raise e ∧ is_TypeError e)
  ∧ (calculate_downsampling fl = false →
     generate_frequency_data mt fl None
     = Raise (TypeError_not_iterable "NoneType"))
  ∧ (∀ pops out,
       generate_frequency_data mt fl pops = Return out →
       ∃ removed, pops = Some removed).
Proof.
  split; [|split].
  - destruct (calculate_downsampling fl) eqn:Hd.
    + rewrite generate_frequency_data_downsampling by done. by eexists.
    + rewrite generate_frequency_data_no_downsampling by done. by eexists.
  - intros Hd. by rewrite generate_frequency_data_no_downsampling.
  - intros pops out. destruct (calculate_downsampling fl) eqn:Hd.
    + by rewrite generate_frequency_data_downsampling.
    + rewrite generate_frequency_data_no_downsampling by done.
      destruct pops as [removed|]; [by exists removed | done].
Qed.

(** C7.  With [calculate_downsampling] the call raises the TypeError of a
    missing required argument: its first step, the call of
    [_generate_downsamplings_cumulative] without [downsamplings], raises
    it, and nothing is aggregated. *)
Theorem downsampling_call_raises `{Engine} (mt : MatrixTable) (fl : Flags)
    (pops : option (list string)) :
  calculate_downsampling fl = true →
  call_generate_downsamplings_cumulative (Some mt) None
  = Raise (TypeError_missing_argument
             "_generate_downsamplings_cumulative" "downsamplings")
  ∧ generate_frequency_data mt fl pops
    = Raise (TypeError_missing_argument
               "_generate_downsamplings_cumulative" "downsamplings").
Proof.
  intros Hd. split; [done|]. by apply generate_frequency_data_downsampling.
Qed.

Lemma downsampling_call_raises_example :
  calculate_downsampling downsampling_flags = true
  ∧ generate_frequency_data example_mt downsampling_flags (Some [])
    = Raise (TypeError_missing_argument
               "_generate_downsamplings_cumulative" "downsamplings").
Proof.
  split; [reflexivity|].
  apply (downsampling_call_raises example_mt downsampling_flags (Some [])).
  reflexivity.
Defined.

(** C8.  The call with every argument at its default fails with an
    exception of the interpreter, raised in the function's own frame at
    line 251: not a fatal error of a lazily evaluated expression of the
    engine, which would sit in a field of a returned table. *)
Theorem default_call_fails_locally `{Engine} (mt : MatrixTable) :
  generate_frequency_data mt default_flags None
  = Raise (TypeError_not_iterable "NoneType").
Proof. done. Qed.

(** C10.  With the downsamplings asked for, the call returns no table at
    all, whatever list of populations it is given: it raises the
    TypeError of line 162.  The call with every argument at its default
    returns none either: it raises the TypeError of line 251. *)
Theorem no_table_returned `{Engine} (mt : MatrixTable)
    (removed : list string) :
  generate_frequency_data mt downsampling_flags (Some removed)
  = Raise (TypeError_missing_argument
             "_generate_downsamplings_cumulative" "downsamplings")
  ∧ generate_frequency_data mt default_flags None
    = Raise (TypeError_not_iterable "NoneType").
Proof. done. Qed.

(** ** Distinct elements and counters *)

Lemma elem_of_distinct {A} `{EqDecision A} (l : list A) x :
  x ∈ distinct l ↔ x ∈ l.
Proof.
  induction l as [|y l IH]; [done|]. cbn [distinct].
  rewrite !elem_of_cons, list_elem_of_filter, IH.
  destruct (decide (x = y)); tauto.
Qed.

Lemma NoDup_distinct {A} `{EqDecision A} (l : list A) : NoDup (distinct l).
Proof.
  induction l as [|y l IH]; cbn [distinct]; [constructor|].
  apply NoDup_cons. split.
  - rewrite list_elem_of_filter. by intros [? _].
  - by apply NoDup_filter.
Qed.

Lemma Counter_keys {K} `{EqDecision K} (l : list K) :
  (Counter l).*1 = distinct l.
Proof.
  unfold Counter. rewrite <- list_fmap_compose. apply list_fmap_id.
Qed.

Lemma Counter_values {K} `{EqDecision K} (l : list K) :
  (Counter l).*2 = (λ k, occurrences k l) <$> distinct l.
Proof. unfold Counter. by rewrite <- list_fmap_compose. Qed.

Lemma elem_of_Counter {K} `{EqDecision K} (l : list K) k n :
  (k, n) ∈ Counter l ↔ k ∈ l ∧ n = occurrences k l.
Proof.
  unfold Counter. rewrite list_elem_of_fmap. setoid_rewrite elem_of_distinct.
  split.
  - by intros (k' & [= -> ->] & ?).
  - intros [? ->]. by exists k.
Qed.

Lemma sorted_by_key_perm {A} (key : A → string) (l : list A) :
  sorted_by_key key l ≡ₚ l.
Proof. apply merge_sort_Permutation. Qed.

Lemma elem_of_agg_counter (l : list string) kv :
  kv ∈ agg_counter l ↔ kv ∈ Counter l.
Proof. unfold agg_counter. by rewrite sorted_by_key_perm. Qed.

Lemma omap_cons {A B} (f : A → option B) (x : A) (l : list A) :
  omap f (x :: l)
  = match f x with Some y => y :: omap f l | None => omap f l end.
Proof. done. Qed.

Lemma occurrences_omap {A} (f : A → option string) (l : list A) k :
  occurrences k (omap f l) = Z.of_nat (length (filter (λ c, f c = Some k) l)).
Proof.
  unfold occurrences. f_equal. induction l as [|c l IH]; [done|].
  rewrite omap_cons, (filter_cons (λ c, f c = Some k)).
  destruct (f c) as [p|] eqn:E.
  - rewrite filter_cons.
    destruct (decide (p = k)) as [->|Hne].
    + rewrite decide_True by done. simpl. by rewrite IH.
    + rewrite decide_False by congruence. done.
  - rewrite decide_False by done. done.
Qed.

(** The populations read off the samples. *)
Lemma get_sample_data_one mt (f : Col.t → option string) :
  get_sample_data mt [f] = (λ x, [x]) <$> omap f (cols mt).
Proof.
  unfold get_sample_data. induction (cols mt) as [|c l IH]; [done|].
  rewrite !omap_cons, IH. cbn. by destruct (f c).
Qed.

Lemma py_all_singletons (l : list string) :
  py_all ((λ x, py_index x 0) <$> ((λ x, [x]) <$> l)) = Return l.
Proof.
  induction l as [|x l IH]; [done|]. rewrite !fmap_cons. cbn [py_all].
  by rewrite IH.
Qed.

Lemma pop_data_returns mt :
  py_all ((λ x, py_index x 0)
            <$> get_sample_data mt [λ c, Meta.pop (Col.meta c)])
  = Return (omap col_pop (cols mt)).
Proof. rewrite get_sample_data_one. apply py_all_singletons. Qed.

Lemma populations_pop_size mt pop :
  occurrences pop (omap col_pop (cols mt)) = pop_size mt pop.
Proof. apply occurrences_omap. Qed.

(** ** The thresholds *)

Lemma elem_of_py_sorted l x : x ∈ py_sorted l ↔ x ∈ l.
Proof. unfold py_sorted. by rewrite merge_sort_Permutation. Qed.

Lemma elem_of_bool_filter {A} (b : A → bool) (l : list A) x :
  x ∈ List.filter b l ↔ x ∈ l ∧ b x = true.
Proof. by rewrite !list_elem_of_In, filter_In. Qed.

Lemma NoDup_bool_filter {A} (b : A → bool) (l : list A) :
  NoDup l → NoDup (List.filter b l).
Proof.
  intros Hl. apply NoDup_ListNoDup, List.NoDup_filter.
  by apply NoDup_ListNoDup.
Qed.

Lemma StronglySorted_le_lt (l : list Z) :
  StronglySorted Z.le l → NoDup l → StronglySorted Z.lt l.
Proof.
  induction 1 as [|x l Hs IH Hall]; intros Hnd; [constructor|].
  apply NoDup_cons in Hnd as [Hx Hnd]. constructor; [by apply IH|].
  rewrite Forall_forall in Hall |- *. intros y Hy.
  assert (x ≠ y) by (by intros ->). specialize (Hall y Hy). lia.
Qed.

Section thresholds.
Variables (requested counts : list Z).

Let thresholds : list Z :=
  py_sorted
    (List.filter (λ x, bool_decide (x ≤ py_sum counts))
       (py_sorted
          (List.filter (λ x, bool_decide (x ≤ py_sum counts))
             (py_list_set (requested ++ counts))))).

Lemma elem_of_thresholds x :
  x ∈ thresholds ↔ (x ∈ requested ∨ x ∈ counts) ∧ x ≤ py_sum counts.
Proof.
  unfold thresholds, py_list_set.
  rewrite elem_of_py_sorted, elem_of_bool_filter, elem_of_py_sorted.
  rewrite elem_of_bool_filter, elem_of_elements, elem_of_list_to_set.
  rewrite elem_of_app, bool_decide_eq_true. tauto.
Qed.

Lemma thresholds_increasing : StronglySorted Z.lt thresholds.
Proof.
  apply StronglySorted_le_lt.
  - apply StronglySorted_merge_sort; apply _.
  - unfold thresholds, py_sorted. rewrite merge_sort_Permutation.
    apply NoDup_bool_filter. rewrite merge_sort_Permutation.
    apply NoDup_bool_filter. unfold py_list_set. apply NoDup_elements.
Qed.
End thresholds.

(** ** The order and the indices *)

Lemma lookup_add_index {A} (t : list A) i :
  add_index t !! i = (λ x, (x, Z.of_nat i)) <$> t !! i.
Proof. unfold add_index. apply list_lookup_imap. Qed.

Lemma fst_imap_pair {A B} (g : nat → A → B) (l : list A) :
  (imap (λ i x, (x, g i x)) l).*1 = l.
Proof.
  revert g. induction l as [|x l IH]; intros g; [done|].
  rewrite imap_cons, fmap_cons. simpl. f_equal. apply (IH (λ i, g (S i))).
Qed.

Lemma fst_add_index {A} (t : list A) : (add_index t).*1 = t.
Proof. apply (fst_imap_pair (λ i _, Z.of_nat i)). Qed.

Lemma filter_position {A} (b : A → bool) (l : list A) i x :
  l !! i = Some x → b x = true →
  List.filter b l !! length (List.filter b (take i l)) = Some x.
Proof.
  revert i. induction l as [|y l IH]; intros [|i] Hi Hb; try done.
  - injection Hi as ->. simpl. by rewrite Hb.
  - simpl in Hi. simpl. destruct (b y); simpl; by apply IH.
Qed.

Lemma NoDup_fmap_eq {A B} (f : A → B) (l : list A) x y :
  NoDup (f <$> l) → x ∈ l → y ∈ l → f x = f y → x = y.
Proof.
  induction l as [|z l IH]; intros Hnd Hx Hy E; [by inversion Hx|].
  rewrite fmap_cons in Hnd. apply NoDup_cons in Hnd as [Hz Hnd].
  apply elem_of_cons in Hx as [->|Hx]; apply elem_of_cons in Hy as [->|Hy].
  - done.
  - destruct Hz. rewrite E. by apply list_elem_of_fmap_2.
  - destruct Hz. rewrite <- E. by apply list_elem_of_fmap_2.
  - by apply IH.
Qed.

Lemma find_unique {A} (f : A → bool) (l : list A) x :
  x ∈ l → f x = true → (∀ y, y ∈ l → f y = true → y = x) →
  List.find f l = Some x.
Proof.
  intros Hx Hf Huniq. destruct (List.find f l) as [y|] eqn:E.
  - apply find_some in E as [Hy Hfy]. f_equal.
    apply Huniq; [by apply list_elem_of_In | done].
  - apply list_elem_of_In in Hx. pose proof (find_none _ _ E x Hx). congruence.
Qed.

Lemma find_absent {A} (f : A → bool) (l : list A) :
  (∀ y, y ∈ l → f y = false) → List.find f l = None.
Proof.
  intros Hf. destruct (List.find f l) as [y|] eqn:E; [|done].
  apply find_some in E as [Hy Hfy]. apply list_elem_of_In in Hy.
  rewrite (Hf y Hy) in Hfy. done.
Qed.

Lemma length_filter_imap {A} (b : A → bool) (g : nat → Z) (t : list A) i :
  length (List.filter (λ y : A * Z, b y.1)
            (take i (imap (λ j x, (x, g j)) t)))
  = length (List.filter b (take i t)).
Proof.
  revert g i. induction t as [|x t IH]; intros g [|i]; try done.
  rewrite imap_cons. simpl. destruct (b x); simpl; f_equal;
    apply (IH (λ j, g (S j))).
Qed.

Lemma length_filter_add_index {A} (b : A → bool) (t : list A) i :
  length (List.filter (λ y : A * Z, b y.1) (take i (add_index t)))
  = length (List.filter b (take i t)).
Proof. apply (length_filter_imap b (λ j, Z.of_nat j)). Qed.

(** The loop leaves the tables of the populations one after the other;
    with no population [global_ht] is never bound. *)
Lemma union_pop_tables_from ht keys j g :
  (0 < j)%nat →
  union_pop_tables ht (imap (λ i pop, ((j + i)%nat, pop)) keys) (Some g)
  = Return (g ++ (keys ≫= pop_ht ht)).
Proof.
  revert j g. induction keys as [|k keys IH]; intros j g Hj.
  - simpl. by rewrite app_nil_r.
  - rewrite imap_cons. cbn [union_pop_tables].
    rewrite bool_decide_eq_false_2 by lia.
    rewrite (imap_ext _ (λ i pop, ((S j + i)%nat, pop)))
      by (intros; simpl; f_equal; lia).
    rewrite IH by lia. by rewrite <- app_assoc.
Qed.

Lemma union_pop_tables_all ht k keys :
  union_pop_tables ht (imap (λ i pop, (i, pop)) (k :: keys)) None
  = Return ((k :: keys) ≫= pop_ht ht).
Proof.
  rewrite imap_cons. cbn [union_pop_tables].
  rewrite bool_decide_eq_true_2 by done.
  rewrite (imap_ext _ (λ i pop, ((1 + i)%nat, pop))) by done.
  by rewrite union_pop_tables_from by lia.
Qed.

Section indices.
Context `{Engine}.
Variable mt : MatrixTable.
Hypothesis ids : NoDup (Col.s <$> cols mt).

Let order : list (Col.t * Qc) :=
  hl_sorted snd false (imap (λ i c, (c, rand_unif i)) (cols mt)).
Let ht : list HtRow := add_index order.
Let keys : list string := distinct (omap col_pop (cols mt)).
Let in_pop (pop : string) (x : HtRow) : bool :=
  keeps (hl_eq (Meta.pop (Col.meta x.1.1)) (Some pop)).

Lemma order_cols : order.*1 ≡ₚ cols mt.
Proof.
  unfold order. rewrite hl_sorted_perm.
  by rewrite (fst_imap_pair (λ i _, rand_unif i)).
Qed.

Lemma ht_ids : NoDup ((λ x : HtRow, Col.s x.1.1) <$> ht).
Proof.
  assert (E : (λ x : HtRow, Col.s x.1.1) <$> ht = Col.s <$> order.*1).
  { unfold ht. rewrite <- (fst_add_index order) at 2.
    by rewrite <- !list_fmap_compose. }
  rewrite E, order_cols. done.
Qed.

Lemma in_pop_true pop x : in_pop pop x = true ↔ col_pop x.1.1 = Some pop.
Proof. apply keeps_eq. Qed.

Lemma elem_of_pop_ht pop z :
  z ∈ pop_ht ht pop
  ↔ ∃ k, List.filter (in_pop pop) ht !! k = Some z.1 ∧ z.2 = Z.of_nat k.
Proof.
  unfold pop_ht. fold (in_pop pop). rewrite list_elem_of_lookup.
  setoid_rewrite lookup_add_index. split.
  - intros (k & Hk). exists k.
    destruct (List.filter (in_pop pop) ht !! k) as [y|]; [|done].
    injection Hk as <-. done.
  - intros (k & Hk & Hz). exists k. rewrite Hk. simpl. rewrite <- Hz.
    by destruct z.
Qed.

(** The struct joined to a sample is that of its position in the
    order. *)
Lemma global_ht_lookup_order i x :
  order !! i = Some x →
  global_ht_lookup (keys ≫= pop_ht ht) (Col.s x.1)
  = expected_downsampling order i x.
Proof.
  intros Hi.
  assert (Hht : ht !! i = Some (x, Z.of_nat i)).
  { unfold ht. by rewrite lookup_add_index, Hi. }
  assert (Hin : (x, Z.of_nat i) ∈ ht) by by eapply list_elem_of_lookup_2.
  assert (Hsame : ∀ y : HtRow,
            y ∈ ht → Col.s y.1.1 = Col.s x.1 → y = (x, Z.of_nat i)).
  { intros y Hy E.
    by apply (NoDup_fmap_eq (λ x : HtRow, Col.s x.1.1) ht _ _ ht_ids). }
  assert (Hpops : ∀ z p', z ∈ pop_ht ht p' → Col.s z.1.1.1 = Col.s x.1 →
            z.1 = (x, Z.of_nat i) ∧ col_pop x.1 = Some p'
            ∧ ∃ k', List.filter (in_pop p') ht !! k' = Some z.1
                    ∧ z.2 = Z.of_nat k').
  { intros z p' Hz Hs. apply elem_of_pop_ht in Hz as (k' & Hk' & Hz2).
    assert (Hz1 : z.1 ∈ List.filter (in_pop p') ht)
      by by eapply list_elem_of_lookup_2.
    apply elem_of_bool_filter in Hz1 as [Hz1 Hb].
    pose proof (Hsame _ Hz1 Hs) as Ez. rewrite Ez in Hb.
    apply in_pop_true in Hb. split; [done|]. split; [done|]. by exists k'. }
  unfold global_ht_lookup, expected_downsampling.
  destruct (col_pop x.1) as [pop|] eqn:Hpop; simpl.
  - set (k := length (List.filter (in_pop pop) (take i ht))).
    assert (Hk : List.filter (in_pop pop) ht !! k = Some (x, Z.of_nat i)).
    { apply filter_position; [done | by apply in_pop_true]. }
    rewrite (find_unique _ _ ((x, Z.of_nat i), Z.of_nat k)).
    + simpl. do 2 f_equal. unfold earlier_in_pop, k, ht, in_pop. f_equal.
      rewrite (length_filter_add_index
        (λ y : Col.t * Qc, keeps (hl_eq (Meta.pop (Col.meta y.1)) (Some pop)))).
      f_equal. apply bool_filter_decide. intros y. apply keeps_eq.
    + apply list_elem_of_bind. exists pop. split.
      * apply elem_of_pop_ht. by exists k.
      * unfold keys. apply elem_of_distinct, list_elem_of_omap.
        exists x.1. split; [|done]. rewrite <- order_cols.
        apply list_elem_of_fmap_2. by eapply list_elem_of_lookup_2.
    + by apply bool_decide_eq_true.
    + intros z Hz Hs. apply bool_decide_eq_true in Hs.
      apply list_elem_of_bind in Hz as (p' & Hz & _).
      destruct (Hpops z p' Hz Hs) as (Ez & [= <-] & k' & Hk' & Hz2).
      assert (Hnd : NoDup (List.filter (in_pop pop) ht)).
      { apply NoDup_bool_filter. eapply NoDup_fmap_1, ht_ids. }
      rewrite Ez in Hk'. rewrite (NoDup_lookup _ _ _ _ Hnd Hk' Hk) in Hz2.
      destruct z as [z1 z2]. simpl in Ez, Hz2. by subst.
  - apply fmap_None, find_absent. intros z Hz. apply bool_decide_eq_false.
    intros Hs. apply list_elem_of_bind in Hz as (p' & Hz & _).
    by destruct (Hpops z p' Hz Hs) as (_ & ? & _).
Qed.

(** With a population among the samples the function returns: the
    columns with their downsampling struct joined, and the thresholds. *)
Lemma generate_downsamplings_cumulative_returns requested :
  keys ≠ [] →
  _generate_downsamplings_cumulative mt requested
  = let counts := (λ pop, pop_size mt pop) <$> keys in
    Return
      ({| cols :=
            (λ c, {| Col.s := Col.s c; Col.meta := Col.meta c;
                     Col.downsampling :=
                       global_ht_lookup (keys ≫= pop_ht ht) (Col.s c) |})
              <$> cols mt;
          rows := rows mt |},
       py_sorted
         (List.filter (λ x, bool_decide (x ≤ py_sum counts))
            (py_sorted
               (List.filter (λ x, bool_decide (x ≤ py_sum counts))
                  (py_list_set (requested ++ counts)))))).
Proof.
  intros Hkeys. unfold _generate_downsamplings_cumulative.
  rewrite pop_data_returns. cbn [mbind py_bind]. cbv zeta.
  rewrite Counter_keys, Counter_values. fold keys.
  rewrite (list_fmap_ext _ (λ pop, pop_size mt pop) keys)
    by (intros; apply populations_pop_size).
  fold order. fold ht.
  destruct keys as [|k ks] eqn:Ek; [done|].
  by rewrite union_pop_tables_all.
Qed.
End indices.

(** ** The downsampling groups of the populations *)

Lemma elem_of_pop_downsampling_labels thresholds
    (cut_pop : list (string * Z)) (lbl : gmap string string) :
  lbl ∈ (pop_downsampling_filters thresholds cut_pop).*1
  ↔ ∃ ds pop pop_count,
      ds ∈ thresholds ∧ (pop, pop_count) ∈ cut_pop ∧ ds ≤ pop_count
      ∧ lbl = {[ "downsampling" := pretty ds; "pop" := pop ]}.
Proof.
  unfold pop_downsampling_filters. rewrite list_elem_of_fmap. split.
  - intros (g & -> & Hg). apply list_elem_of_bind in Hg as (ds & Hg & Hds).
    apply list_elem_of_bind in Hg as ([pop pop_count] & Hg & Hpop).
    apply elem_of_bool_filter in Hpop as [Hpop Hle].
    apply bool_decide_eq_true in Hle. apply list_elem_of_singleton in Hg as ->.
    by exists ds, pop, pop_count.
  - intros (ds & pop & pop_count & Hds & Hpop & Hle & ->).
    eexists. split; [|apply list_elem_of_bind; exists ds; split; [|done];
      apply list_elem_of_bind; exists (pop, pop_count); split;
      [apply list_elem_of_singleton; reflexivity|]].
    + done.
    + apply elem_of_bool_filter. split; [done|]. by apply bool_decide_eq_true.
Qed.

Lemma omap_fmap_list {A B C} (f : B → option C) (g : A → B) (l : list A) :
  omap f (g <$> l) = omap (λ x, f (g x)) l.
Proof.
  induction l as [|x l IH]; [done|].
  rewrite fmap_cons, !omap_cons, IH. done.
Qed.

(** C5.  For a matrix table whose samples have distinct identifiers, one
    of them at least with a population, the function returns.  The
    samples are put in the order of their random draws; a sample with a
    population is joined the struct of its draw, its position in this
    order as [global_idx] and, as [pop_idx], the number of samples of its
    population before it in this order.  The thresholds returned are the
    requested ones united with the sample count of each population,
    without repeats, in increasing order, those above the total of the
    populations' sample counts left out.  The downsampling groups of the
    populations built from them are those of the thresholds and
    populations with the threshold not above the population's sample
    count. *)
Theorem downsamplings_cumulative `{Engine} (mt : MatrixTable)
    (requested : list Z) :
  NoDup (Col.s <$> cols mt) →
  populations_of mt ≠ [] →
  ∃ mt' thresholds order,
    _generate_downsamplings_cumulative mt requested = Return (mt', thresholds)
    ∧ order ≡ₚ imap (λ i c, (c, rand_unif i)) (cols mt)
    ∧ StronglySorted (λ x y : Col.t * Qc, (x.2 ≤ y.2)%Qc) order
    ∧ rows mt' = rows mt
    ∧ length (cols mt') = length (cols mt)
    ∧ (∀ j c, cols mt !! j = Some c →
         ∃ c' i,
           cols mt' !! j = Some c'
           ∧ Col.s c' = Col.s c ∧ Col.meta c' = Col.meta c
           ∧ order !! i = Some (c, rand_unif j)
           ∧ Col.downsampling c'
             = expected_downsampling order i (c, rand_unif j))
    ∧ StronglySorted Z.lt thresholds
    ∧ (∀ t, t ∈ thresholds
            ↔ (t ∈ requested
               ∨ ∃ pop, pop ∈ populations_of mt ∧ t = pop_size mt pop)
              ∧ t ≤ total_pop_size mt)
    ∧ ∀ by_platform (lbl : gmap string string),
        lbl ∈ (pop_downsampling_filters thresholds
                 (CutData.pop (aggregate_cut_data by_platform mt'))).*1
        ↔ ∃ ds pop,
            ds ∈ thresholds ∧ pop ∈ populations_of mt
            ∧ ds ≤ pop_size mt pop
            ∧ lbl = {[ "downsampling" := pretty ds; "pop" := pop ]}.
Proof.
  intros Hids Hpops.
  rewrite (generate_downsamplings_cumulative_returns mt requested Hpops).
  cbv zeta. fold (populations_of mt).
  set (order := hl_sorted snd false (imap (λ i c, (c, rand_unif i)) (cols mt))).
  eexists _, _, order. split; [reflexivity|].
  split; [apply hl_sorted_perm|]. split; [apply (hl_sorted_ord snd false)|].
  split; [done|]. split; [cbn [cols]; by rewrite length_fmap|].
  split; [|split; [|split]].
  - intros j c Hj.
    assert (Hc : (c, rand_unif j) ∈ order).
    { unfold order. rewrite hl_sorted_perm. apply list_elem_of_lookup.
      exists j. by rewrite list_lookup_imap, Hj. }
    apply list_elem_of_lookup in Hc as [i Hi].
    eexists _, i. cbn [cols]. split; [by rewrite list_lookup_fmap, Hj|].
    cbn [Col.s Col.meta Col.downsampling]. repeat split; try done.
    by apply (global_ht_lookup_order mt Hids i (c, rand_unif j)).
  - apply thresholds_increasing.
  - intros t. rewrite elem_of_thresholds. unfold total_pop_size, py_sum, sum_Z.
    rewrite list_elem_of_fmap. split.
    + intros [[?|(pop & -> & ?)] ?]; split; try done; [by left|].
      right. by exists pop.
    + intros [[?|(pop & ? & ->)] ?]; split; try done; [by left|].
      right. by exists pop.
  - intros by_platform lbl. rewrite elem_of_pop_downsampling_labels.
    cbn [aggregate_cut_data CutData.pop cols].
    rewrite omap_fmap_list. cbn [Col.meta].
    fold col_pop. setoid_rewrite elem_of_agg_counter.
    setoid_rewrite elem_of_Counter.
    setoid_rewrite populations_pop_size.
    unfold populations_of. setoid_rewrite elem_of_distinct. split.
    + intros (ds & pop & n & ? & [? ->] & ? & ->). by exists ds, pop.
    + intros (ds & pop & ? & ? & ? & ->). by exists ds, pop, (pop_size mt pop).
Qed.

Lemma downsamplings_cumulative_example :
  NoDup (Col.s <$> cols example_mt)
  ∧ populations_of example_mt ≠ []
  ∧ ∃ mt' thresholds,
      _generate_downsamplings_cumulative example_mt [1; 2; 10]
      = Return (mt', thresholds)
      ∧ StronglySorted Z.lt thresholds.
Proof.
  assert (Hids : NoDup (Col.s <$> cols example_mt)).
  { refine (bool_decide_unpack (NoDup _) _). vm_compute. exact I. }
  assert (Hpops : populations_of example_mt ≠ []) by (vm_compute; discriminate).
  split; [done|]. split; [done|].
  destruct (downsamplings_cumulative example_mt [1; 2; 10] Hids Hpops)
    as (mt' & thresholds & order & Hret & _ & _ & _ & _ & _ & Hsorted & _).
  by exists mt', thresholds.
Defined.

(** A sample without a population is in the random order but is joined
    no struct: it gets neither a global index nor an index in a
    population. *)
Lemma sample_without_population_unindexed :
  ∃ mt' thresholds,
    _generate_downsamplings_cumulative unassigned_mt [1]
    = Return (mt', thresholds)
    ∧ (λ c, (Col.s c, Col.downsampling c)) <$> cols mt'
      = [("s1", Some {| Downsampling.r := rand_unif 0;
                        Downsampling.global_idx := 0;
                        Downsampling.pop_idx := 0 |});
         ("s2", None)].
Proof.
  eexists _, _. split; [vm_compute; reflexivity|]. vm_compute. reflexivity.
Qed.

(** ** The cells and the statistics of a row *)

Lemma cells_select sgf mt row :
  cells (select_cols sgf <$> cols mt) row
  = (λ ce, (select_cols sgf ce.1, ce.2)) <$> mt_cells mt row.
Proof.
  unfold cells, mt_cells. generalize (Row.entries row).
  induction (cols mt) as [|c l IH]; intros [|e es]; try done.
  rewrite fmap_cons. simpl. by rewrite <- IH.
Qed.

Lemma filter_fmap_bool {A B} (p : B → bool) (h : A → B) (l : list A) :
  List.filter p (h <$> l) = h <$> List.filter (λ x, p (h x)) l.
Proof.
  induction l as [|x l IH]; [done|]. rewrite fmap_cons. simpl.
  destruct (p (h x)); by rewrite IH.
Qed.

Lemma filter_bool_true {A} (l : list A) : List.filter (λ _, true) l = l.
Proof. induction l as [|x l IH]; [done|]. simpl. by rewrite IH. Qed.

Lemma keeps_and_true a b :
  keeps (a &&& b)%hl = bool_decide (a = Some true ∧ b = Some true).
Proof.
  symmetry. destruct (keeps (a &&& b)%hl) eqn:E.
  - apply bool_decide_eq_true_2. by destruct a as [[]|], b as [[]|].
  - apply bool_decide_eq_false_2. by intros [-> ->].
Qed.

Lemma hl_all_seq {A B} (f : nat → hl B) (h : A → B) (l : list A) (j : nat) :
  (∀ i x, l !! i = Some x → f (j + i)%nat = Val (h x)) →
  hl_all (f <$> seq j (length l)) = Val (h <$> l).
Proof.
  revert j. induction l as [|x l IH]; intros j Hf; [done|].
  cbn [length seq]. rewrite !fmap_cons. cbn [hl_all].
  rewrite <- (Nat.add_0_r j) at 1. rewrite (Hf 0%nat x) by done.
  rewrite (IH (S j)); [done|]. intros i y Hy.
  replace (S j + i)%nat with (j + S i)%nat by lia. by apply Hf.
Qed.


(** The statistics of group [i] are those of the cells of the samples its
    predicate selects, at the entries that pass "adj". *)
Lemma adj_group_stats_group `{Engine} sgf mt row i g :
  sgf !! i = Some g →
  adj_group_stats (select_cols sgf <$> cols mt) row i
  = Val (call_stats (group_genotypes mt row (adj_group g).2)
           (length (Row.alleles row))).
Proof.
  intros Hg. unfold adj_group_stats. rewrite cells_select.
  rewrite (filter_hl_pure _
    (λ ce, keeps (default None (SampleRow.group_membership ce.1 !! i)
                  &&& adj ce.2)%hl)); last first.
  { intros ce Hce. apply list_elem_of_fmap in Hce as ([c e] & -> & _).
    cbn [fst snd select_cols SampleRow.group_membership].
    unfold array_index. rewrite list_lookup_fmap, Hg. by eexists. }
  cbn [mbind hl_bind]. f_equal. unfold agg_call_stats, group_genotypes.
  f_equal. rewrite filter_fmap_bool, <- list_fmap_compose.
  f_equal. apply filter_ext. intros [c e].
  cbn [fst snd select_cols SampleRow.group_membership adj_group].
  rewrite list_lookup_fmap, Hg. apply keeps_and_true.
Qed.

Lemma raw_stats_group `{Engine} sgf mt row :
  agg_call_stats row (cells (select_cols sgf <$> cols mt) row)
  = call_stats (group_genotypes mt row raw_group.2)
      (length (Row.alleles row)).
Proof.
  unfold agg_call_stats, group_genotypes. rewrite cells_select.
  rewrite <- list_fmap_compose. simpl. by rewrite filter_bool_true.
Qed.

(** The [freq] of a row: the alternate allele's statistics of every
    group, in the order of the groups. *)
Lemma get_freq_expressions_groups `{Engine} sgf mt row :
  get_freq_expressions (select_cols sgf <$> cols mt) row (length sgf)
  = hl_all ((λ g : FreqGroup,
               alt_stats (call_stats (group_genotypes mt row g.2)
                            (length (Row.alleles row))))
              <$> indexed_groups sgf).
Proof.
  unfold get_freq_expressions.
  rewrite (hl_all_seq _
    (λ g, call_stats (group_genotypes mt row (adj_group g).2)
            (length (Row.alleles row)))); last first.
  { intros i g Hg. by apply adj_group_stats_group. }
  cbn [mbind hl_bind]. f_equal. rewrite raw_stats_group.
  unfold indexed_groups, py_insert.
  rewrite !fmap_app, !fmap_cons, !fmap_take, !fmap_drop.
  rewrite <- !list_fmap_compose. by rewrite <- app_assoc.
Qed.

Lemma get_meta_expressions_groups sgf :
  get_meta_expressions sgf = (indexed_groups sgf).*1.
Proof.
  unfold get_meta_expressions, indexed_groups, py_insert.
  rewrite !fmap_app, !fmap_cons, !fmap_take, !fmap_drop.
  by rewrite <- !list_fmap_compose.
Qed.

Lemma sample_groups_head `{Engine} fl mt :
  ∃ rest, sample_groups fl mt = global_filter :: rest.
Proof.
  unfold sample_groups, build_sample_group_filters.
  destruct (calculate_by_platform fl), (calculate_downsampling fl);
    by eexists.
Qed.


(** The age histograms of a row are those of the carriers' ages. *)
Lemma age_hist_carriers `{Engine} sel sgf mt row :
  age_hist sel (select_cols sgf <$> cols mt) row
  = hist (carrier_ages mt row sel) (Qc_of_Z 30) (Qc_of_Z 80) 10.
Proof.
  unfold age_hist, carrier_ages. f_equal. rewrite cells_select.
  rewrite filter_fmap_bool, <- list_fmap_compose. simpl.
  rewrite (bool_filter_decide _ (λ ce : Col.t * Entry, carries sel ce.2));
    [done|].
  intros [c e]. simpl. rewrite keeps_and_true, bool_decide_eq_true. done.
Qed.

(** ** The aggregated populations, sexes and sub-populations *)

Lemma cut_pops_perm `{Engine} by_platform mt :
  (CutData.pop (aggregate_cut_data by_platform mt)).*1 ≡ₚ populations_of mt.
Proof.
  cbn [aggregate_cut_data CutData.pop]. unfold agg_counter.
  by rewrite sorted_by_key_perm, Counter_keys.
Qed.

#[global] Instance key_le_total {A} (key : A → string) :
  Total (λ x y, String.le (key x) (key y)).
Proof. intros x y. apply (total String.le). Qed.

Lemma sorted_by_key_sorted {A} (key : A → string) (l : list A) :
  Sorted String.le (key <$> sorted_by_key key l).
Proof.
  apply (Sorted_fmap key (λ x y, String.le (key x) (key y))); [done|].
  apply (Sorted_merge_sort _).
Qed.

Lemma cut_pops_sorted `{Engine} by_platform mt :
  Sorted String.le (CutData.pop (aggregate_cut_data by_platform mt)).*1.
Proof. apply sorted_by_key_sorted. Qed.

Lemma cut_sexes_perm `{Engine} by_platform mt :
  CutData.sex (aggregate_cut_data by_platform mt) ≡ₚ sexes_of mt.
Proof. apply set_order_perm. Qed.

Lemma cut_subpops_perm `{Engine} by_platform mt :
  CutData.subpop (aggregate_cut_data by_platform mt) ≡ₚ subpops_of mt.
Proof. apply set_order_perm. Qed.

Lemma cut_platforms_perm `{Engine} mt :
  CutData.platform (aggregate_cut_data true mt) ≡ₚ platforms_of mt.
Proof. apply set_order_perm. Qed.

Lemma elem_of_foldl_discard (pops : gset string) (removed : list string) x :
  x ∈ foldl (λ pops y, pops ∖ {[y]}) pops removed ↔ x ∈ pops ∧ x ∉ removed.
Proof.
  revert pops. induction removed as [|y l IH]; intros pops; simpl.
  - split; [intros ?; split; [done | apply not_elem_of_nil] | tauto].
  - rewrite IH, elem_of_difference, elem_of_singleton, not_elem_of_cons.
    tauto.
Qed.

Lemma elem_of_cut_pops `{Engine} by_platform mt (x : string) :
  x ∈ (list_to_set (CutData.pop (aggregate_cut_data by_platform mt)).*1
         : gset string)
  ↔ x ∈ populations_of mt.
Proof.
  by rewrite elem_of_list_to_set, cut_pops_perm.
Qed.

(** The set of line 253 is empty exactly when no population is left. *)
Lemma cut_pops_left `{Engine} by_platform mt removed :
  foldl (λ pops x, pops ∖ {[x]})
    (list_to_set (CutData.pop (aggregate_cut_data by_platform mt)).*1
       : gset string) removed ≠ ∅
  ↔ populations_left mt removed.
Proof.
  split.
  - intros Hne. apply set_choose_L in Hne as [pop Hpop].
    apply elem_of_foldl_discard in Hpop as [Hpop Hout].
    apply elem_of_cut_pops in Hpop. by exists pop.
  - intros (pop & Hpop & Hout) Hempty.
    apply (not_elem_of_empty (C := gset string) pop). rewrite <- Hempty.
    apply elem_of_foldl_discard. split; [|done]. by apply elem_of_cut_pops.
Qed.

(** ** The tables of a call that returns *)

Lemma example_populations_left (removed : list string) :
  "nfe" ∉ removed → populations_left example_mt removed.
Proof.
  intros Hout. exists "nfe". split; [|done].
  refine (bool_decide_unpack _ _). vm_compute. exact I.
Qed.

(** What a call without downsampling returns, given a list that leaves a
    population. *)
Lemma generate_frequency_data_tables `{Engine} mt fl removed :
  calculate_downsampling fl = false →
  populations_left mt removed →
  generate_frequency_data mt fl (Some removed)
  = let sgf := sample_groups fl mt in
    let sample_cols := select_cols sgf <$> cols mt in
    let metas := get_meta_expressions sgf in
    let pops : gset string :=
      foldl (λ pops x, pops ∖ {[x]})
        (list_to_set
           (CutData.pop
              (aggregate_cut_data (calculate_by_platform fl) mt)).*1)
        removed in
    let freq row := get_freq_expressions sample_cols row (length sgf) in
    let global_expression :=
      {| freq_meta := metas; downsamplings := None |} in
    Return
      ({| globals := global_expression;
          table_rows :=
            annotate_row fl sample_cols freq
              (λ row, f ← freq row; popmax_row f metas pops)
              (if calculate_faf fl
               then Some (λ row, f ← freq row;
                                 Val (faf_row f metas (Row.locus row) pops))
               else None)
              <$> rows mt |},
       {| globals := global_expression;
          table_rows := sorted_by_key SampleRow.s sample_cols |}).
Proof.
  intros Hd Hleft. rewrite generate_frequency_data_no_downsampling by done.
  apply (cut_pops_left (calculate_by_platform fl)) in Hleft.
  unfold generate_frequency_data_from, sample_groups. rewrite Hd.
  cbn [mbind py_bind py_iter]. cbv zeta.
  rewrite popmax_expr_returns by done. cbn [mbind py_bind].
  destruct (calculate_faf fl); [|done].
  rewrite faf_expr_returns by done. done.
Qed.

(** With no population left the literal of line 34, reached from line
    253, cannot be built. *)
Lemma generate_frequency_data_no_population `{Engine} mt fl removed :
  calculate_downsampling fl = false →
  ¬ populations_left mt removed →
  generate_frequency_data mt fl (Some removed) = Raise ExpressionException.
Proof.
  intros Hd Hnone. rewrite generate_frequency_data_no_downsampling by done.
  unfold generate_frequency_data_from. cbn [mbind py_bind py_iter]. cbv zeta.
  assert (Hempty :
    foldl (λ pops x, pops ∖ {[x]})
      (list_to_set
         (CutData.pop (aggregate_cut_data (calculate_by_platform fl) mt)).*1
         : gset string) removed = ∅).
  { destruct (decide (foldl (λ pops x, pops ∖ {[x]})
      (list_to_set
         (CutData.pop (aggregate_cut_data (calculate_by_platform fl) mt)).*1
         : gset string) removed = ∅)) as [E|Hne]; [done|].
    by apply cut_pops_left in Hne. }
  rewrite Hempty. done.
Qed.

Lemma get_meta_expressions_cons g rest :
  get_meta_expressions (g :: rest)
  = <["group" := "adj"]> g.1 :: {[ "group" := "raw" ]}
      :: ((λ x : SampleGroupFilter, <["group" := "adj"]> x.1) <$> rest).
Proof. done. Qed.


(** ** The samples of a group *)

Lemma hl_eq_true {A} `{EqDecision A} (a : option A) (y : A) :
  hl_eq a (Some y) = Some true ↔ a = Some y.
Proof.
  destruct a as [x|]; simpl; [|done].
  case_bool_decide; split; congruence.
Qed.

Lemma hl_and_true a b :
  (a &&& b)%hl = Some true ↔ a = Some true ∧ b = Some true.
Proof. destruct a as [[]|], b as [[]|]; simpl; split; try done; by intros []. Qed.

Lemma selected_by_adj_label meta c :
  selected_by (<["group" := "adj"]> meta) c ↔ selected_by meta c.
Proof.
  unfold selected_by, key_matches. by rewrite !lookup_insert_ne by done.
Qed.

Lemma pretty_platform (platform : Z) (value : option Z) :
  pretty <$> value = Some (pretty platform) ↔ value = Some platform.
Proof.
  destruct value as [v|]; simpl; [|done]. split.
  - intros [= E]. by apply (inj pretty) in E as ->.
  - by intros [= ->].
Qed.

Ltac selected_by_label :=
  unfold selected_by, key_matches; label_lookup;
  rewrite ?hl_and_true, ?hl_eq_true, ?pretty_platform.

(** The predicate of a sample-group filter of a call without downsampling
    holds of the samples that its label selects. *)
Lemma sample_group_selected `{Engine} fl mt g c :
  calculate_downsampling fl = false →
  g ∈ sample_groups fl mt →
  g.2 c = Some true ↔ selected_by g.1 c.
Proof.
  intros Hd. unfold sample_groups, build_sample_group_filters. rewrite Hd.
  set (cut := aggregate_cut_data (calculate_by_platform fl) mt).
  intros Hg.
  assert (Hfam :
    g = global_filter
    ∨ (∃ pop, g = ({[ "pop" := pop ]},
                   λ c : Col.t, hl_eq (Meta.pop (Col.meta c)) (Some pop)))
    ∨ (∃ sex, g = ({[ "sex" := sex ]},
                   λ c : Col.t, hl_eq (Meta.sex (Col.meta c)) (Some sex)))
    ∨ (∃ sex pop,
         g = ({[ "pop" := pop; "sex" := sex ]},
              λ c : Col.t,
                (hl_eq (Meta.sex (Col.meta c)) (Some sex)
                 &&& hl_eq (Meta.pop (Col.meta c)) (Some pop))%hl))
    ∨ (∃ subpop : string * string,
         g = ({[ "subpop" := subpop.1; "pop" := subpop.2 ]},
              λ c : Col.t, hl_eq (Meta.subpop (Col.meta c)) (Some subpop.1)))
    ∨ (∃ platform : Z,
         g = ({[ "platform" := pretty platform ]},
              λ c : Col.t,
                hl_eq (Meta.qc_platform (Col.meta c)) (Some platform)))).
  { assert (Hbase : ∀ platforms : list SampleGroupFilter,
      g ∈ ([(∅, λ _, Some true)]
           ++ (((λ pop,
                   ({[ "pop" := pop ]} : gmap string string,
                    λ c : Col.t, hl_eq (Meta.pop (Col.meta c)) (Some pop)))
                  <$> (CutData.pop cut).*1)
               ++ ((λ sex,
                      ({[ "sex" := sex ]} : gmap string string,
                       λ c : Col.t,
                         hl_eq (Meta.sex (Col.meta c)) (Some sex)))
                     <$> CutData.sex cut)
               ++ (sex ← CutData.sex cut;
                   pop ← (CutData.pop cut).*1;
                   [({[ "pop" := pop; "sex" := sex ]} : gmap string string,
                     λ c : Col.t,
                       (hl_eq (Meta.sex (Col.meta c)) (Some sex)
                        &&& hl_eq (Meta.pop (Col.meta c)) (Some pop))%hl)])
               ++ ((λ subpop : string * string,
                      ({[ "subpop" := subpop.1; "pop" := subpop.2 ]}
                         : gmap string string,
                       λ c : Col.t,
                         hl_eq (Meta.subpop (Col.meta c)) (Some subpop.1)))
                     <$> CutData.subpop cut))) ++ platforms →
      g ∈ platforms
      ∨ g = global_filter
      ∨ (∃ pop, g = ({[ "pop" := pop ]},
                     λ c : Col.t, hl_eq (Meta.pop (Col.meta c)) (Some pop)))
      ∨ (∃ sex, g = ({[ "sex" := sex ]},
                     λ c : Col.t, hl_eq (Meta.sex (Col.meta c)) (Some sex)))
      ∨ (∃ sex pop,
           g = ({[ "pop" := pop; "sex" := sex ]},
                λ c : Col.t,
                  (hl_eq (Meta.sex (Col.meta c)) (Some sex)
                   &&& hl_eq (Meta.pop (Col.meta c)) (Some pop))%hl))
      ∨ (∃ subpop : string * string,
           g = ({[ "subpop" := subpop.1; "pop" := subpop.2 ]},
                λ c : Col.t,
                  hl_eq (Meta.subpop (Col.meta c)) (Some subpop.1)))).
    { intros platforms. rewrite !elem_of_app, list_elem_of_singleton.
      rewrite !list_elem_of_fmap, list_elem_of_bind.
      intros [[Hglobal|[Hpop|[Hsex|[Hboth|Hsub]]]]|Hplat].
      - right. by left.
      - right. right. left. destruct Hpop as (pop & -> & _). by exists pop.
      - right. right. right. left. destruct Hsex as (sex & -> & _).
        by exists sex.
      - right. right. right. right. left. destruct Hboth as (sex & Hin & _).
        apply list_elem_of_bind in Hin as (pop & Hin & _).
        apply list_elem_of_singleton in Hin as ->. by exists sex, pop.
      - right. right. right. right. right.
        destruct Hsub as (subpop & -> & _). by exists subpop.
      - by left. }
    destruct (calculate_by_platform fl).
    - apply Hbase in Hg as [Hplat|Hg]; [|tauto].
      apply list_elem_of_fmap in Hplat as (platform & -> & _).
      do 5 right. by exists platform.
    - rewrite <- (app_nil_r (_ ++ _)) in Hg.
      apply Hbase in Hg as [Hplat|Hg]; [by apply elem_of_nil in Hplat | tauto]. }
  destruct Hfam
    as [->|[[pop ->]|[[sex ->]|[(sex & pop & ->)|[[subpop ->]|[pl ->]]]]]];
    cbn [fst snd global_filter]; selected_by_label.
  - split; [|done]. intros _. split; [by right | done].
  - split.
    + intros Hpop. split; [by right | done].
    + intros [[[x Hx]|Hpop] _]; done.
  - tauto.
  - split.
    + intros [Hsex Hpop]. split; [by right | done].
    + intros [[[x Hx]|Hpop] [Hsex _]]; done.
  - split.
    + intros Hsub. split; [left; by eexists | done].
    + by intros (_ & _ & Hsub & _).
  - split.
    + intros Hpl. split; [by right | done].
    + by intros (_ & _ & _ & Hpl).
Qed.








(** C9.  With [calculate_age_hists], in the tables of a call that
    returns, every row of the variant table carries the two histograms,
    each [hl.agg.hist] over 30 to 80 in 10 bins: one of the ages of the
    samples whose entry passes "adj" and is heterozygous, one of those
    whose entry passes "adj" and is homozygous for an alternate
    allele. *)
Theorem age_histograms `{Engine} (mt : MatrixTable) (fl : Flags)
    (removed : list string) :
  calculate_downsampling fl = false →
  populations_left mt removed →
  calculate_age_hists fl = true →
  ∃ variants samples,
    generate_frequency_data mt fl (Some removed) = Return (variants, samples)
    ∧ length (table_rows variants) = length (rows mt)
    ∧ ∀ k row, rows mt !! k = Some row →
        ∃ vrow,
          table_rows variants !! k = Some vrow
          ∧ VariantRow.age_hist_het vrow
            = Some (hist (carrier_ages mt row is_het)
                      (Qc_of_Z 30) (Qc_of_Z 80) 10)
          ∧ VariantRow.age_hist_hom vrow
            = Some (hist (carrier_ages mt row is_hom_var)
                      (Qc_of_Z 30) (Qc_of_Z 80) 10).
Proof.
  intros Hd Hleft Hage. rewrite generate_frequency_data_tables by done.
  eexists _, _. split; [reflexivity|]. cbn zeta. cbn [table_rows].
  split; [by rewrite length_fmap|].
  intros k row Hk. eexists. split; [by rewrite list_lookup_fmap, Hk|].
  cbn [annotate_row VariantRow.age_hist_het VariantRow.age_hist_hom].
  by rewrite Hage, !age_hist_carriers.
Qed.

Lemma age_histograms_example :
  (calculate_downsampling default_flags = false
   ∧ populations_left example_mt []
   ∧ calculate_age_hists default_flags = true)
  ∧ ∃ variants samples,
      generate_frequency_data example_mt default_flags (Some [])
      = Return (variants, samples)
      ∧ length (table_rows variants) = 1%nat.
Proof.
  assert (Hleft : populations_left example_mt []).
  { apply example_populations_left, not_elem_of_nil. }
  split; [by repeat split|].
  destruct (age_histograms example_mt default_flags [] eq_refl Hleft eq_refl)
    as (variants & samples & Hret & Hlen & _).
  by exists variants, samples.
Defined.

(** ** The small matrix table, evaluated *)

(** Without a population among the samples the loop never binds
    [global_ht]. *)
Lemma generate_downsamplings_cumulative_unbound `{Engine} mt requested :
  populations_of mt = [] →
  _generate_downsamplings_cumulative mt requested
  = Raise (UnboundLocalError "global_ht").
Proof.
  intros Hpops. unfold _generate_downsamplings_cumulative.
  rewrite pop_data_returns. cbn [mbind py_bind]. cbv zeta.
  rewrite Counter_keys. fold (populations_of mt). by rewrite Hpops.
Qed.

Example example_thresholds :
  snd <$> match _generate_downsamplings_cumulative example_mt [1; 2; 10] with
          | Return out => Some out
          | Raise _ => None
          end
  = Some [1; 2].
Proof. vm_compute. reflexivity. Qed.

Example example_indices :
  (λ out : MatrixTable * list Z,
     (λ c, (Col.s c,
            (λ d, (Downsampling.global_idx d, Downsampling.pop_idx d))
              <$> Col.downsampling c)) <$> cols out.1)
    <$> match _generate_downsamplings_cumulative example_mt [1; 2; 10] with
        | Return out => Some out
        | Raise _ => None
        end
  = Some [("s1", Some (0, 0)); ("s2", Some (2, 0)); ("s3", Some (1, 1))].
Proof. vm_compute. reflexivity. Qed.

Example example_freq_meta :
  (λ out : Table VariantRow.t * Table SampleRow.t,
     map_to_list <$> take 4 (freq_meta (globals out.1)))
    <$> match generate_frequency_data example_mt default_flags (Some []) with
        | Return out => Some out
        | Raise _ => None
        end
  = Some [[("group", "adj")]; [("group", "raw")];
          [("group", "adj"); ("pop", "afr")];
          [("group", "adj"); ("pop", "nfe")]].
Proof. vm_compute. reflexivity. Qed.

Example example_freq_counts :
  (λ out : Table VariantRow.t * Table SampleRow.t,
     (λ row, match VariantRow.freq row with
             | Val fs => Some ((λ f, (Freq.AC f, Freq.AN f)) <$> take 4 fs)
             | Fatal _ => None
             end) <$> table_rows out.1)
    <$> match generate_frequency_data example_mt default_flags (Some []) with
        | Return out => Some out
        | Raise _ => None
        end
  = Some [Some [(3, 4); (3, 6); (1, 2); (2, 2)]].
Proof. vm_compute. reflexivity. Qed.

Example example_popmax :
  (λ out : Table VariantRow.t * Table SampleRow.t,
     (λ row, match VariantRow.popmax row with
             | Val p => (λ p, (Popmax.pop p, Popmax.AC p, Popmax.AN p)) <$> p
             | Fatal _ => None
             end) <$> table_rows out.1)
    <$> match generate_frequency_data example_mt default_flags (Some ["afr"])
        with
        | Return out => Some out
        | Raise _ => None
        end
  = Some [Some ("nfe", 2, 2)].
Proof. vm_compute. reflexivity. Qed.

Example example_group_membership :
  (λ out : Table VariantRow.t * Table SampleRow.t,
     (λ c, (SampleRow.s c, take 4 (SampleRow.group_membership c)))
       <$> table_rows out.2)
    <$> match generate_frequency_data example_mt default_flags (Some []) with
        | Return out => Some out
        | Raise _ => None
        end
  = Some [("s1", [Some true; Some true; Some false; Some false]);
          ("s2", [Some true; Some false; Some true; Some true]);
          ("s3", [Some true; Some true; Some false; Some true])].
Proof. vm_compute. reflexivity. Qed.

(** At a row with a single allele the engine fails when [freq] is
    evaluated: the failure sits in the field of the returned table. *)
Example example_single_allele :
  get_freq_expressions
    (select_cols (sample_groups default_flags example_mt)
       <$> cols example_mt)
    {| Row.locus := {| contig := "1"; position := 7 |};
       Row.alleles := ["A"];
       Row.entries := [] |}
    (length (sample_groups default_flags example_mt))
  = Fatal "array index out of bounds".
Proof. vm_compute. reflexivity. Qed.

(** * Further properties *)

(** ** The downsamplings *)

(** X1.  [_generate_downsamplings_cumulative] returns exactly when a
    sample has a population.  When none has (an empty matrix table
    included) the loop over the populations runs no iteration and the
    read of [global_ht] at line 20 raises UnboundLocalError. *)
Theorem downsamplings_need_a_population `{Engine} (mt : MatrixTable)
    (requested : list Z) :
  (Forall (λ c, col_pop c = None) (cols mt) →
   _generate_downsamplings_cumulative mt requested
   = Raise (UnboundLocalError "global_ht"))
  ∧ (Exists (λ c, is_Some (col_pop c)) (cols mt) →
     ∃ mt' thresholds,
       _generate_downsamplings_cumulative mt requested
       = Return (mt', thresholds)).
Proof.
  split.
  - intros Hnone. apply generate_downsamplings_cumulative_unbound.
    unfold populations_of.
    assert (E : omap col_pop (cols mt) = []); [|by rewrite E].
    induction Hnone as [|c l Hc _ IH]; [done|]. by rewrite omap_cons, Hc.
  - intros Hsome.
    rewrite generate_downsamplings_cumulative_returns; [by eexists _, _|].
    apply Exists_exists in Hsome as (c & Hc & [pop Hpop]).
    intros Hnil. fold (populations_of mt) in Hnil.
    assert (Hin : pop ∈ populations_of mt).
    { apply elem_of_distinct, list_elem_of_omap. by exists c. }
    rewrite Hnil in Hin. by apply not_elem_of_nil in Hin.
Qed.

Lemma bool_filter_all {A} (b : A → bool) (l : list A) :
  (∀ x, x ∈ l → b x = true) → List.filter b l = l.
Proof.
  induction l as [|x l IH]; intros Hb; [done|]. simpl.
  rewrite (Hb x) by left. f_equal. apply IH. intros y Hy. apply Hb. by right.
Qed.

Lemma py_sorted_sorted l : py_sorted (py_sorted l) = py_sorted l.
Proof.
  unfold py_sorted. apply (Sorted_unique Z.le).
  - apply Sorted_merge_sort; apply _.
  - apply Sorted_merge_sort; apply _.
  - apply merge_sort_Permutation.
Qed.

Lemma second_pass_idle (b : Z → bool) (l : list Z) :
  py_sorted (List.filter b (py_sorted (List.filter b l)))
  = py_sorted (List.filter b l).
Proof.
  rewrite (bool_filter_all b (py_sorted _)); [apply py_sorted_sorted|].
  intros x Hx. apply elem_of_py_sorted, elem_of_bool_filter in Hx. tauto.
Qed.

(** X2.  The filter and sort of line 9 repeat those of line 8 and change
    nothing: the thresholds returned are those of a single pass. *)
Theorem second_pass_changes_nothing `{Engine} (mt : MatrixTable)
    (requested : list Z) :
  populations_of mt ≠ [] →
  ∃ mt',
    _generate_downsamplings_cumulative mt requested
    = Return (mt', thresholds_of mt requested).
Proof.
  intros Hpops. rewrite generate_downsamplings_cumulative_returns by done.
  cbv zeta. eexists. do 2 f_equal. apply second_pass_idle.
Qed.

Lemma second_pass_changes_nothing_example :
  populations_of example_mt ≠ []
  ∧ ∃ mt',
      _generate_downsamplings_cumulative example_mt [1; 2; 10]
      = Return (mt', thresholds_of example_mt [1; 2; 10]).
Proof.
  assert (Hpops : populations_of example_mt ≠ []) by (vm_compute; discriminate).
  split; [done|].
  exact (second_pass_changes_nothing example_mt [1; 2; 10] Hpops).
Defined.

(** The counts of the distinct elements add up to the length. *)
Lemma sum_Z_split {A} `{EqDecision A} (g : A → Z) (x : A) (D : list A) :
  NoDup D →
  sum_Z (g <$> D)
  = sum_Z (g <$> filter (λ y, y ≠ x) D) + (if decide (x ∈ D) then g x else 0).
Proof.
  induction 1 as [|y D Hy Hnd IH]; [done|].
  rewrite fmap_cons, filter_cons. cbn [sum_Z foldr]. fold (sum_Z (g <$> D)).
  rewrite IH. destruct (decide (y ≠ x)) as [Hne|Heq].
  - rewrite fmap_cons. cbn [sum_Z foldr].
    fold (sum_Z (g <$> filter (λ y, y ≠ x) D)).
    destruct (decide (x ∈ D)) as [Hin|Hout].
    + rewrite decide_True by (by right). lia.
    + rewrite decide_False; [lia|]. intros [->|?]%elem_of_cons; done.
  - apply dec_stable in Heq as ->.
    rewrite (decide_False (P := x ∈ D)) by done.
    rewrite decide_True by left. lia.
Qed.

Lemma occurrences_cons {K} `{EqDecision K} (k x : K) (l : list K) :
  occurrences k (x :: l)
  = (if decide (x = k) then 1 else 0) + occurrences k l.
Proof.
  unfold occurrences. rewrite filter_cons.
  destruct (decide (x = k)); simpl; lia.
Qed.

Lemma occurrences_absent {K} `{EqDecision K} (k : K) (l : list K) :
  k ∉ l → occurrences k l = 0.
Proof.
  intros Hk. unfold occurrences.
  destruct (filter (λ x, x = k) l) as [|y l'] eqn:E; [done|].
  assert (Hy : y ∈ filter (λ x, x = k) l) by (rewrite E; left).
  apply list_elem_of_filter in Hy as [-> Hy]. done.
Qed.

Lemma occurrences_le {K} `{EqDecision K} (k : K) (l : list K) :
  0 ≤ occurrences k l ≤ Z.of_nat (length l).
Proof.
  unfold occurrences. pose proof (length_filter (λ x, x = k) l). lia.
Qed.

Lemma sum_occurrences {K} `{EqDecision K} (l : list K) :
  sum_Z ((λ k, occurrences k l) <$> distinct l) = Z.of_nat (length l).
Proof.
  induction l as [|x l IH]; [done|].
  cbn [distinct]. rewrite fmap_cons. cbn [sum_Z foldr].
  rewrite (list_fmap_ext _ (λ k, occurrences k l) (filter _ _)); last first.
  { intros i k Hk. apply list_elem_of_lookup_2, list_elem_of_filter in Hk.
    destruct Hk as [Hne _]. rewrite occurrences_cons.
    by rewrite decide_False by done. }
  fold (sum_Z ((λ k, occurrences k l) <$> filter (λ y, y ≠ x) (distinct l))).
  rewrite (sum_Z_split _ x (distinct l) (NoDup_distinct l)) in IH.
  rewrite occurrences_cons, decide_True by done.
  destruct (decide (x ∈ distinct l)) as [Hin|Hout].
  - rewrite length_cons. lia.
  - rewrite elem_of_distinct in Hout. rewrite (occurrences_absent x l Hout).
    rewrite length_cons. lia.
Qed.

Lemma length_omap_is_Some {A B} (f : A → option B) (l : list A) :
  length (omap f l) = length (filter (λ x, is_Some (f x)) l).
Proof.
  induction l as [|x l IH]; [done|]. rewrite omap_cons, filter_cons.
  destruct (f x) as [y|] eqn:E.
  - rewrite decide_True by done. simpl. by rewrite IH.
  - rewrite decide_False by (by intros [? ?]). done.
Qed.

(** The cap of the thresholds is the number of samples that have a
    population. *)
Lemma total_pop_size_samples mt :
  total_pop_size mt = Z.of_nat (length (with_population mt)).
Proof.
  unfold total_pop_size, with_population, populations_of.
  rewrite <- length_omap_is_Some, <- sum_occurrences. f_equal.
  apply list_fmap_ext. intros i pop _. symmetry. apply populations_pop_size.
Qed.

(** X3.  No threshold returned exceeds the number of samples that have a
    population, and the sample count of every population is among the
    thresholds returned, requested or not. *)
Theorem thresholds_within_samples `{Engine} (mt : MatrixTable)
    (requested : list Z) :
  populations_of mt ≠ [] →
  ∃ mt' thresholds,
    _generate_downsamplings_cumulative mt requested = Return (mt', thresholds)
    ∧ (∀ t, t ∈ thresholds → t ≤ Z.of_nat (length (with_population mt)))
    ∧ (∀ pop, pop ∈ populations_of mt → pop_size mt pop ∈ thresholds).
Proof.
  intros Hpops. rewrite generate_downsamplings_cumulative_returns by done.
  cbv zeta. fold (populations_of mt). eexists _, _. split; [reflexivity|].
  pose proof (total_pop_size_samples mt) as Hsum. split.
  - intros t Ht. apply elem_of_thresholds in Ht as [_ Ht].
    change (py_sum _) with (total_pop_size mt) in Ht. by rewrite <- Hsum.
  - intros pop Hpop. apply elem_of_thresholds. split.
    + right. apply list_elem_of_fmap. by exists pop.
    + change (py_sum _) with (total_pop_size mt). rewrite Hsum.
      unfold with_population.
      rewrite <- length_omap_is_Some, <- populations_pop_size.
      apply occurrences_le.
Qed.

Lemma thresholds_within_samples_example :
  populations_of example_mt ≠ []
  ∧ ∃ mt' thresholds,
      _generate_downsamplings_cumulative example_mt [1; 2; 10]
      = Return (mt', thresholds)
      ∧ ∀ t, t ∈ thresholds → t ≤ Z.of_nat (length (with_population example_mt)).
Proof.
  assert (Hpops : populations_of example_mt ≠ []) by (vm_compute; discriminate).
  split; [done|].
  destruct (thresholds_within_samples example_mt [1; 2; 10] Hpops)
    as (mt' & thresholds & Hret & Hle & _).
  by exists mt', thresholds.
Defined.

(** ** The size of the downsampling groups *)

Lemma fmap_imap_pointwise {A B} (g : A → B) (h : nat → A → B) (l : list A) :
  (∀ i x, l !! i = Some x → g x = h i x) → g <$> l = imap h l.
Proof.
  intros Hgh. apply list_eq. intros i.
  rewrite list_lookup_fmap, list_lookup_imap.
  destruct (l !! i) as [x|] eqn:E; [|done]. simpl. by rewrite (Hgh i x E).
Qed.

Lemma length_bool_filter_perm {A} (b : A → bool) (l l' : list A) :
  l ≡ₚ l' → length (List.filter b l) = length (List.filter b l').
Proof.
  intros Hp. rewrite !(bool_filter_decide b (λ x, b x = true)) by done.
  by rewrite Hp.
Qed.

(** Counting the positions of a list that satisfy [P] with fewer than
    [n] earlier ones that do: there are [n] of them, or all. *)
Lemma count_ranked {A B} (P : A → Prop) `{∀ x, Decision (P x)}
    (b : B → bool) (h : nat → A → B) (n : nat) (full pre l : list A) :
  full = pre ++ l →
  (∀ j x, full !! j = Some x →
     b (h j x) = true ↔ P x ∧ (length (filter P (take j full)) < n)%nat) →
  length (List.filter b (imap (λ i, h (length pre + i)%nat) l))
  = ((n - length (filter P pre)) `min` length (filter P l))%nat.
Proof.
  intros Hfull Hb. revert pre Hfull.
  induction l as [|x l IH]; intros pre Hfull; [simpl; lia|].
  rewrite imap_cons. cbn [List.filter].
  rewrite (imap_ext _ (λ i, h (length (pre ++ [x]) + i)%nat)); last first.
  { intros i y _. simpl. rewrite length_app. simpl. f_equal. lia. }
  pose proof (IH (pre ++ [x]) ltac:(by rewrite <- app_assoc)) as IH'.
  rewrite filter_app, (length_app (filter P pre)) in IH'.
  rewrite (filter_cons P x []), filter_nil in IH'.
  rewrite (filter_cons P x l).
  assert (Hx : full !! (length pre + 0)%nat = Some x).
  { rewrite Hfull, Nat.add_0_r. by apply list_lookup_middle. }
  assert (Htake : take (length pre + 0) full = pre).
  { rewrite Hfull, Nat.add_0_r. by rewrite take_app_length. }
  pose proof (Hb _ _ Hx) as Hbx. rewrite Htake in Hbx.
  destruct (decide (P x)) as [HP|HP];
    destruct (b (h (length pre + 0)%nat x)) eqn:E;
    cbn [length]; rewrite IH'; cbn [length].
  - destruct (proj1 Hbx eq_refl) as [_ Hlt]. lia.
  - assert (¬ (length (filter P pre) < n)%nat); [|lia].
    intros Hlt. by pose proof (proj2 Hbx (conj HP Hlt)).
  - by destruct (proj1 Hbx eq_refl) as [? _].
  - lia.
Qed.

(** Counting the positions below [n] of a list that satisfy [P]. *)
Lemma count_first {A B} (P : A → Prop) `{∀ x, Decision (P x)}
    (b : B → bool) (h : nat → A → B) (n : nat) (l : list A) (k : nat) :
  (∀ i x, l !! i = Some x → b (h (k + i)%nat x) = true ↔ P x ∧ (k + i < n)%nat) →
  length (List.filter b (imap (λ i, h (k + i)%nat) l))
  = length (filter P (take (n - k)%nat l)).
Proof.
  revert k. induction l as [|x l IH]; intros k Hb.
  - by rewrite take_nil.
  - rewrite imap_cons. cbn [List.filter].
    rewrite (imap_ext _ (λ i, h (S k + i)%nat)); last first.
    { intros i y _. simpl. f_equal. lia. }
    assert (IH' : length (List.filter b (imap (λ i, h (S k + i)%nat) l))
                  = length (filter P (take (n - S k)%nat l))).
    { apply IH. intros i y Hy. replace (S k + i)%nat with (k + S i)%nat by lia.
      by apply Hb. }
    pose proof (Hb 0%nat x eq_refl) as Hbx.
    destruct (decide (k < n)%nat) as [Hk|Hk].
    + replace (n - k)%nat with (S (n - S k))%nat by lia.
      rewrite firstn_cons, filter_cons.
      destruct (decide (P x)) as [HP|HP].
      * rewrite (proj2 Hbx) by (split; [done | lia]). cbn [length].
        by rewrite IH'.
      * destruct (b (h (k + 0)%nat x)) eqn:E; [|done].
        by destruct (proj1 Hbx eq_refl) as [? _].
    + replace (n - k)%nat with 0%nat by lia.
      replace (n - S k)%nat with 0%nat in IH' by lia. rewrite take_0 in *.
      destruct (b (h (k + 0)%nat x)) eqn:E; [|done].
      destruct (proj1 Hbx eq_refl) as [_ ?]. lia.
Qed.

Section joined.
Context `{Engine}.
Variable mt : MatrixTable.
Hypothesis ids : NoDup (Col.s <$> cols mt).

Let order : list (Col.t * Qc) :=
  hl_sorted snd false (imap (λ i c, (c, rand_unif i)) (cols mt)).
Let joined : list Col.t :=
  (λ c, {| Col.s := Col.s c; Col.meta := Col.meta c;
           Col.downsampling :=
             global_ht_lookup
               (distinct (omap col_pop (cols mt)) ≫= pop_ht (add_index order))
               (Col.s c) |}) <$> cols mt.

(** The columns returned are, up to their order, the samples of the
    random order with the struct of their position. *)
Lemma joined_cols_order : joined ≡ₚ imap (joined_col order) order.
Proof.
  unfold joined.
  rewrite <- (fmap_imap_pointwise
    (λ x : Col.t * Qc,
       {| Col.s := Col.s x.1; Col.meta := Col.meta x.1;
          Col.downsampling :=
            global_ht_lookup
              (distinct (omap col_pop (cols mt)) ≫= pop_ht (add_index order))
              (Col.s x.1) |})); last first.
  { intros i x Hx. unfold joined_col. f_equal.
    by apply (global_ht_lookup_order mt ids). }
  unfold order at 3. rewrite hl_sorted_perm.
  rewrite <- (fst_imap_pair (λ i _, rand_unif i) (cols mt)) at 1.
  by rewrite <- list_fmap_compose.
Qed.

Lemma order_pop_size pop :
  length (filter (λ x : Col.t * Qc, col_pop x.1 = Some pop) order)
  = Z.to_nat (pop_size mt pop).
Proof.
  unfold pop_size. rewrite Nat2Z.id.
  transitivity (length (filter (λ c, col_pop c = Some pop) order.*1));
    [|unfold order; by rewrite (order_cols mt)].
  generalize order. intros l. induction l as [|x l IH]; [done|].
  rewrite fmap_cons, !filter_cons. simpl.
  destruct (decide (col_pop x.1 = Some pop)); simpl; by rewrite IH.
Qed.

Lemma order_with_population :
  length (filter (λ x : Col.t * Qc, is_Some (col_pop x.1)) order)
  = length (with_population mt).
Proof.
  unfold with_population.
  transitivity (length (filter (λ c, is_Some (col_pop c)) order.*1));
    [|unfold order; by rewrite (order_cols mt)].
  generalize order. intros l. induction l as [|x l IH]; [done|].
  rewrite fmap_cons, !filter_cons. simpl.
  destruct (decide (is_Some (col_pop x.1))); simpl; by rewrite IH.
Qed.

(** The members of the downsampling group of a population. *)
Lemma pop_downsampling_members ds pop :
  length
    (List.filter
       (λ c : Col.t,
          keeps (hl_lt (Downsampling.pop_idx <$> Col.downsampling c) (Some ds)
                 &&& hl_eq (Meta.pop (Col.meta c)) (Some pop))%hl)
       joined)
  = (Z.to_nat ds `min` Z.to_nat (pop_size mt pop))%nat.
Proof.
  rewrite (length_bool_filter_perm _ _ _ joined_cols_order).
  rewrite (count_ranked (λ x : Col.t * Qc, col_pop x.1 = Some pop) _
             (joined_col order) (Z.to_nat ds) order [] order eq_refl).
  - rewrite filter_nil, order_pop_size. simpl. lia.
  - intros j x Hx. rewrite keeps_and, andb_true_iff, keeps_eq.
    unfold joined_col, expected_downsampling. cbn [Col.downsampling Col.meta].
    fold (col_pop x.1). unfold earlier_in_pop.
    destruct (col_pop x.1) as [p|]; simpl.
    + case_bool_decide; split.
      * intros [_ [= ->]]. split; [done | lia].
      * intros [[= ->] _]. done.
      * by intros [? _].
      * intros [[= ->] ?]. lia.
    + split; [by intros [? _] | by intros [? _]].
Qed.

(** The members of a global downsampling group. *)
Lemma global_downsampling_members ds :
  length
    (List.filter
       (λ c : Col.t,
          keeps (hl_lt (Downsampling.global_idx <$> Col.downsampling c)
                   (Some ds)))
       joined)
  = length (filter (λ x : Col.t * Qc, is_Some (col_pop x.1))
              (take (Z.to_nat ds) order)).
Proof.
  rewrite (length_bool_filter_perm _ _ _ joined_cols_order).
  rewrite <- (Nat.sub_0_r (Z.to_nat ds)).
  apply (count_first (λ x : Col.t * Qc, is_Some (col_pop x.1)) _
           (joined_col order) (Z.to_nat ds) order 0).
  intros i x Hx. unfold joined_col, expected_downsampling.
  cbn [Col.downsampling]. destruct (col_pop x.1) as [pop|]; simpl.
  - case_bool_decide; split.
    + intros _. split; [done | lia].
    + done.
    + done.
    + intros [_ ?]. lia.
  - split; [done | by intros [[? ?] _]].
Qed.
End joined.

(** X4.  Every downsampling group of a population that is built from the
    columns and thresholds returned (lines 199 to 203) selects exactly as
    many samples as its threshold says, all of that population; none for
    a threshold that is not positive. *)
Theorem pop_downsampling_group_size `{Engine} (mt : MatrixTable)
    (requested : list Z) :
  NoDup (Col.s <$> cols mt) →
  populations_of mt ≠ [] →
  ∃ mt' thresholds,
    _generate_downsamplings_cumulative mt requested = Return (mt', thresholds)
    ∧ ∀ by_platform g,
        g ∈ pop_downsampling_filters thresholds
              (CutData.pop (aggregate_cut_data by_platform mt')) →
        ∃ ds pop,
          g.1 = {[ "downsampling" := pretty ds; "pop" := pop ]}
          ∧ ds ∈ thresholds ∧ ds ≤ pop_size mt pop
          ∧ Z.of_nat (length (group_members mt' g)) = Z.max 0 ds
          ∧ ∀ c, c ∈ group_members mt' g → col_pop c = Some pop.
Proof.
  intros Hids Hpops. rewrite generate_downsamplings_cumulative_returns by done.
  cbv zeta. eexists _, _. split; [reflexivity|]. intros by_platform g Hg.
  unfold pop_downsampling_filters in Hg.
  apply list_elem_of_bind in Hg as (ds & Hg & Hds).
  apply list_elem_of_bind in Hg as ([pop pop_count] & Hg & Hpop).
  apply list_elem_of_singleton in Hg as ->.
  apply elem_of_bool_filter in Hpop as [Hpop Hle].
  apply bool_decide_eq_true in Hle. cbn [snd] in Hle.
  cbn [aggregate_cut_data CutData.pop cols] in Hpop.
  rewrite omap_fmap_list in Hpop. cbn [Col.meta] in Hpop. fold col_pop in Hpop.
  apply elem_of_agg_counter, elem_of_Counter in Hpop as [_ ->]. rewrite populations_pop_size in Hle.
  exists ds, pop. split; [done|]. split; [done|]. split; [done|]. split.
  - unfold group_members. cbn [cols snd].
    rewrite (pop_downsampling_members mt Hids ds pop).
    pose proof (occurrences_le pop (omap col_pop (cols mt))) as Hsz.
    rewrite populations_pop_size in Hsz. lia.
  - intros c Hc. unfold group_members in Hc.
    apply elem_of_bool_filter in Hc as [_ Hc]. cbn [snd] in Hc.
    rewrite keeps_and, andb_true_iff, keeps_eq in Hc. by destruct Hc.
Qed.

Lemma pop_downsampling_group_size_example :
  NoDup (Col.s <$> cols example_mt)
  ∧ populations_of example_mt ≠ []
  ∧ ∃ mt' thresholds,
      _generate_downsamplings_cumulative example_mt [1; 2; 10]
      = Return (mt', thresholds)
      ∧ ∀ g,
          g ∈ pop_downsampling_filters thresholds
                (CutData.pop (aggregate_cut_data false mt')) →
          ∃ ds, Z.of_nat (length (group_members mt' g)) = Z.max 0 ds.
Proof.
  assert (Hids : NoDup (Col.s <$> cols example_mt)).
  { refine (bool_decide_unpack (NoDup _) _). vm_compute. exact I. }
  assert (Hpops : populations_of example_mt ≠ []) by (vm_compute; discriminate).
  split; [done|]. split; [done|].
  destruct (pop_downsampling_group_size example_mt [1; 2; 10] Hids Hpops)
    as (mt' & thresholds & Hret & Hsize).
  exists mt', thresholds. split; [done|]. intros g Hg.
  destruct (Hsize false g Hg) as (ds & pop & _ & _ & _ & Hlen & _).
  by exists ds.
Defined.

(** X5.  A global downsampling group built from the columns and
    thresholds returned (lines 195 to 198) never selects more samples
    than its threshold: a sample without a population has no downsampling
    struct and is in none of them, though it takes a place in the random
    order.  When every sample has a population the group selects exactly
    as many samples as the threshold says. *)
Theorem global_downsampling_group_size `{Engine} (mt : MatrixTable)
    (requested : list Z) :
  NoDup (Col.s <$> cols mt) →
  populations_of mt ≠ [] →
  ∃ mt' thresholds,
    _generate_downsamplings_cumulative mt requested = Return (mt', thresholds)
    ∧ ∀ g, g ∈ global_downsampling_filters thresholds →
        ∃ ds,
          g.1 = {[ "downsampling" := pretty ds; "pop" := "global" ]}
          ∧ ds ∈ thresholds
          ∧ Z.of_nat (length (group_members mt' g)) ≤ Z.max 0 ds
          ∧ (∀ c, c ∈ group_members mt' g → is_Some (col_pop c))
          ∧ (Forall (λ c, is_Some (col_pop c)) (cols mt) →
             Z.of_nat (length (group_members mt' g)) = Z.max 0 ds).
Proof.
  intros Hids Hpops. rewrite generate_downsamplings_cumulative_returns by done.
  cbv zeta. eexists _, _. split; [reflexivity|]. intros g Hg.
  unfold global_downsampling_filters in Hg.
  apply list_elem_of_fmap in Hg as (ds & -> & Hds).
  exists ds. split; [done|]. split; [done|].
  unfold group_members. cbn [cols snd].
  rewrite (global_downsampling_members mt Hids ds).
  pose proof (joined_cols_order mt Hids) as Hperm.
  pose proof (order_cols mt) as Hcols.
  set (order := hl_sorted snd false _) in *.
  pose proof (length_filter (λ x : Col.t * Qc, is_Some (col_pop x.1))
                (take (Z.to_nat ds) order)) as Hle.
  rewrite length_take in Hle. split; [lia|]. split.
  - intros c Hc. apply elem_of_bool_filter in Hc as [Hc Hlt].
    rewrite Hperm in Hc. apply list_elem_of_lookup in Hc as [i Hc].
    rewrite list_lookup_imap in Hc.
    destruct (order !! i) as [x|]; [|done]. injection Hc as <-.
    unfold joined_col, expected_downsampling, col_pop in *.
    cbn [Col.downsampling Col.meta] in *.
    by destruct (Meta.pop (Col.meta x.1)).
  - intros Hall.
    assert (Hlen : length order = length (cols mt)).
    { unfold order. by rewrite hl_sorted_perm, length_imap. }
    assert (Hwith : with_population mt = cols mt).
    { by apply filter_all_id. }
    assert (Hcap : ds ≤ Z.of_nat (length (cols mt))).
    { apply elem_of_thresholds in Hds as [_ Hds].
      change (py_sum _) with (total_pop_size mt) in Hds.
      by rewrite total_pop_size_samples, Hwith in Hds. }
    rewrite filter_all_id; [rewrite length_take; lia|].
    apply Forall_forall. intros x Hx. apply subseteq_take in Hx.
    rewrite Forall_forall in Hall. apply Hall.
    rewrite <- Hcols. by apply list_elem_of_fmap_2.
Qed.

Lemma global_downsampling_group_size_example :
  NoDup (Col.s <$> cols example_mt)
  ∧ populations_of example_mt ≠ []
  ∧ ∃ mt' thresholds,
      _generate_downsamplings_cumulative example_mt [1; 2; 10]
      = Return (mt', thresholds)
      ∧ ∀ g, g ∈ global_downsampling_filters thresholds →
          ∃ ds, Z.of_nat (length (group_members mt' g)) ≤ Z.max 0 ds.
Proof.
  assert (Hids : NoDup (Col.s <$> cols example_mt)).
  { refine (bool_decide_unpack (NoDup _) _). vm_compute. exact I. }
  assert (Hpops : populations_of example_mt ≠ []) by (vm_compute; discriminate).
  split; [done|]. split; [done|].
  destruct (global_downsampling_group_size example_mt [1; 2; 10] Hids Hpops)
    as (mt' & thresholds & Hret & Hsize).
  exists mt', thresholds. split; [done|]. intros g Hg.
  destruct (Hsize g Hg) as (ds & _ & _ & Hlen & _). by exists ds.
Defined.

(** ** Rows that are not bi-allelic *)

Lemma alt_stats_single_allele `{Engine} gts n :
  (n < 2)%nat →
  alt_stats (call_stats gts n) = Fatal "array index out of bounds".
Proof.
  intros Hn. unfold alt_stats.
  rewrite (array_index_ge (CallStats.AC _) 1); [done|].
  rewrite call_stats_AC. lia.
Qed.

Lemma get_freq_expressions_single_allele `{Engine} fl mt row :
  (length (Row.alleles row) < 2)%nat →
  get_freq_expressions (select_cols (sample_groups fl mt) <$> cols mt) row
    (length (sample_groups fl mt))
  = Fatal "array index out of bounds".
Proof.
  intros Hn. rewrite get_freq_expressions_groups.
  destruct (sample_groups_head fl mt) as [rest ->].
  unfold indexed_groups, py_insert. rewrite !fmap_cons. cbn [take drop app].
  rewrite !fmap_cons. cbn [hl_all].
  by rewrite alt_stats_single_allele.
Qed.

(** X6.  At a row with fewer than two alleles the index [1] of the call
    statistics is out of bounds: in the table of a call that returns, the
    row's [freq] is a fatal error of the engine, and so are [popmax] and,
    when computed, [faf], which read [freq]. *)
Theorem single_allele_rows_fail `{Engine} (mt : MatrixTable) (fl : Flags)
    (removed : list string) :
  calculate_downsampling fl = false →
  populations_left mt removed →
  ∃ variants samples,
    generate_frequency_data mt fl (Some removed) = Return (variants, samples)
    ∧ ∀ k row, rows mt !! k = Some row →
        (length (Row.alleles row) < 2)%nat →
        ∃ vrow,
          table_rows variants !! k = Some vrow
          ∧ VariantRow.freq vrow = Fatal "array index out of bounds"
          ∧ VariantRow.popmax vrow = Fatal "array index out of bounds"
          ∧ (calculate_faf fl = true →
             VariantRow.faf vrow = Some (Fatal "array index out of bounds")).
Proof.
  intros Hd Hleft. rewrite generate_frequency_data_tables by done. cbv zeta.
  eexists _, _. split; [reflexivity|]. intros k row Hk Hn. cbn [table_rows].
  eexists. split; [by rewrite list_lookup_fmap, Hk|].
  cbn [annotate_row VariantRow.freq VariantRow.popmax VariantRow.faf].
  rewrite get_freq_expressions_single_allele by done.
  split; [done|]. split; [done|]. intros ->.
  cbn [fmap option_fmap option_map].
  by rewrite get_freq_expressions_single_allele.
Qed.

Lemma single_allele_rows_fail_example :
  (calculate_downsampling default_flags = false
   ∧ populations_left example_mt [])
  ∧ ∃ variants samples,
      generate_frequency_data example_mt default_flags (Some [])
      = Return (variants, samples).
Proof.
  assert (Hleft : populations_left example_mt []).
  { apply example_populations_left, not_elem_of_nil. }
  split; [by split|].
  destruct (single_allele_rows_fail example_mt default_flags [] eq_refl Hleft)
    as (variants & samples & Hret & _).
  by exists variants, samples.
Defined.

(** ** Project-max, continued *)

Lemma project_cs_arrays `{Engine} project_gt n x :
  x ∈ (λ k, (k, call_stats (project_genotypes project_gt k) n))
        <$> projects project_gt →
  length (CallStats.AC x.2) = n ∧ length (CallStats.AF x.2) = n
  ∧ length (CallStats.homozygote_count x.2) = n.
Proof.
  intros Hx. apply list_elem_of_fmap in Hx as (k & -> & _). simpl.
  by rewrite call_stats_AC, call_stats_AF, call_stats_hom.
Qed.

(** The arrays of [project_max_expr], allele by allele. *)
Lemma project_max_expr_arrays `{Engine} project_gt alleles n_projects :
  let n := length alleles in
  let project_cs :=
    (λ k, (k, call_stats (project_genotypes project_gt k) n))
      <$> projects project_gt in
  (2 ≤ n)%nat →
  ∃ result,
    project_max_expr project_gt alleles n_projects = Val (Some result)
    ∧ Forall2
        (λ ai y, ∃ ranked,
           ranked ≡ₚ filter (λ x, (0 < af_at ai x)%Qc) project_cs
           ∧ StronglySorted (λ x y, (af_at ai y ≤ af_at ai x)%Qc) ranked
           ∧ y = project_struct ai <$> take n_projects ranked)
        (seq 1 (n - 1)) result.
Proof.
  intros n project_cs Hn. unfold project_max_expr. fold n.
  rewrite project_cs_projects. fold project_cs.
  rewrite bool_decide_eq_true_2 by lia.
  destruct (hl_all_Forall2 (project_max_allele project_cs n_projects)
    (λ ai y, ∃ ranked,
       ranked ≡ₚ filter (λ x, (0 < af_at ai x)%Qc) project_cs
       ∧ StronglySorted (λ x y, (af_at ai y ≤ af_at ai x)%Qc) ranked
       ∧ y = project_struct ai <$> take n_projects ranked)
    (seq 1 (n - 1))) as (result & Hres & HF).
  { intros ai Hai. apply list_elem_of_lookup in Hai as [i Hi].
    apply lookup_seq in Hi as [-> Hi].
    destruct (project_max_allele_ranked project_cs n n_projects (1 + i)
                (project_cs_arrays project_gt n) ltac:(lia))
      as (ranked & ? & ? & ?).
    eexists. split; [done|]. by exists ranked. }
  exists result. unfold or_missing. by rewrite Hres.
Qed.

Lemma project_max_expr_few_alleles `{Engine} project_gt alleles n_projects :
  (length alleles ≤ 1)%nat →
  project_max_expr project_gt alleles n_projects = Val None.
Proof.
  intros Hn. unfold project_max_expr.
  by rewrite bool_decide_eq_false_2 by lia.
Qed.

Lemma row_project_gt_cells sgf mt row :
  (λ ce : SampleRow.t * Entry, (SampleRow.project_id ce.1, GT ce.2))
    <$> cells (select_cols sgf <$> cols mt) row
  = row_project_gt mt row.
Proof.
  rewrite cells_select. unfold row_project_gt.
  by rewrite <- list_fmap_compose.
Qed.

(** X7.  In the table of a call that returns, the [project_max] field
    never fails.  At a row with fewer than two alleles it is missing; otherwise it is the array of the first
    alternate allele alone, the projects with a positive AF at allele 1
    in decreasing order of it, at most five: [project_max_expr(...)[0]]
    reads no other allele. *)
Theorem project_max_field `{Engine} (mt : MatrixTable) (fl : Flags)
    (removed : list string) :
  calculate_downsampling fl = false →
  populations_left mt removed →
  calculate_project_max fl = true →
  ∃ variants samples,
    generate_frequency_data mt fl (Some removed) = Return (variants, samples)
    ∧ ∀ k row, rows mt !! k = Some row →
        ∃ vrow,
          table_rows variants !! k = Some vrow
          ∧ ((length (Row.alleles row) ≤ 1)%nat →
             VariantRow.project_max vrow = Some (Val None))
          ∧ ((2 ≤ length (Row.alleles row))%nat →
             ∃ ranked,
               ranked ≡ₚ filter (λ x, (0 < af_at 1 x)%Qc)
                           (row_project_cs mt row)
               ∧ StronglySorted (λ x y, (af_at 1 y ≤ af_at 1 x)%Qc) ranked
               ∧ VariantRow.project_max vrow
                 = Some (Val (Some (project_struct 1 <$> take 5 ranked)))).
Proof.
  intros Hd Hleft Hpm. rewrite generate_frequency_data_tables by done.
  cbv zeta.
  eexists _, _. split; [reflexivity|]. intros k row Hk. cbn [table_rows].
  eexists. split; [by rewrite list_lookup_fmap, Hk|].
  cbn [annotate_row VariantRow.project_max]. rewrite Hpm.
  rewrite row_project_gt_cells. split.
  - intros Hn. by rewrite project_max_expr_few_alleles.
  - intros Hn.
    destruct (project_max_expr_arrays (row_project_gt mt row)
                (Row.alleles row) 5 Hn) as (result & -> & HF).
    cbn [mbind hl_bind].
    assert (Hseq : seq 1 (length (Row.alleles row) - 1) !! 0%nat = Some 1%nat).
    { apply lookup_seq. lia. }
    destruct (Forall2_lookup_l _ _ _ _ _ HF Hseq)
      as (y & Hy & ranked & ? & ? & ->).
    exists ranked. split; [done|]. split; [done|].
    unfold array_index. by rewrite Hy.
Qed.

Lemma project_max_field_example :
  (calculate_downsampling project_max_flags = false
   ∧ populations_left example_mt []
   ∧ calculate_project_max project_max_flags = true)
  ∧ ∃ variants samples,
      generate_frequency_data example_mt project_max_flags (Some [])
      = Return (variants, samples).
Proof.
  assert (Hleft : populations_left example_mt []).
  { apply example_populations_left, not_elem_of_nil. }
  split; [by repeat split|].
  destruct (project_max_field example_mt project_max_flags [] eq_refl Hleft
              eq_refl)
    as (variants & samples & Hret & _).
  by exists variants, samples.
Defined.

Lemma NoDup_project_cs `{Engine} project_gt n :
  NoDup ((λ k, (k, call_stats (project_genotypes project_gt k) n))
           <$> projects project_gt).*1.
Proof.
  rewrite <- list_fmap_compose, list_fmap_id. apply NoDup_distinct.
Qed.

(** X8.  With two alleles or more, the array of [project_max_expr] for an
    alternate allele holds each project at most once, only projects with
    a positive AF at that allele, as many as there are up to
    [n_projects], and no project left out has a larger AF than one that
    is kept. *)
Theorem project_max_keeps_the_largest `{Engine}
    (project_gt : list (option string * option Call)) (alleles : list string)
    (n_projects : nat) :
  let n := length alleles in
  let project_cs :=
    (λ k, (k, call_stats (project_genotypes project_gt k) n))
      <$> projects project_gt in
  (2 ≤ n)%nat →
  ∃ result,
    project_max_expr project_gt alleles n_projects = Val (Some result)
    ∧ ∀ ai, (1 ≤ ai < n)%nat →
        ∃ kept,
          result !! (ai - 1)%nat = Some (project_struct ai <$> kept)
          ∧ NoDup (ProjectMax.project <$> (project_struct ai <$> kept))
          ∧ length kept
            = (n_projects
               `min` length (filter (λ x, (0 < af_at ai x)%Qc) project_cs))%nat
          ∧ (∀ x, x ∈ kept → x ∈ project_cs ∧ (0 < af_at ai x)%Qc)
          ∧ (∀ x y, x ∈ kept → y ∈ project_cs → (0 < af_at ai y)%Qc →
               y ∉ kept → (af_at ai y ≤ af_at ai x)%Qc).
Proof.
  intros n project_cs Hn.
  destruct (project_max_expr_arrays project_gt alleles n_projects Hn)
    as (result & Hres & HF).
  fold n in HF. fold project_cs in HF.
  exists result. split; [done|]. intros ai Hai.
  assert (Hseq : seq 1 (n - 1) !! (ai - 1)%nat = Some ai).
  { apply lookup_seq. lia. }
  destruct (Forall2_lookup_l _ _ _ _ _ HF Hseq)
    as (y & Hy & ranked & Hperm & Hsorted & ->).
  exists (take n_projects ranked). split; [done|]. split; [|split; [|split]].
  - rewrite <- list_fmap_compose.
    rewrite (list_fmap_ext _ fst (take n_projects ranked)) by done.
    apply (NoDup_fmap_2_strong fst).
    + intros x x' Hx Hx' E. apply subseteq_take in Hx, Hx'.
      rewrite Hperm in Hx, Hx'.
      apply list_elem_of_filter in Hx as [_ Hx], Hx' as [_ Hx'].
      by apply (NoDup_fmap_eq fst project_cs _ _
                  (NoDup_project_cs project_gt n)).
    + apply (sublist_NoDup _ ranked); [|apply sublist_take].
      rewrite Hperm. apply NoDup_filter.
      eapply NoDup_fmap_1, (NoDup_project_cs project_gt n).
  - by rewrite length_take, Hperm.
  - intros x Hx. apply subseteq_take in Hx. rewrite Hperm in Hx.
    apply list_elem_of_filter in Hx. tauto.
  - intros x z Hx Hz Hpos Hout.
    assert (Hyr : z ∈ ranked).
    { rewrite Hperm. by apply list_elem_of_filter. }
    rewrite <- (take_drop n_projects ranked) in Hyr, Hsorted.
    apply elem_of_app in Hyr as [?|Hyd]; [done|].
    by apply (StronglySorted_app_1_elem_of _ _ _ x z Hsorted).
Qed.

Lemma project_max_keeps_the_largest_example :
  (2 ≤ length ["A"; "T"])%nat
  ∧ ∃ result,
      project_max_expr example_project_gt ["A"; "T"] 5 = Val (Some result).
Proof.
  split; [simpl; lia|].
  destruct (project_max_keeps_the_largest example_project_gt ["A"; "T"] 5
              ltac:(simpl; lia)) as (result & Hres & _).
  by exists result.
Defined.

(** ** Popmax, continued *)

(** A dictionary of size 2 with two known keys is the dictionary of these
    two. *)
Lemma dict_two_keys (m : gmap string string) k1 k2 v1 v2 :
  k1 ≠ k2 → size m = 2%nat → m !! k1 = Some v1 → m !! k2 = Some v2 →
  m = {[ k1 := v1; k2 := v2 ]}.
Proof.
  intros Hne Hsize H1 H2.
  rewrite <- (insert_delete_id m k1 v1) by done. f_equal.
  assert (H2' : delete k1 m !! k2 = Some v2) by by rewrite lookup_delete_ne.
  rewrite <- (insert_delete_id (delete k1 m) k2 v2) by done.
  rewrite <- insert_empty. f_equal. apply map_size_empty_inv.
  rewrite !map_size_delete_Some by done. by rewrite Hsize.
Qed.

(** What the expression of [popmax_expr] evaluates to at a row. *)
Lemma popmax_row_value `{Engine} (freq : list Freq.t)
    (freq_meta : list (gmap string string)) (populations : gset string) :
  ∃ v,
    popmax_row freq freq_meta populations = Val v
    ∧ ∀ p, v = Some p →
        Popmax.pop p ∈ populations
        ∧ 0 < Popmax.AC p
        ∧ ∃ i f,
            freq !! i = Some f
            ∧ freq_meta !! i
              = Some {[ "group" := "adj"; "pop" := Popmax.pop p ]}
            ∧ Popmax.AC p = Freq.AC f ∧ Popmax.AF p = Freq.AF f
            ∧ Popmax.AN p = Freq.AN f
            ∧ Popmax.homozygote_count p = Freq.homozygote_count f.
Proof.
  unfold popmax_row.
  rewrite (bool_filter_decide _ (popmax_eligible populations))
    by apply popmax_filter_eligible.
  fold (indexed_entries freq freq_meta).
  set (cands := filter _ _).
  destruct (hl_sorted MetaFreq.AF true cands) as [|x rest] eqn:Hs.
  - exists None. by split.
  - destruct (sorted_head_max _ _ _ _ Hs) as [Hx _].
    apply list_elem_of_filter in Hx as [Hel Hx].
    destruct Hel as (Hsize & Hgroup & (pop & Hpop & Hin) & Hac).
    apply list_elem_of_lookup in Hx as [i Hi].
    apply indexed_entries_lookup in Hi as (f & m & Hf & Hm & ->).
    cbn [MetaFreq.annotate MetaFreq.meta MetaFreq.AC fst snd] in *.
    eexists. split.
    { simpl. unfold dict_index. cbn. rewrite Hpop. reflexivity. }
    intros p [= <-]. cbn. split; [done|]. split; [done|].
    exists i, f. split; [done|]. split; [|done].
    rewrite Hm. f_equal. by apply dict_two_keys.
Qed.

(** X9.  [popmax_expr] raises exactly when the set of allowed
    populations is empty: the literal of line 34 cannot be built.
    Otherwise it returns an expression that fails at a row only where
    [freq] does.  Where [freq] has a value and the result is not missing,
    the struct copies AC, AF, AN and the homozygote count of an entry of
    [freq] whose meta is exactly {"group": "adj", "pop": pop}, for a
    population [pop] of the allowed set, with a positive AC: never an
    entry of the raw, the global, a sex, a subpopulation or a platform
    group. *)
Theorem popmax_expr_fails_on_empty_set `{Engine} {R : Type}
    (freq : R → hl (list Freq.t))
    (freq_meta : R → list (gmap string string)) (populations : gset string) :
  (populations = ∅ ↔
   popmax_expr freq freq_meta populations = Raise ExpressionException)
  ∧ (populations ≠ ∅ →
     ∃ popmax,
       popmax_expr freq freq_meta populations = Return popmax
       ∧ ∀ r,
           (∀ msg, freq r = Fatal msg → popmax r = Fatal msg)
           ∧ ∀ fs, freq r = Val fs →
               ∃ v,
                 popmax r = Val v
                 ∧ ∀ p, v = Some p →
                     Popmax.pop p ∈ populations
                     ∧ 0 < Popmax.AC p
                     ∧ ∃ i f,
                         fs !! i = Some f
                         ∧ freq_meta r !! i
                           = Some {[ "group" := "adj";
                                     "pop" := Popmax.pop p ]}
                         ∧ Popmax.AC p = Freq.AC f
                         ∧ Popmax.AF p = Freq.AF f
                         ∧ Popmax.AN p = Freq.AN f
                         ∧ Popmax.homozygote_count p
                           = Freq.homozygote_count f).
Proof.
  split; [split|].
  - intros ->. apply popmax_expr_raises.
  - intros Hraise. destruct (decide (populations = ∅)) as [E|Hne]; [done|].
    by rewrite popmax_expr_returns in Hraise.
  - intros Hne. eexists. split; [by apply popmax_expr_returns|].
    intros r. cbv beta. split.
    + by intros msg ->.
    + intros fs ->. cbn [mbind hl_bind]. apply popmax_row_value.
Qed.

(** X10.  In the table of a call that returns, the popmax of a row is
    evaluated whenever its [freq] is, and the population it names is a
    population of the samples that is not in
    [pops_to_remove_for_popmax]. *)
Theorem popmax_skips_removed `{Engine} (mt : MatrixTable) (fl : Flags)
    (removed : list string) :
  calculate_downsampling fl = false →
  populations_left mt removed →
  ∃ variants samples,
    generate_frequency_data mt fl (Some removed) = Return (variants, samples)
    ∧ ∀ k row, rows mt !! k = Some row →
        ∃ vrow,
          table_rows variants !! k = Some vrow
          ∧ (∀ fs, VariantRow.freq vrow = Val fs →
               ∃ v, VariantRow.popmax vrow = Val v)
          ∧ ∀ p, VariantRow.popmax vrow = Val (Some p) →
              (Popmax.pop p ∉ removed)
              ∧ Popmax.pop p ∈ populations_of mt
              ∧ 0 < Popmax.AC p.
Proof.
  intros Hd Hleft. rewrite generate_frequency_data_tables by done. cbv zeta.
  eexists _, _. split; [reflexivity|]. intros k row Hk. cbn [table_rows].
  eexists. split; [by rewrite list_lookup_fmap, Hk|].
  cbn [annotate_row VariantRow.freq VariantRow.popmax].
  destruct (get_freq_expressions _ row _) as [fs|msg]; cbn [mbind hl_bind].
  - match goal with
    | |- context [popmax_row fs ?metas ?pops] =>
        destruct (popmax_row_value fs metas pops) as (v & Hv & Hprop)
    end.
    rewrite Hv. split.
    { intros ? _. by exists v. }
    intros p [= ->]. destruct (Hprop p eq_refl) as (Hin & Hac & _).
    apply elem_of_foldl_discard in Hin as [Hin Hout].
    apply elem_of_cut_pops in Hin. done.
  - split; [done | done].
Qed.

Lemma popmax_skips_removed_example :
  (calculate_downsampling default_flags = false
   ∧ populations_left example_mt ["afr"])
  ∧ ∃ variants samples,
      generate_frequency_data example_mt default_flags (Some ["afr"])
      = Return (variants, samples).
Proof.
  assert (Hleft : populations_left example_mt ["afr"]).
  { apply example_populations_left. apply not_elem_of_cons.
    split; [done | apply not_elem_of_nil]. }
  split; [by split|].
  destruct (popmax_skips_removed example_mt default_flags ["afr"] eq_refl
              Hleft)
    as (variants & samples & Hret & _).
  by exists variants, samples.
Defined.

(** X15.  A call returns its two tables exactly when it asks for no
    downsampling, is given a list of populations to remove, and a
    population of the samples is not in the list.  Given a list and no
    downsampling, when no sample has a population or every population is
    removed, the call raises while popmax is built, at line 253: the set
    literal of line 34 is empty. *)
Theorem returns_iff_population_left `{Engine} (mt : MatrixTable) (fl : Flags)
    (pops_to_remove_for_popmax : option (list string)) :
  ((∃ out, generate_frequency_data mt fl pops_to_remove_for_popmax
           = Return out)
   ↔ calculate_downsampling fl = false
     ∧ ∃ removed,
         pops_to_remove_for_popmax = Some removed
         ∧ populations_left mt removed)
  ∧ ∀ removed,
      calculate_downsampling fl = false →
      pops_to_remove_for_popmax = Some removed →
      ¬ populations_left mt removed →
      generate_frequency_data mt fl pops_to_remove_for_popmax
      = Raise ExpressionException.
Proof.
  split.
  - split.
    + intros [out Hout]. destruct (calculate_downsampling fl) eqn:Hd.
      { by rewrite generate_frequency_data_downsampling in Hout. }
      split; [done|]. destruct pops_to_remove_for_popmax as [removed|].
      * exists removed. split; [done|].
        destruct (decide (foldl (λ pops x, pops ∖ {[x]})
          (list_to_set
             (CutData.pop
                (aggregate_cut_data (calculate_by_platform fl) mt)).*1
             : gset string) removed = ∅)) as [E|Hne].
        -- rewrite generate_frequency_data_no_population in Hout;
             [done | done |].
           intros Hleft.
           by apply (cut_pops_left (calculate_by_platform fl)) in Hleft.
        -- by apply cut_pops_left in Hne.
      * by rewrite generate_frequency_data_no_downsampling in Hout.
    + intros (Hd & removed & -> & Hleft).
      rewrite generate_frequency_data_tables by done. by eexists.
  - intros removed Hd -> Hnone.
    by apply generate_frequency_data_no_population.
Qed.

Lemma returns_iff_population_left_example :
  generate_frequency_data example_mt default_flags (Some ["afr"; "nfe"])
  = Raise ExpressionException.
Proof.
  apply (proj2 (returns_iff_population_left example_mt default_flags
                  (Some ["afr"; "nfe"])) ["afr"; "nfe"]); [done | done |].
  intros (pop & Hpop & Hout). apply Hout.
  assert (Hpops : populations_of example_mt = ["afr"; "nfe"])
    by (vm_compute; reflexivity).
  by rewrite Hpops in Hpop.
Defined.

(** ** Filtering allele frequency, continued *)

Lemma dict_one_key (m : gmap string string) k v :
  size m = 1%nat → m !! k = Some v → m = {[ k := v ]}.
Proof.
  intros Hsize Hk. rewrite <- (insert_delete_id m k v) by done.
  rewrite <- insert_empty. f_equal. apply map_size_empty_inv.
  rewrite map_size_delete_Some by done. by rewrite Hsize.
Qed.

Lemma snd_zip_sublist {A B} (l : list A) (k : list B) :
  (zip l k).*2 `sublist_of` k.
Proof.
  revert k. induction l as [|x l IH]; intros [|y k]; try done.
  - apply sublist_nil_l.
  - simpl. by apply sublist_skip.
Qed.

Lemma faf_row_filter `{Engine} freq freq_meta locus populations :
  faf_row freq freq_meta locus populations
  = faf_struct
      <$> filter (faf_eligible populations locus)
            (indexed_entries freq freq_meta).
Proof.
  unfold faf_row.
  by rewrite (bool_filter_decide _ (faf_eligible populations locus))
    by apply faf_filter_eligible.
Qed.

(** X11.  The metas of the structs that the expression of [faf_expr]
    gives at a row are metas of [freq_meta], in the same order; each has
    group "adj" (the raw group gets no filtering allele frequency), and
    at a locus in an autosome or a pseudoautosomal region none has a
    "sex" key. *)
Theorem faf_expr_metas `{Engine} {R : Type} (freq : R → hl (list Freq.t))
    (freq_meta : R → list (gmap string string)) (locus : R → Locus)
    (populations : gset string) (faf : R → hl (list Faf.t)) (r : R)
    (fafs : list Faf.t) :
  faf_expr freq freq_meta locus populations = Return faf →
  faf r = Val fafs →
  Faf.meta <$> fafs `sublist_of` freq_meta r
  ∧ ∀ s, s ∈ fafs →
      Faf.meta s !! "group" = Some "adj"
      ∧ (in_autosome_or_par (locus r) = true → Faf.meta s !! "sex" = None).
Proof.
  intros Hret Hfafs. apply faf_expr_Return in Hret as [_ ->].
  cbv beta in Hfafs. destruct (freq r) as [fs|msg]; [|done].
  cbn [mbind hl_bind] in Hfafs. injection Hfafs as <-.
  rewrite faf_row_filter. split.
  - rewrite <- list_fmap_compose.
    change (Faf.meta ∘ faf_struct) with MetaFreq.meta.
    transitivity (MetaFreq.meta <$> indexed_entries fs (freq_meta r)).
    + apply fmap_sublist, sublist_filter.
    + unfold indexed_entries. rewrite <- list_fmap_compose.
      apply (snd_zip_sublist fs (freq_meta r)).
  - intros s Hs. apply list_elem_of_fmap in Hs as (e & -> & He).
    apply list_elem_of_filter in He as [[Hgroup Hkind] _].
    cbn [faf_struct Faf.meta]. split; [done|]. intros Hauto.
    destruct Hkind as [Hsize|[[Hsize (pop & Hpop & _)]|[Hno _]]].
    + rewrite (dict_one_key _ _ _ Hsize Hgroup). done.
    + rewrite (dict_two_keys _ "group" "pop" _ _ ltac:(done) Hsize Hgroup Hpop).
      done.
    + congruence.
Qed.

Lemma faf_expr_metas_example :
  ∃ faf fafs,
    faf_expr (R := unit) (λ _, Val two_entries) (λ _, two_metas)
      (λ _, {| contig := "1"; position := 100 |}) {[ "afr" ]}
    = Return faf
    ∧ faf () = Val fafs
    ∧ Faf.meta <$> fafs `sublist_of` two_metas.
Proof.
  pose (locus := λ _ : unit, {| contig := "1"; position := 100 |}).
  pose (faf := λ r : unit,
          f ← Val two_entries;
          Val (faf_row f two_metas (locus r) {[ "afr" ]})).
  assert (Hret :
    faf_expr (λ _, Val two_entries) (λ _, two_metas) locus {[ "afr" ]}
    = Return faf).
  { apply faf_expr_returns, non_empty_singleton_L. }
  exists faf, (faf_row two_entries two_metas (locus ()) {[ "afr" ]}).
  split; [done|]. split; [done|].
  exact (proj1 (faf_expr_metas (λ _, Val two_entries) (λ _, two_metas) locus
                  {[ "afr" ]} faf () _ Hret eq_refl)).
Defined.
(** ** The sample table and the metas *)

(** The meta of the [i]-th sample-group filter. *)
Lemma get_meta_expressions_lookup g rest i :
  get_meta_expressions (g :: rest) !! meta_index i
  = (λ x : SampleGroupFilter, <["group" := "adj"]> x.1) <$> (g :: rest) !! i.
Proof.
  rewrite get_meta_expressions_cons. destruct i as [|i]; [done|].
  cbn [meta_index]. by rewrite !lookup_cons, list_lookup_fmap.
Qed.

(** X12.  The sample table of a call that returns has one row per
    sample, in the order of the sample identifiers and not in that of the
    columns.  The row of a sample carries its project and age, and a
    [group_membership] that is one entry shorter than [freq_meta]: its
    entry 0, true for every sample, goes with the meta at index 0, and
    its entry [i] from 1 on goes with the meta at index [i + 1], the raw
    group taking index 1 of [freq_meta] only.  An entry is true exactly
    for the samples that its meta selects. *)
Theorem group_membership_indices `{Engine} (mt : MatrixTable) (fl : Flags)
    (removed : list string) :
  calculate_downsampling fl = false →
  populations_left mt removed →
  ∃ variants samples,
    generate_frequency_data mt fl (Some removed) = Return (variants, samples)
    ∧ freq_meta (globals samples) = freq_meta (globals variants)
    ∧ SampleRow.s <$> table_rows samples ≡ₚ Col.s <$> cols mt
    ∧ Sorted String.le (SampleRow.s <$> table_rows samples)
    ∧ ∀ srow, srow ∈ table_rows samples →
        ∃ c,
          c ∈ cols mt
          ∧ SampleRow.s srow = Col.s c
          ∧ SampleRow.project_id srow = Meta.project_id (Col.meta c)
          ∧ SampleRow.age srow = Meta.age (Col.meta c)
          ∧ S (length (SampleRow.group_membership srow))
            = length (freq_meta (globals samples))
          ∧ SampleRow.group_membership srow !! 0%nat = Some (Some true)
          ∧ ∀ i meta,
              freq_meta (globals samples) !! meta_index i = Some meta →
              ∃ b,
                SampleRow.group_membership srow !! i = Some b
                ∧ (b = Some true ↔ selected_by meta c).
Proof.
  intros Hd Hleft. rewrite generate_frequency_data_tables by done. cbv zeta.
  eexists _, _. split; [reflexivity|]. cbn [table_rows globals freq_meta].
  split; [done|]. split; [|split].
  - by rewrite sorted_by_key_perm, <- list_fmap_compose.
  - apply sorted_by_key_sorted.
  - intros srow Hsrow. rewrite sorted_by_key_perm in Hsrow.
    apply list_elem_of_fmap in Hsrow as (c & -> & Hc).
    exists c. split; [done|].
    cbn [select_cols SampleRow.s SampleRow.project_id SampleRow.age
         SampleRow.group_membership].
    split; [done|]. split; [done|]. split; [done|].
    pose proof (sample_group_selected fl mt) as Hsel.
    destruct (sample_groups_head fl mt) as [rest Hsg]. rewrite Hsg in *.
    split; [|split; [done|]].
    + rewrite get_meta_expressions_cons, !fmap_cons. cbn [length].
      by rewrite !length_fmap.
    + intros i meta Hmeta. rewrite get_meta_expressions_lookup in Hmeta.
      destruct ((global_filter :: rest) !! i) as [g|] eqn:Hg; [|done].
      injection Hmeta as <-. exists (g.2 c).
      split; [by rewrite list_lookup_fmap, Hg|].
      rewrite selected_by_adj_label. apply Hsel; [done|].
      by apply list_elem_of_lookup_2 in Hg.
Qed.

Lemma group_membership_indices_example :
  (calculate_downsampling default_flags = false
   ∧ populations_left example_mt [])
  ∧ ∃ variants samples,
      generate_frequency_data example_mt default_flags (Some [])
      = Return (variants, samples)
      ∧ Sorted String.le (SampleRow.s <$> table_rows samples).
Proof.
  assert (Hleft : populations_left example_mt []).
  { apply example_populations_left, not_elem_of_nil. }
  split; [by split|].
  destruct (group_membership_indices example_mt default_flags [] eq_refl
              Hleft)
    as (variants & samples & Hret & _ & _ & Hsorted & _).
  by exists variants, samples.
Defined.

Lemma fmap_bind_singleton {A B C} (f : B → C) (h : A → B) (l : list A) :
  f <$> (l ≫= λ x, [h x]) = l ≫= λ x, [f (h x)].
Proof.
  induction l as [|x l IH]; [done|].
  rewrite !bind_cons, fmap_app. by rewrite IH.
Qed.

Lemma fmap_bind_pairs {A1 A2 B C} (f : B → C) (h : A1 → A2 → B)
    (l1 : list A1) (l2 : list A2) :
  f <$> (l1 ≫= λ x, l2 ≫= λ y, [h x y])
  = l1 ≫= λ x, l2 ≫= λ y, [f (h x y)].
Proof.
  induction l1 as [|x l1 IH]; [done|].
  rewrite !bind_cons, fmap_app. by rewrite IH, fmap_bind_singleton.
Qed.

(** The metas of a call without downsampling: the global group, the raw
    group, then the populations, the sexes, the sexes of the populations,
    the sub-populations and, when asked for, the platforms, each family
    in the order of the aggregated struct. *)
Lemma freq_meta_layout_eq `{Engine} fl mt :
  calculate_downsampling fl = false →
  get_meta_expressions (sample_groups fl mt)
  = freq_meta_layout
      (CutData.pop (aggregate_cut_data (calculate_by_platform fl) mt)).*1
      (CutData.sex (aggregate_cut_data (calculate_by_platform fl) mt))
      (CutData.subpop (aggregate_cut_data (calculate_by_platform fl) mt))
      (CutData.platform (aggregate_cut_data (calculate_by_platform fl) mt)).
Proof.
  intros Hd. unfold sample_groups, build_sample_group_filters. rewrite Hd.
  unfold freq_meta_layout.
  destruct (calculate_by_platform fl);
    cbn [aggregate_cut_data CutData.pop CutData.sex CutData.subpop
         CutData.platform app];
    rewrite get_meta_expressions_cons; do 2 f_equal;
    rewrite ?fmap_app, <- ?list_fmap_compose;
    rewrite (fmap_bind_pairs _
      (λ sex pop,
         ({[ "pop" := pop; "sex" := sex ]} : gmap string string,
          λ c : Col.t,
            (hl_eq (Meta.sex (Col.meta c)) (Some sex)
             &&& hl_eq (Meta.pop (Col.meta c)) (Some pop))%hl))).
  - by rewrite <- !app_assoc.
  - by rewrite fmap_nil, !app_nil_r.
Qed.

(** ** The groups with a filtering allele frequency *)

(** With as many statistics as metas, the metas of the structs of
    [faf_row] are the metas that pass its condition. *)
Lemma faf_row_metas_filter `{Engine} freq freq_meta locus populations :
  length freq = length freq_meta →
  Faf.meta <$> faf_row freq freq_meta locus populations
  = filter (faf_meta_eligible populations locus) freq_meta.
Proof.
  intros Hlen. rewrite faf_row_groups, <- list_fmap_compose.
  change (Faf.meta ∘ faf_struct_of) with (@snd Freq.t (gmap string string)).
  rewrite <- (filter_fmap_on (faf_meta_eligible populations locus)
                (λ fm : Freq.t * gmap string string,
                   faf_meta_eligible populations locus fm.2) snd) by done.
  f_equal. apply (snd_zip freq freq_meta). by rewrite Hlen.
Qed.

Section faf_families.
Context `{Engine}.
Variables (pops : gset string) (locus : Locus).

(** The condition of [faf_expr] on a meta of group "adj", from its size,
    its population and its sex. *)
Lemma faf_meta_eligible_shape (meta : gmap string string) (n : nat)
    (pop sex : option string) :
  meta !! "group" = Some "adj" → size meta = n →
  meta !! "pop" = pop → meta !! "sex" = sex →
  faf_meta_eligible pops locus meta
  ↔ n = 1%nat
    ∨ (n = 2%nat ∧ ∃ p, pop = Some p ∧ p ∈ pops)
    ∨ (in_autosome_or_par locus = false
       ∧ is_Some sex
       ∧ (n = 2%nat ∨ (n = 3%nat ∧ ∃ p, pop = Some p ∧ p ∈ pops))).
Proof.
  intros Hgroup <- <- <-. unfold faf_meta_eligible, pop_allowed. tauto.
Qed.

Lemma faf_meta_global : faf_meta_eligible pops locus (adj_label ∅).
Proof.
  apply (faf_meta_eligible_shape _ 1 None None);
    [label_lookup | label_size | label_lookup | label_lookup | by left].
Qed.

Lemma faf_meta_raw : ¬ faf_meta_eligible pops locus {[ "group" := "raw" ]}.
Proof. intros [Hgroup _]. rewrite lookup_singleton_eq in Hgroup. done. Qed.

Lemma faf_meta_pop pop :
  faf_meta_eligible pops locus (adj_label {[ "pop" := pop ]}) ↔ pop ∈ pops.
Proof.
  rewrite (faf_meta_eligible_shape _ 2 (Some pop) None);
    [| label_lookup | label_size | label_lookup | label_lookup].
  split.
  - intros [?|[[_ (p & [= <-] & Hin)]|(_ & [x Hx] & _)]]; done.
  - intros Hin. right. left. split; [done|]. by exists pop.
Qed.

Lemma faf_meta_sex sex :
  faf_meta_eligible pops locus (adj_label {[ "sex" := sex ]})
  ↔ in_autosome_or_par locus = false.
Proof.
  rewrite (faf_meta_eligible_shape _ 2 None (Some sex));
    [| label_lookup | label_size | label_lookup | label_lookup].
  split.
  - intros [?|[[_ (p & Hp & _)]|(Hno & _)]]; done.
  - intros Hno. right. right. split; [done|]. split; [by exists sex|].
    by left.
Qed.

Lemma faf_meta_sex_pop sex pop :
  faf_meta_eligible pops locus (adj_label {[ "pop" := pop; "sex" := sex ]})
  ↔ in_autosome_or_par locus = false ∧ pop ∈ pops.
Proof.
  rewrite (faf_meta_eligible_shape _ 3 (Some pop) (Some sex));
    [| label_lookup | label_size | label_lookup | label_lookup].
  split.
  - intros [?|[[? _]|(Hno & _ & [?|[_ (p & [= <-] & Hin)]])]]; done.
  - intros [Hno Hin]. right. right. split; [done|].
    split; [by exists sex|]. right. split; [done|]. by exists pop.
Qed.

Lemma faf_meta_subpop (subpop : string * string) :
  ¬ faf_meta_eligible pops locus
      (adj_label {[ "subpop" := subpop.1; "pop" := subpop.2 ]}).
Proof.
  rewrite (faf_meta_eligible_shape _ 3 (Some subpop.2) None);
    [| label_lookup | label_size | label_lookup | label_lookup].
  intros [?|[[? _]|(_ & [x Hx] & _)]]; done.
Qed.

Lemma faf_meta_platform (platform : Z) :
  ¬ faf_meta_eligible pops locus
      (adj_label {[ "platform" := pretty platform ]}).
Proof.
  rewrite (faf_meta_eligible_shape _ 2 None None);
    [| label_lookup | label_size | label_lookup | label_lookup].
  intros [?|[[_ (p & Hp & _)]|(_ & [x Hx] & _)]]; done.
Qed.

End faf_families.

(** The metas of a call without downsampling that pass the condition of
    [faf_expr], when the set holds the populations that are kept. *)
Lemma faf_groups_filter `{Engine} (pops sexes : list string)
    (subpops : list (string * string)) (platforms : list Z) (locus : Locus)
    (allowed : gset string) (removed : list string) :
  (∀ p, p ∈ pops → p ∈ allowed ↔ p ∉ removed) →
  filter (faf_meta_eligible allowed locus)
    (freq_meta_layout pops sexes subpops platforms)
  = faf_groups (filter (λ pop, pop ∉ removed) pops) sexes locus.
Proof.
  intros Hpops. unfold freq_meta_layout, faf_groups.
  rewrite filter_cons_True by apply faf_meta_global.
  rewrite filter_cons_False by apply faf_meta_raw.
  rewrite !filter_app. f_equal.
  rewrite (filter_fmap_on _ (λ pop, pop ∉ removed)); last first.
  { intros p Hp. rewrite faf_meta_pop. by apply Hpops. }
  f_equal.
  rewrite (filter_fmap_none _
    (λ subpop : string * string,
       adj_label {[ "subpop" := subpop.1; "pop" := subpop.2 ]}))
    by apply faf_meta_subpop.
  rewrite (filter_fmap_none _
    (λ platform : Z, adj_label {[ "platform" := pretty platform ]}))
    by apply faf_meta_platform.
  rewrite !app_nil_r.
  destruct (in_autosome_or_par locus) eqn:Hauto.
  - rewrite filter_fmap_none; last first.
    { intros sex. rewrite faf_meta_sex. congruence. }
    rewrite filter_bind_pairs_none; [done|].
    intros sex pop. rewrite faf_meta_sex_pop. intros [? _]. congruence.
  - rewrite filter_fmap_all by (intros sex; by apply faf_meta_sex).
    f_equal.
    apply (filter_bind_pairs _ (λ pop, pop ∉ removed)
             (λ sex pop, adj_label {[ "pop" := pop; "sex" := sex ]})).
    intros sex pop Hpop. rewrite faf_meta_sex_pop, <- (Hpops pop Hpop).
    tauto.
Qed.

(** X13.  In the table of a call that returns and computes the filtering
    allele frequencies, the [faf] of a row whose [freq] has a value has
    one struct for the global group, one for each population of the
    samples that is not in [pops_to_remove_for_popmax] and, at a locus
    outside the autosomes and the pseudoautosomal regions, one for each
    sex and one for each sex of each of these populations, in this order.
    The populations come in the order of their names, the sexes in the
    order in which Python iterates over their set, the same at every row.
    The raw group, the sub-populations and the platforms get none. *)
Theorem faf_row_groups_of_call `{Engine} (mt : MatrixTable) (fl : Flags)
    (removed : list string) :
  calculate_downsampling fl = false →
  populations_left mt removed →
  calculate_faf fl = true →
  ∃ variants samples pops sexes,
    generate_frequency_data mt fl (Some removed) = Return (variants, samples)
    ∧ pops ≡ₚ populations_of mt
    ∧ Sorted String.le pops
    ∧ sexes ≡ₚ sexes_of mt
    ∧ ∀ k row, rows mt !! k = Some row →
        ∃ vrow,
          table_rows variants !! k = Some vrow
          ∧ ∀ fs, VariantRow.freq vrow = Val fs →
              ∃ fafs,
                VariantRow.faf vrow = Some (Val fafs)
                ∧ Faf.meta <$> fafs
                  = faf_groups (filter (λ pop, pop ∉ removed) pops) sexes
                      (Row.locus row).
Proof.
  intros Hd Hleft Hfaf. rewrite generate_frequency_data_tables by done.
  cbv zeta.
  set (cut := aggregate_cut_data (calculate_by_platform fl) mt).
  eexists _, _, (CutData.pop cut).*1, (CutData.sex cut).
  split; [reflexivity|]. split; [apply cut_pops_perm|].
  split; [apply cut_pops_sorted|]. split; [apply cut_sexes_perm|].
  intros k row Hk. cbn [table_rows].
  eexists. split; [by rewrite list_lookup_fmap, Hk|].
  cbn [annotate_row VariantRow.freq VariantRow.faf]. rewrite Hfaf.
  intros fs Hfs. cbn [fmap option_fmap option_map]. rewrite Hfs.
  cbn [mbind hl_bind]. eexists. split; [done|].
  rewrite faf_row_metas_filter.
  - rewrite freq_meta_layout_eq by done. apply faf_groups_filter.
    intros p Hp. rewrite elem_of_foldl_discard, elem_of_list_to_set.
    fold cut. tauto.
  - rewrite get_freq_expressions_groups in Hfs.
    apply hl_all_length in Hfs. rewrite Hfs, length_fmap.
    by rewrite get_meta_expressions_groups, length_fmap.
Qed.

Lemma faf_row_groups_of_call_example :
  (calculate_downsampling default_flags = false
   ∧ populations_left example_mt ["afr"]
   ∧ calculate_faf default_flags = true)
  ∧ ∃ variants samples,
      generate_frequency_data example_mt default_flags (Some ["afr"])
      = Return (variants, samples).
Proof.
  assert (Hleft : populations_left example_mt ["afr"]).
  { apply example_populations_left. apply not_elem_of_cons.
    split; [done | apply not_elem_of_nil]. }
  split; [by repeat split|].
  destruct (faf_row_groups_of_call example_mt default_flags ["afr"] eq_refl
              Hleft eq_refl)
    as (variants & samples & pops & sexes & Hret & _).
  by exists variants, samples.
Defined.

(** ** No two groups share a meta *)

Lemma NoDup_blocks {A K} (prof : A → K) (blocks : list (K * list A)) :
  NoDup blocks.*1 →
  Forall (λ b, NoDup b.2 ∧ ∀ x, x ∈ b.2 → prof x = b.1) blocks →
  NoDup (mjoin blocks.*2).
Proof.
  induction blocks as [|[k b] blocks IH]; intros Hkeys Hblocks.
  { constructor. }
  rewrite fmap_cons in Hkeys. apply NoDup_cons in Hkeys as [Hk Hkeys].
  apply Forall_cons in Hblocks as [[Hb Hprof] Hblocks]. cbn [fst snd] in *.
  change (mjoin ((k, b) :: blocks).*2) with (b ++ mjoin blocks.*2).
  apply NoDup_app.
  split; [done|]. split; [|by apply IH].
  intros x Hx Hrest. apply Hk.
  apply list_elem_of_join in Hrest as (b' & Hxb' & Hb').
  apply list_elem_of_fmap in Hb' as ([k' b''] & -> & Hin). cbn [snd] in Hxb'.
  rewrite Forall_forall in Hblocks. destruct (Hblocks _ Hin) as [_ Hprof'].
  rewrite <- (Hprof x Hx), (Hprof' x Hxb').
  apply list_elem_of_fmap. by exists (k', b'').
Qed.

Lemma NoDup_fmap_on {A B} (f : A → B) (l : list A) :
  (∀ x y, f x = f y → x = y) → NoDup l → NoDup (f <$> l).
Proof.
  intros Hf. induction 1 as [|x l Hx _ IH]; [constructor|].
  rewrite fmap_cons. apply NoDup_cons. split; [|done].
  intros (y & E & Hy)%list_elem_of_fmap. apply Hf in E as ->. done.
Qed.

Lemma NoDup_bind_pairs {A1 A2 B} (h : A1 → A2 → B)
    (l1 : list A1) (l2 : list A2) :
  (∀ x y x' y', h x y = h x' y' → x = x' ∧ y = y') →
  NoDup l1 → NoDup l2 →
  NoDup (l1 ≫= λ x, l2 ≫= λ y, [h x y]).
Proof.
  intros Hh Hl1 Hl2. induction Hl1 as [|x l1 Hx Hl1 IH]; [constructor|].
  rewrite bind_cons, bind_singleton_fmap. apply NoDup_app.
  split; [|split; [|done]].
  - apply NoDup_fmap_on; [|done]. intros y y' E. by apply Hh in E as [_ ?].
  - intros z Hz Hrest. apply list_elem_of_fmap in Hz as (y & -> & _).
    apply list_elem_of_bind in Hrest as (x' & Hin & Hx').
    rewrite bind_singleton_fmap in Hin.
    apply list_elem_of_fmap in Hin as (y' & E & _).
    apply Hh in E as [-> _]. done.
Qed.

Lemma elem_of_bind_pairs {A1 A2 B} (h : A1 → A2 → B)
    (l1 : list A1) (l2 : list A2) z :
  z ∈ (l1 ≫= λ x, l2 ≫= λ y, [h x y]) → ∃ x y, z = h x y.
Proof.
  intros Hz. apply list_elem_of_bind in Hz as (x & Hz & _).
  rewrite bind_singleton_fmap in Hz.
  apply list_elem_of_fmap in Hz as (y & -> & _). by exists x, y.
Qed.

Ltac label_profile :=
  unfold meta_profile; repeat f_equal;
  try (apply bool_decide_eq_true; label_lookup; by eexists);
  try (apply bool_decide_eq_false; label_lookup; by intros [? ?]);
  label_lookup.

Ltac label_inj E key :=
  apply (f_equal (.!! key)) in E; revert E; label_lookup; by intros [= ->].

(** The metas of the layout are pairwise different when the populations,
    the sexes, the sub-populations and the platforms are. *)
Lemma NoDup_freq_meta_layout (pops sexes : list string)
    (subpops : list (string * string)) (platforms : list Z) :
  NoDup pops → NoDup sexes → NoDup subpops → NoDup platforms →
  NoDup (freq_meta_layout pops sexes subpops platforms).
Proof.
  intros Hpops Hsexes Hsubpops Hplatforms.
  pose proof (NoDup_blocks meta_profile
    [ ((Some "adj", false, false, false, false), [adj_label ∅]);
      ((Some "raw", false, false, false, false), [{[ "group" := "raw" ]}]);
      ((Some "adj", true, false, false, false),
       (λ pop, adj_label {[ "pop" := pop ]}) <$> pops);
      ((Some "adj", false, true, false, false),
       (λ sex, adj_label {[ "sex" := sex ]}) <$> sexes);
      ((Some "adj", true, true, false, false),
       sex ← sexes; pop ← pops;
       [adj_label {[ "pop" := pop; "sex" := sex ]}]);
      ((Some "adj", true, false, true, false),
       (λ subpop : string * string,
          adj_label {[ "subpop" := subpop.1; "pop" := subpop.2 ]})
         <$> subpops);
      ((Some "adj", false, false, false, true),
       (λ platform : Z, adj_label {[ "platform" := pretty platform ]})
         <$> platforms) ]) as Hblocks.
  cbn [fmap list_fmap mjoin list_join snd] in Hblocks.
  rewrite app_nil_r in Hblocks. apply Hblocks; clear Hblocks.
  { refine (bool_decide_unpack (NoDup _) _). vm_compute. exact I. }
  repeat apply Forall_cons_2; [..| apply Forall_nil_2]; cbn [fst snd].
  - split; [apply NoDup_singleton|].
    intros x ->%list_elem_of_singleton. label_profile.
  - split; [apply NoDup_singleton|].
    intros x ->%list_elem_of_singleton. label_profile.
  - split.
    + apply NoDup_fmap_on; [|done]. intros p q E. label_inj E "pop".
    + intros x (p & -> & _)%list_elem_of_fmap. label_profile.
  - split.
    + apply NoDup_fmap_on; [|done]. intros p q E. label_inj E "sex".
    + intros x (p & -> & _)%list_elem_of_fmap. label_profile.
  - split.
    + apply NoDup_bind_pairs; [|done|done]. intros s p s' p' E. split.
      * label_inj E "sex".
      * label_inj E "pop".
    + intros x (s & p & ->)%elem_of_bind_pairs. label_profile.
  - split.
    + apply NoDup_fmap_on; [|done].
      intros [s p] [s' p'] E. cbn [fst snd] in E. f_equal.
      * label_inj E "subpop".
      * label_inj E "pop".
    + intros x (p & -> & _)%list_elem_of_fmap. label_profile.
  - split.
    + apply NoDup_fmap_on; [|done]. intros p q E.
      apply (f_equal (.!! "platform")) in E. revert E. label_lookup.
      intros [= E]. by apply (inj pretty) in E.
    + intros x (p & -> & _)%list_elem_of_fmap. label_profile.
Qed.

Lemma NoDup_collect_as_set `{Engine} {A} `{EqDecision A} (l : list A) :
  NoDup (collect_as_set l).
Proof. unfold collect_as_set. rewrite set_order_perm. apply NoDup_distinct. Qed.

(** X14.  In the tables of a call that returns, the two tables carry the
    same [freq_meta] and no two groups share a meta: [freq_meta] has no
    duplicates, so a meta is found at one index only. *)
Theorem freq_meta_distinct `{Engine} (mt : MatrixTable) (fl : Flags)
    (removed : list string) :
  calculate_downsampling fl = false →
  populations_left mt removed →
  ∃ variants samples,
    generate_frequency_data mt fl (Some removed) = Return (variants, samples)
    ∧ freq_meta (globals samples) = freq_meta (globals variants)
    ∧ NoDup (freq_meta (globals variants))
    ∧ ∀ i j meta, freq_meta (globals variants) !! i = Some meta →
        freq_meta (globals variants) !! j = Some meta → i = j.
Proof.
  intros Hd Hleft. rewrite generate_frequency_data_tables by done. cbv zeta.
  eexists _, _. split; [reflexivity|]. cbn [globals freq_meta].
  rewrite freq_meta_layout_eq by done.
  assert (Hnd : NoDup (freq_meta_layout
    (CutData.pop (aggregate_cut_data (calculate_by_platform fl) mt)).*1
    (CutData.sex (aggregate_cut_data (calculate_by_platform fl) mt))
    (CutData.subpop (aggregate_cut_data (calculate_by_platform fl) mt))
    (CutData.platform (aggregate_cut_data (calculate_by_platform fl) mt)))).
  { apply NoDup_freq_meta_layout.
    - rewrite cut_pops_perm. apply NoDup_distinct.
    - apply NoDup_collect_as_set.
    - apply NoDup_collect_as_set.
    - cbn [aggregate_cut_data CutData.platform].
      destruct (calculate_by_platform fl);
        [apply NoDup_collect_as_set | constructor]. }
  split; [done|]. split; [done|]. intros i j meta Hi Hj.
  by apply (NoDup_lookup _ i j meta Hnd).
Qed.

Lemma freq_meta_distinct_example :
  (calculate_downsampling default_flags = false
   ∧ populations_left example_mt [])
  ∧ ∃ variants samples,
      generate_frequency_data example_mt default_flags (Some [])
      = Return (variants, samples).
Proof.
  assert (Hleft : populations_left example_mt []).
  { apply example_populations_left, not_elem_of_nil. }
  split; [by split|].
  destruct (freq_meta_distinct example_mt default_flags [] eq_refl Hleft)
    as (variants & samples & Hret & _).
  by exists variants, samples.
Defined.
